(** * IVFFlat k-means centroid training ([src/ivfkmeans.c])

    A shallow embedding of the training core: [InitCenters] (k-means++
    seeding), [ApplyNorm], [QuickCenters], [ElkanKmeans], [CheckCenters]
    and the driver [IvfflatKmeans], followed by the properties the
    specification states about them.

    Scalars.  The C code mixes [float] (vector coordinates and all bound
    arrays) and [double] (every distance, norm and random draw).  The
    arithmetic is kept behind the interface [FloatOps]: one carrier [num],
    the operations at [double] precision, and [to_float], the narrowing
    that every store into a [float] object performs.  Two instances are
    given: [IEEE754.ops] (binary32 inside binary64, from Corelib's
    [SpecFloat]) and [ExactQ.ops] (rationals, no rounding).

    Effects.  Errors ([elog(ERROR)], cancellation) are a [result]; the
    random source and the interrupt checks are read from an outside
    world by position; arrays are lists updated by index. *)

From Stdlib Require Import ZArith QArith Qpower Lqa Lia List Bool Permutation Sorted.
From Corelib Require Import SpecFloat.
From stdpp Require Import base list.

Local Open Scope nat_scope.

(** ** Scalar arithmetic *)

Class FloatOps := {
  num : Type;
  (* bitwise identity of two scalars, what datumIsEqual observes *)
  num_eq_dec :: EqDecision num;
  zero : num;
  half : num;                       (* the literal 0.5 *)
  FLT_MAX : num;
  fadd : num -> num -> num;
  fsub : num -> num -> num;
  fmul : num -> num -> num;
  fdiv : num -> num -> num;
  fneg : num -> num;
  to_float : num -> num;            (* (float) x *)
  of_int : Z -> num;                (* (double) n *)
  flt : num -> num -> bool;         (* x < y *)
  fle : num -> num -> bool;         (* x <= y *)
  feq : num -> num -> bool;         (* x == y *)
  fisnan : num -> bool;
  fisinf : num -> bool
}.

#[global] Instance num_inhabited `{FloatOps} : Inhabited num := populate zero.

(** *** IEEE 754 instance: binary64 operations, binary32 narrowing *)

Module IEEE754.

Definition prec64 : Z := 53.
Definition emax64 : Z := 1024.
Definition prec32 : Z := 24.
Definition emax32 : Z := 128.

Definition spec_float_eq_dec : EqDecision spec_float.
Proof.
  unfold EqDecision, Decision.
  decide equality; first [apply Bool.bool_dec | apply Pos.eq_dec | apply Z.eq_dec].
Defined.

(** A value in the canonical binary64 form the operations expect. *)
Definition widen (x : spec_float) : spec_float :=
  match x with
  | S754_finite s m e => binary_normalize prec64 emax64 (cond_Zopp s (Zpos m)) e s
  | _ => x
  end.

(** [(float) x]: round to binary32 (to nearest, ties to even), then hold
   the result as a binary64 again, which is exact. *)
Definition narrow (x : spec_float) : spec_float :=
  match x with
  | S754_finite s m e =>
      widen (binary_normalize prec32 emax32 (cond_Zopp s (Zpos m)) e s)
  | _ => x
  end.

(** The largest finite binary32: (2^24 - 1) * 2^104. *)
Definition flt_max : spec_float :=
  Eval vm_compute in binary_normalize prec64 emax64 16777215 104 false.

Definition is_nan (x : spec_float) : bool :=
  match x with S754_nan => true | _ => false end.
Definition is_inf (x : spec_float) : bool :=
  match x with S754_infinity _ => true | _ => false end.

Definition of_Z (n : Z) : spec_float := binary_normalize prec64 emax64 n 0 false.

Definition ops : FloatOps := {|
  num := spec_float;
  num_eq_dec := spec_float_eq_dec;
  zero := S754_zero false;
  half := S754_finite false 4503599627370496 (-53);
  FLT_MAX := flt_max;
  fadd := SFadd prec64 emax64;
  fsub := SFsub prec64 emax64;
  fmul := SFmul prec64 emax64;
  fdiv := SFdiv prec64 emax64;
  fneg := SFopp;
  to_float := narrow;
  of_int := of_Z;
  flt := SFltb;
  fle := SFleb;
  feq := SFeqb;
  fisnan := is_nan;
  fisinf := is_inf
|}.

(** The rational a scalar stands for; zero for NaN and the infinities. *)
Definition value (x : spec_float) : Q :=
  match x with
  | S754_finite s m e => (inject_Z (cond_Zopp s (Zpos m)) * 2 ^ e)%Q
  | _ => 0%Q
  end.

(** A zero, or a [double] in canonical form: not NaN, not infinite. *)
Definition finite (x : spec_float) : bool :=
  match x with
  | S754_zero _ => true
  | S754_finite _ m e => bounded prec64 emax64 m e
  | _ => false
  end.

End IEEE754.

(** *** Exact instance: rationals, no rounding, no NaN, no infinity *)

Module ExactQ.

Definition Q_eq_dec : EqDecision Q.
Proof.
  intros [a b] [c d].
  destruct (Z.eq_dec a c) as [->|Hn]; [|right; congruence].
  destruct (Pos.eq_dec b d) as [->|Hn]; [left; reflexivity|right; congruence].
Defined.

Definition Qltb (x y : Q) : bool :=
  match Qcompare x y with Lt => true | _ => false end.

(** [FLT_MAX] as a rational: (2^24 - 1) * 2^104. *)
Definition flt_max : Q := inject_Z (16777215 * 2 ^ 104).

Definition ops : FloatOps := {|
  num := Q;
  num_eq_dec := Q_eq_dec;
  zero := 0%Q;
  half := (1 # 2)%Q;
  FLT_MAX := flt_max;
  fadd := Qplus;
  fsub := Qminus;
  fmul := Qmult;
  fdiv := Qdiv;
  fneg := Qopp;
  to_float := fun x => x;
  of_int := inject_Z;
  flt := Qltb;
  fle := Qle_bool;
  feq := Qeq_bool;
  fisnan := fun _ => false;
  fisinf := fun _ => false
|}.

End ExactQ.

(** ** Errors and the outside world *)

(** Every [elog(ERROR, ...)] / [ereport(ERROR, ...)] of the file, plus the
   cancellation raised by [CHECK_FOR_INTERRUPTS]. *)
Inductive error :=
  | BudgetExceeded (required_mb budget_mb : Z)
  | IndexingOverflow
  | UnsupportedType
  | NotEnoughCenters
  | NaNDetected
  | InfiniteDetected
  | DuplicateCenters
  | ZeroNormDetected
  | Cancelled.

Inductive result (A : Type) :=
  | Ok (a : A)
  | Err (e : error).
Arguments Ok {A} a.
Arguments Err {A} e.

Definition bind {A B} (r : result A) (k : A -> result B) : result B :=
  match r with
  | Ok a => k a
  | Err e => Err e
  end.

Notation "'do' x <- r ; k" := (bind r (fun x => k))
  (at level 10, x name, r at level 100, k at level 200).
Notation "'do' ' p <- r ; k" := (bind r (fun x => let p := x in k))
  (at level 10, p pattern, r at level 100, k at level 200).

(** The element type tag.  [ivfflat.h] is not part of the sources; the
   code only distinguishes [IVFFLAT_TYPE_VECTOR] from everything else. *)
Inductive IvfflatType := IVFFLAT_TYPE_VECTOR | IVFFLAT_TYPE_OTHER.

(** Position in the random stream and number of interrupt checks passed. *)
Record world := mkWorld { rng : nat; checks : nat }.

(** ** Machine integers *)

Definition INT_MAX : Z := 2147483647.

(** A 32-bit signed [int] after wrap-around. *)
Definition wrap32 (z : Z) : Z := (z + 2 ^ 31) mod 2 ^ 32 - 2 ^ 31.

(** A [Size] (64-bit [size_t]) after wrap-around. *)
Definition wrapSize (z : Z) : Z := z mod 2 ^ 64.

(** A [Vector]: [dim] is the length of the list, [x] the list itself. *)
Abbreviation Vector := (list num) (only parsing).

Section Kmeans.

Context {F : FloatOps}.

(** ** Data model *)

(** [VectorArrayData]: [items] is the buffer of [maxlen] slots, of which
   the first [length] are in use. *)
Record VectorArray := mkVectorArray {
  va_length : nat;
  va_maxlen : nat;
  va_dim : nat;
  va_itemsize : Z;
  va_items : list Vector
}.

Definition VectorArrayGet (arr : VectorArray) (i : nat) : Vector :=
  va_items arr !!! i.

(** [VectorArraySet] copies one item into slot [i].  Outside the buffer
   the C code writes past the allocation (undefined behaviour); the
   model leaves the array as it is. *)
Definition VectorArraySet (arr : VectorArray) (i : nat) (v : Vector) : VectorArray :=
  mkVectorArray (va_length arr) (va_maxlen arr) (va_dim arr) (va_itemsize arr)
                (<[i := v]> (va_items arr)).

Definition incr_length (arr : VectorArray) : VectorArray :=
  mkVectorArray (S (va_length arr)) (va_maxlen arr) (va_dim arr) (va_itemsize arr)
                (va_items arr).

Definition with_items (arr : VectorArray) (items : list Vector) : VectorArray :=
  mkVectorArray (va_length arr) (va_maxlen arr) (va_dim arr) (va_itemsize arr) items.

(** The items an index loop [for (i = 0; i < arr->length; i++)] reads. *)
Definition va_elems (arr : VectorArray) : list Vector :=
  map (VectorArrayGet arr) (seq 0 (va_length arr)).

(** The index relation, as far as this file looks into it: the support
   functions behind [IVFFLAT_KMEANS_DISTANCE_PROC],
   [IVFFLAT_KMEANS_NORM_PROC] and [IVFFLAT_NORM_PROC]. *)
Record Relation := mkRelation {
  KMEANS_DISTANCE_PROC : Vector -> Vector -> num;
  KMEANS_NORM_PROC : option (Vector -> num);
  NORM_PROC : option (Vector -> num)
}.

(** What the file calls but does not define. *)
Class Externals := {
  (* RandomInt() and RandomDouble(), by position in the stream *)
  RandomInt_at : nat -> nat;
  RandomDouble_at : nat -> num;
  (* whether the n-th CHECK_FOR_INTERRUPTS finds a pending cancel *)
  interrupt_pending : nat -> bool;
  (* qsort with a comparator, on the used prefix of a buffer *)
  qsort : (Vector -> Vector -> Z) -> list Vector -> list Vector;
  (* the setting maintenance_work_mem, in kilobytes *)
  maintenance_work_mem : Z;
  (* the macro VECTOR_ARRAY_SIZE(_length, _size) of ivfflat.h *)
  VECTOR_ARRAY_SIZE : Z -> Z -> Z;
  (* what a read of [halfcdist] at an index outside the array finds *)
  stray_float : Z -> num
}.

Context {E : Externals}.

Definition RandomInt (w : world) : nat * world :=
  (RandomInt_at (rng w), mkWorld (S (rng w)) (checks w)).

Definition RandomDouble (w : world) : num * world :=
  (RandomDouble_at (rng w), mkWorld (S (rng w)) (checks w)).

Definition CHECK_FOR_INTERRUPTS (w : world) : result world :=
  if interrupt_pending (checks w) then Err Cancelled
  else Ok (mkWorld (rng w) (S (checks w))).

(** Modelled from the spec: [vector_cmp_internal] lives in [vector.c],
   which is not among the sources; the spec describes it as the
   lexicographic order by coordinate value.  [a > b] is [b < a]. *)
Fixpoint vector_cmp_internal (a b : Vector) : Z :=
  match a, b with
  | x :: a', y :: b' =>
      if flt x y then (-1)%Z
      else if flt y x then 1%Z
      else vector_cmp_internal a' b'
  | _, _ => 0%Z
  end.

Definition CompareVectors (a b : Vector) : Z := vector_cmp_internal a b.

(** [datumIsEqual(a, b, false, -1)]: same size and same bytes. *)
Definition datumIsEqual (a b : Vector) : bool := bool_decide (a = b).

(** [qsort(arr->items, arr->length, arr->itemsize, CompareVectors)] *)
Definition qsort_array (arr : VectorArray) : VectorArray :=
  with_items arr (qsort CompareVectors (take (va_length arr) (va_items arr))
                  ++ drop (va_length arr) (va_items arr)).

(** ** ApplyNorm *)

Definition ApplyNorm (normproc : Vector -> num) (vec : Vector) : Vector :=
  let norm := normproc vec in
  if flt zero norm
  then map (fun x => to_float (fdiv x norm)) vec
  else vec.

(** [for (j = 0; j < dimensions; j++) vec->x[j] = RandomDouble();] *)
Fixpoint random_vector (dimensions : nat) (w : world) : Vector * world :=
  match dimensions with
  | O => ([], w)
  | S d =>
      let '(r, w1) := RandomDouble w in
      let '(rest, w2) := random_vector d w1 in
      (to_float r :: rest, w2)
  end.

Definition normalize_if_needed (normproc : option (Vector -> num)) (vec : Vector) : Vector :=
  match normproc with
  | Some f => ApplyNorm f vec
  | None => vec
  end.

(** ** QuickCenters *)

(** One pass of the copy loop: sample [i] is appended unless it is
   byte-equal to its predecessor. *)
Definition copy_if_new (samples : VectorArray) (centers : VectorArray) (i : nat)
  : VectorArray :=
  let vec := VectorArrayGet samples i in
  if (i =? 0) || negb (datumIsEqual vec (VectorArrayGet samples (i - 1)))
  then incr_length (VectorArraySet centers (va_length centers) vec)
  else centers.

Definition copy_distinct (samples centers : VectorArray) : VectorArray :=
  fold_left (copy_if_new samples) (seq 0 (va_length samples)) centers.

(** [while (centers->length < centers->maxlen)]: [n] bounds the number
   of passes; [maxlen - length] passes are what the loop needs. *)
Fixpoint fill_random (n : nat) (index : Relation) (type : IvfflatType)
    (centers : VectorArray) (w : world) : result (VectorArray * world) :=
  match n with
  | O => Ok (centers, w)
  | S n' =>
      if va_length centers <? va_maxlen centers then
        match type with
        | IVFFLAT_TYPE_VECTOR =>
            let '(vec, w1) := random_vector (va_dim centers) w in
            let vec := normalize_if_needed (KMEANS_NORM_PROC index) vec in
            fill_random n' index type
              (incr_length (VectorArraySet centers (va_length centers) vec)) w1
        | _ => Err UnsupportedType
        end
      else Ok (centers, w)
  end.

Definition QuickCenters (index : Relation) (samples centers : VectorArray)
    (type : IvfflatType) (w : world)
  : result (VectorArray * VectorArray * world) :=
  do '(samples1, centers1) <-
    (if 0 <? va_length samples then
       match type with
       | IVFFLAT_TYPE_VECTOR =>
           let samples1 := qsort_array samples in
           Ok (samples1, copy_distinct samples1 centers)
       | _ => Err UnsupportedType
       end
     else Ok (samples, centers)) ;
  do '(centers2, w2) <-
    fill_random (va_maxlen centers1 - va_length centers1) index type centers1 w ;
  Ok (samples1, centers2, w2).

(** ** CheckCenters *)

(** The scan of one center: the first offending coordinate decides. *)
Fixpoint check_coordinates (vec : Vector) : result unit :=
  match vec with
  | [] => Ok tt
  | x :: rest =>
      if fisnan x then Err NaNDetected
      else if fisinf x then Err InfiniteDetected
      else check_coordinates rest
  end.

Fixpoint check_values (vecs : list Vector) : result unit :=
  match vecs with
  | [] => Ok tt
  | v :: rest => do _ <- check_coordinates v ; check_values rest
  end.

(** [for (i = 1; i < length; i++) if (datumIsEqual(items[i], items[i-1]))] *)
Fixpoint has_adjacent_duplicate (vecs : list Vector) : bool :=
  match vecs with
  | a :: (b :: _) as rest => datumIsEqual b a || has_adjacent_duplicate rest
  | _ => false
  end.

Definition has_zero_norm (normproc : Vector -> num) (vecs : list Vector) : bool :=
  existsb (fun v => feq (normproc v) zero) vecs.

Definition CheckCenters (index : Relation) (centers : VectorArray)
    (type : IvfflatType) : result VectorArray :=
  if negb (va_length centers =? va_maxlen centers) then Err NotEnoughCenters
  else
    do _ <- check_values (va_elems centers) ;
    match type with
    | IVFFLAT_TYPE_VECTOR =>
        let centers1 := qsort_array centers in
        if has_adjacent_duplicate (va_elems centers1) then Err DuplicateCenters
        else
          match NORM_PROC index with
          | Some normproc =>
              if has_zero_norm normproc (va_elems centers1)
              then Err ZeroNormDetected
              else Ok centers1
          | None => Ok centers1
          end
    | _ => Err UnsupportedType
    end.

(** ** InitCenters (k-means++) *)

(** Body of the distance loop for the new center [i] and sample [j]:
   store the lower bound, then fold the squared distance into the
   weights and their sum. *)
Definition init_distance (index : Relation) (samples centers : VectorArray)
    (numCenters i : nat) (acc : list num * list num * num) (j : nat)
  : list num * list num * num :=
  let '(lowerBound, weight, sum) := acc in
  let vec := VectorArrayGet samples j in
  let distance := KMEANS_DISTANCE_PROC index vec (VectorArrayGet centers i) in
  let lowerBound := <[j * numCenters + i := to_float distance]> lowerBound in
  let distance := fmul distance distance in
  let weight :=
    if flt distance (weight !!! j) then <[j := to_float distance]> weight else weight in
  (lowerBound, weight, fadd sum (weight !!! j)).

(** [for (j = 0; j < numSamples - 1; j++) { choice -= weight[j];
   if (choice <= 0) break; }], started at [j] with [n] passes left; the
   value is [j] on exit. *)
Fixpoint choose_sample (weight : list num) (j n : nat) (choice : num) : nat :=
  match n with
  | O => j
  | S n' =>
      let choice := fsub choice (weight !!! j) in
      if fle choice zero then j
      else choose_sample weight (S j) n' choice
  end.

(** The loop over the centers, [idxs] being the indices still to visit. *)
Fixpoint InitCenters_loop (index : Relation) (samples : VectorArray)
    (numCenters numSamples : nat) (idxs : list nat)
    (centers : VectorArray) (lowerBound weight : list num) (w : world)
  : result (VectorArray * list num * world) :=
  match idxs with
  | [] => Ok (centers, lowerBound, w)
  | i :: rest =>
      do w1 <- CHECK_FOR_INTERRUPTS w ;
      let '(lowerBound1, weight1, sum) :=
        fold_left (init_distance index samples centers numCenters i)
                  (seq 0 numSamples) (lowerBound, weight, zero) in
      if i + 1 =? numCenters then Ok (centers, lowerBound1, w1)
      else
        let '(r, w2) := RandomDouble w1 in
        let choice := fmul sum r in
        let j := choose_sample weight1 0 (numSamples - 1) choice in
        InitCenters_loop index samples numCenters numSamples rest
          (incr_length (VectorArraySet centers (i + 1) (VectorArrayGet samples j)))
          lowerBound1 weight1 w2
  end.

(** [RandomInt() % samples->length] divides by zero on an empty sample
   array, which [IvfflatKmeans] never passes (it calls [ElkanKmeans]
   with more samples than centers).  The model's [mod] gives the
   dividend there; the statements that say [ElkanKmeans] returns
   assume a sample. *)
Definition InitCenters (index : Relation) (samples centers : VectorArray)
    (lowerBound : list num) (w : world)
  : result (VectorArray * list num * world) :=
  let numCenters := va_maxlen centers in
  let numSamples := va_length samples in
  let '(r, w1) := RandomInt w in
  let centers1 :=
    incr_length
      (VectorArraySet centers 0 (VectorArrayGet samples (r mod va_length samples))) in
  let weight := replicate numSamples FLT_MAX in
  InitCenters_loop index samples numCenters numSamples (seq 0 numCenters)
                   centers1 lowerBound weight w1.

(** ** ElkanKmeans *)

(** The scratch arrays and the centers being trained. *)
Record elkan_state := mkElkan {
  centers : VectorArray;
  lowerBound : list num;         (* numSamples * numCenters, row-major *)
  upperBound : list num;         (* numSamples *)
  closestCenters : list nat;     (* numSamples *)
  halfcdist : list num;          (* numCenters * numCenters *)
  s : list num;                  (* numCenters *)
  newcdist : list num;           (* numCenters *)
  wld : world
}.

(** The part of the state that Steps 2 and 3 update, with the [changes]
   counter of the pass (an [int]). *)
Record assignment := mkAssign {
  a_lower : list num;
  a_upper : list num;
  a_closest : list nat;
  a_changes : Z
}.

(** Closest initial center of sample [j]: the scan of row [j] of
   [lowerBound], from [(FLT_MAX, 0)]. *)
Definition initial_closest (numCenters : nat) (lowerBound : list num) (j : nat)
  : num * nat :=
  fold_left
    (fun (acc : num * nat) k =>
       let '(minDistance, closestCenter) := acc in
       let distance := lowerBound !!! (j * numCenters + k) in
       if flt distance minDistance then (distance, k) else acc)
    (seq 0 numCenters) (FLT_MAX, 0).

Definition initial_assignment (numSamples numCenters : nat) (lowerBound : list num)
    (upperBound : list num) (closestCenters : list nat) : list num * list nat :=
  fold_left
    (fun (acc : list num * list nat) j =>
       let '(minDistance, closestCenter) := initial_closest numCenters lowerBound j in
       (<[j := minDistance]> (fst acc), <[j := closestCenter]> (snd acc)))
    (seq 0 numSamples) (upperBound, closestCenters).

(** Step 1: half the distance between every pair of centers. *)
Definition step1_pair (index : Relation) (cs : VectorArray) (numCenters j : nat)
    (halfcdist : list num) (k : nat) : list num :=
  let distance :=
    to_float (fmul half (KMEANS_DISTANCE_PROC index (VectorArrayGet cs j)
                                                    (VectorArrayGet cs k))) in
  <[k * numCenters + j := distance]> (<[j * numCenters + k := distance]> halfcdist).

Definition step1 (index : Relation) (cs : VectorArray) (numCenters : nat)
    (halfcdist : list num) : list num :=
  fold_left
    (fun h j => fold_left (step1_pair index cs numCenters j)
                          (seq (j + 1) (numCenters - (j + 1))) h)
    (seq 0 numCenters) halfcdist.

(** [s(c)]: half the distance from center [j] to its closest other center. *)
Definition closest_other (numCenters : nat) (halfcdist : list num) (j : nat) : num :=
  fold_left
    (fun minDistance k =>
       if j =? k then minDistance
       else
         let distance := halfcdist !!! (j * numCenters + k) in
         if flt distance minDistance then distance else minDistance)
    (seq 0 numCenters) FLT_MAX.

Definition compute_s (numCenters : nat) (halfcdist : list num) (s : list num) : list num :=
  fold_left (fun s j => <[j := closest_other numCenters halfcdist j]> s)
            (seq 0 numCenters) s.

(** [changes++] on an [int]. *)
Definition int_incr (n : Z) : Z := wrap32 (n + 1).

(** [closestCenters[j] * numCenters + k]: the product of two [int]s is
   an [int] and wraps; the sum with the [int64] [k] is an [int64]. *)
Definition halfcdist_index (closestCenter numCenters k : nat) : Z :=
  (wrap32 (Z.of_nat closestCenter * Z.of_nat numCenters) + Z.of_nat k)%Z.

(** [a[i]] for a signed index [i].  Outside the array the C code reads
   memory it does not own (undefined behaviour); the model reads what
   the outside world holds there. *)
Definition float_at (a : list num) (i : Z) : num :=
  if ((0 <=? i) && (i <? Z.of_nat (length a)))%Z then a !!! Z.to_nat i
  else stray_float i.

(** Step 3 for sample [j] and center [k]; [rj] is the flag r(x). *)
Definition step3 (index : Relation) (samples cs : VectorArray) (numCenters : nat)
    (halfcdist : list num) (j : nat) (acc : assignment * bool) (k : nat)
  : assignment * bool :=
  let '(a, rj) := acc in
  if k =? a_closest a !!! j then acc
  else if fle (a_upper a !!! j) (a_lower a !!! (j * numCenters + k)) then acc
  else if fle (a_upper a !!! j)
              (float_at halfcdist (halfcdist_index (a_closest a !!! j) numCenters k))
  then acc
  else
    let vec := VectorArrayGet samples j in
    (* Step 3a *)
    let '(dxcx, a1) :=
      if rj then
        let dxcx := to_float (KMEANS_DISTANCE_PROC index vec
                                (VectorArrayGet cs (a_closest a !!! j))) in
        (dxcx, mkAssign (<[j * numCenters + a_closest a !!! j := dxcx]> (a_lower a))
                        (<[j := dxcx]> (a_upper a)) (a_closest a) (a_changes a))
      else (a_upper a !!! j, a) in
    (* Step 3b *)
    if flt (a_lower a1 !!! (j * numCenters + k)) dxcx
       || flt (float_at halfcdist (halfcdist_index (a_closest a1 !!! j) numCenters k)) dxcx
    then
      let dxc := to_float (KMEANS_DISTANCE_PROC index vec (VectorArrayGet cs k)) in
      let lower2 := <[j * numCenters + k := dxc]> (a_lower a1) in
      if flt dxc dxcx
      then (mkAssign lower2 (<[j := dxc]> (a_upper a1)) (<[j := k]> (a_closest a1))
                     (int_incr (a_changes a1)), false)
      else (mkAssign lower2 (a_upper a1) (a_closest a1) (a_changes a1), false)
    else (a1, false).

(** Steps 2 and 3 for sample [j]. *)
Definition step23 (index : Relation) (samples cs : VectorArray) (numCenters : nat)
    (halfcdist s : list num) (rjreset : bool) (a : assignment) (j : nat) : assignment :=
  if fle (a_upper a !!! j) (s !!! (a_closest a !!! j)) then a
  else fst (fold_left (step3 index samples cs numCenters halfcdist j)
                      (seq 0 numCenters) (a, rjreset)).

Definition assign_points (index : Relation) (samples cs : VectorArray)
    (numSamples numCenters : nat) (halfcdist s : list num) (rjreset : bool)
    (a : assignment) : assignment :=
  fold_left (step23 index samples cs numCenters halfcdist s rjreset)
            (seq 0 numSamples) a.

(** Step 4, first loops: the sums and counts per center, from zeroed
   [newCenters] and [centerCounts]. *)
Definition add_sample (samples : VectorArray) (dimensions : nat)
    (closestCenters : list nat) (acc : list Vector * list Z) (j : nat)
  : list Vector * list Z :=
  let '(newCenters, centerCounts) := acc in
  let closestCenter := closestCenters !!! j in
  let vec := VectorArrayGet samples j in
  let newCenter :=
    fold_left (fun (c : Vector) k => <[k := to_float (fadd (c !!! k) (vec !!! k))]> c)
              (seq 0 dimensions) (newCenters !!! closestCenter) in
  (<[closestCenter := newCenter]> newCenters,
   <[closestCenter := wrap32 (centerCounts !!! closestCenter + 1)]> centerCounts).

Definition sum_samples (samples : VectorArray) (numSamples numCenters dimensions : nat)
    (closestCenters : list nat) : list Vector * list Z :=
  fold_left (add_sample samples dimensions closestCenters) (seq 0 numSamples)
            (replicate numCenters (replicate dimensions zero),
             replicate numCenters 0%Z).

(** [if (isinf(x)) x = x > 0 ? FLT_MAX : -FLT_MAX] *)
Definition clamp_inf (x : num) : num :=
  if fisinf x then (if flt zero x then FLT_MAX else fneg FLT_MAX) else x.

(** Step 4, last loop, for center [j]: the mean, or a random vector for
   an empty cluster, then the optional normalization. *)
Definition finish_center (index : Relation) (dimensions : nat) (centerCounts : list Z)
    (acc : list Vector * world) (j : nat) : list Vector * world :=
  let '(newCenters, w) := acc in
  let vec := newCenters !!! j in
  let count := centerCounts !!! j in
  let '(vec1, w1) :=
    if (0 <? count)%Z
    then (map (fun x => to_float (fdiv x (to_float (of_int count))))
              (map clamp_inf vec), w)
    else random_vector dimensions w in
  (<[j := normalize_if_needed (KMEANS_NORM_PROC index) vec1]> newCenters, w1).

Definition new_centers (index : Relation) (samples : VectorArray)
    (numSamples numCenters dimensions : nat) (closestCenters : list nat) (w : world)
  : list Vector * world :=
  let '(sums, centerCounts) :=
    sum_samples samples numSamples numCenters dimensions closestCenters in
  fold_left (finish_center index dimensions centerCounts) (seq 0 numCenters) (sums, w).

(** Step 5: how far each center moved, and the lower bounds widened. *)
Definition center_shifts (index : Relation) (cs : VectorArray) (newCenters : list Vector)
    (numCenters : nat) (newcdist : list num) : list num :=
  fold_left
    (fun d j => <[j := to_float (KMEANS_DISTANCE_PROC index (VectorArrayGet cs j)
                                                       (newCenters !!! j))]> d)
    (seq 0 numCenters) newcdist.

Definition widen_lower_at (numCenters : nat) (newcdist : list num) (j : nat)
    (lowerBound : list num) (k : nat) : list num :=
  let distance := to_float (fsub (lowerBound !!! (j * numCenters + k)) (newcdist !!! k)) in
  let distance := if flt distance zero then zero else distance in
  <[j * numCenters + k := distance]> lowerBound.

Definition widen_lower (numSamples numCenters : nat) (newcdist lowerBound : list num)
  : list num :=
  fold_left
    (fun l j => fold_left (widen_lower_at numCenters newcdist j) (seq 0 numCenters) l)
    (seq 0 numSamples) lowerBound.

(** Step 6 *)
Definition widen_upper (numSamples : nat) (newcdist : list num)
    (closestCenters : list nat) (upperBound : list num) : list num :=
  fold_left
    (fun u j => <[j := to_float (fadd (u !!! j) (newcdist !!! (closestCenters !!! j)))]> u)
    (seq 0 numSamples) upperBound.

(** Step 7 *)
Definition commit_centers (numCenters : nat) (newCenters : list Vector)
    (cs : VectorArray) : VectorArray :=
  fold_left (fun c j => VectorArraySet c j (newCenters !!! j)) (seq 0 numCenters) cs.

(** Steps 1 to 3 of pass [iteration]. *)
Definition assign_phase (index : Relation) (samples : VectorArray)
    (iteration : nat) (st : elkan_state) : elkan_state * Z :=
  let numCenters := va_maxlen (centers st) in
  let numSamples := va_length samples in
  let halfcdist1 := step1 index (centers st) numCenters (halfcdist st) in
  let s1 := compute_s numCenters halfcdist1 (s st) in
  let rjreset := negb (iteration =? 0) in
  let a :=
    assign_points index samples (centers st) numSamples numCenters halfcdist1 s1 rjreset
      (mkAssign (lowerBound st) (upperBound st) (closestCenters st) 0) in
  (mkElkan (centers st) (a_lower a) (a_upper a) (a_closest a) halfcdist1 s1
           (newcdist st) (wld st),
   a_changes a).

(** Steps 4 to 7. *)
Definition update_phase (index : Relation) (samples : VectorArray)
    (st : elkan_state) : elkan_state :=
  let dimensions := va_dim (centers st) in
  let numCenters := va_maxlen (centers st) in
  let numSamples := va_length samples in
  let '(newCenters, w1) :=
    new_centers index samples numSamples numCenters dimensions
                (closestCenters st) (wld st) in
  let newcdist1 := center_shifts index (centers st) newCenters numCenters (newcdist st) in
  mkElkan (commit_centers numCenters newCenters (centers st))
          (widen_lower numSamples numCenters newcdist1 (lowerBound st))
          (widen_upper numSamples newcdist1 (closestCenters st) (upperBound st))
          (closestCenters st) (halfcdist st) (s st) newcdist1 w1.

(** One pass of the outer loop after its interrupt check; the second
   component is the value of [changes] at the end of the pass. *)
Definition elkan_pass (index : Relation) (samples : VectorArray)
    (iteration : nat) (st : elkan_state) : elkan_state * Z :=
  let '(st1, changes) := assign_phase index samples iteration st in
  (update_phase index samples st1, changes).

Definition with_world (st : elkan_state) (w : world) : elkan_state :=
  mkElkan (centers st) (lowerBound st) (upperBound st) (closestCenters st)
          (halfcdist st) (s st) (newcdist st) w.

(** [for (int iteration = 0; iteration < 500; iteration++)], entered at
   [iteration] with [n = 500 - iteration] passes left.  Besides the
   final state the model returns the value [changes] had at the end of
   each pass it ran, oldest first. *)
Fixpoint elkan_loop (index : Relation) (samples : VectorArray)
    (n iteration : nat) (st : elkan_state) : result (elkan_state * list Z) :=
  match n with
  | O => Ok (st, [])
  | S n' =>
      do w1 <- CHECK_FOR_INTERRUPTS (wld st) ;
      let '(st1, changes) := elkan_pass index samples iteration (with_world st w1) in
      if (changes =? 0)%Z && negb (iteration =? 0) then Ok (st1, [changes])
      else
        do '(st2, trace) <- elkan_loop index samples n' (S iteration) st1 ;
        Ok (st2, changes :: trace)
  end.

(** The allocation sizes, in [Size] arithmetic. *)
Definition totalSize (samples cs : VectorArray) : Z :=
  let numCenters := Z.of_nat (va_maxlen cs) in
  let numSamples := Z.of_nat (va_length samples) in
  let samplesSize :=
    wrapSize (VECTOR_ARRAY_SIZE (Z.of_nat (va_maxlen samples)) (va_itemsize samples)) in
  let centersSize :=
    wrapSize (VECTOR_ARRAY_SIZE (Z.of_nat (va_maxlen cs)) (va_itemsize cs)) in
  let newCentersSize := wrapSize (VECTOR_ARRAY_SIZE numCenters (va_itemsize cs)) in
  let centerCountsSize := wrapSize (4 * numCenters) in
  let closestCentersSize := wrapSize (4 * numSamples) in
  let lowerBoundSize := wrapSize (wrapSize (4 * numSamples) * numCenters) in
  let upperBoundSize := wrapSize (4 * numSamples) in
  let sSize := wrapSize (4 * numCenters) in
  let halfcdistSize := wrapSize (wrapSize (4 * numCenters) * numCenters) in
  let newcdistSize := wrapSize (4 * numCenters) in
  wrapSize (samplesSize + centersSize + newCentersSize + centerCountsSize
            + closestCentersSize + lowerBoundSize + upperBoundSize + sSize
            + halfcdistSize + newcdistSize).

(** [numCenters * numCenters > INT_MAX], the product being an [int]. *)
Definition indexing_overflows (numCenters : nat) : bool :=
  (wrap32 (Z.of_nat numCenters * Z.of_nat numCenters) >? INT_MAX)%Z.

(** Everything up to the outer loop: the admission checks, the
   allocations, [InitCenters] and the initial assignment.  [palloc]
   leaves the scratch arrays uninitialised; the model starts them at
   zero, and every cell is written before it is read (the diagonal of
   [halfcdist] is never read).  [newCenters] and [centerCounts] are
   zeroed at the start of Step 4 of every pass and are built there. *)
Definition elkan_setup (index : Relation) (samples cs : VectorArray) (w : world)
  : result elkan_state :=
  let numCenters := va_maxlen cs in
  let numSamples := va_length samples in
  if (totalSize samples cs >? wrapSize (maintenance_work_mem * 1024))%Z
  then Err (BudgetExceeded (totalSize samples cs / (1024 * 1024) + 1)
                           (Z.quot maintenance_work_mem 1024))
  else if indexing_overflows numCenters then Err IndexingOverflow
  else
    do '(cs1, lowerBound1, w1) <-
      InitCenters index samples cs (replicate (numSamples * numCenters) zero) w ;
    let '(upperBound1, closestCenters1) :=
      initial_assignment numSamples numCenters lowerBound1
        (replicate numSamples zero) (replicate numSamples 0) in
    Ok (mkElkan cs1 lowerBound1 upperBound1 closestCenters1
                (replicate (numCenters * numCenters) zero)
                (replicate numCenters zero) (replicate numCenters zero) w1).

Definition ElkanKmeans (index : Relation) (samples cs : VectorArray)
    (type : IvfflatType) (w : world) : result (VectorArray * world) :=
  do st <- elkan_setup index samples cs w ;
  do '(st1, _) <- elkan_loop index samples 500 0 st ;
  Ok (centers st1, wld st1).

(** ** The driver *)

(** The result is the pair of arrays as the caller finds them on return,
   and the world. *)
Definition IvfflatKmeans (index : Relation) (samples cs : VectorArray)
    (type : IvfflatType) (w : world) : result (VectorArray * VectorArray * world) :=
  do '(samples1, cs1, w1) <-
    (if va_length samples <=? va_maxlen cs
     then QuickCenters index samples cs type w
     else do '(cs1, w1) <- ElkanKmeans index samples cs type w ; Ok (samples, cs1, w1)) ;
  do cs2 <- CheckCenters index cs1 type ;
  Ok (samples1, cs2, w1).

(** ** Vocabulary of the statements *)

Definition has_nan (vecs : list Vector) : Prop :=
  Exists (Exists (fun x => fisnan x = true)) vecs.

Definition has_inf (vecs : list Vector) : Prop :=
  Exists (Exists (fun x => fisinf x = true)) vecs.

(** Two neighbours of the list are the same bytes. *)
Definition adjacent_equal (vecs : list Vector) : Prop :=
  exists i a, vecs !! i = Some a /\ vecs !! S i = Some a.



(** Appending the items of [l], one [VectorArraySet] and [length++] each. *)
Definition push_items (arr : VectorArray) (l : list Vector) : VectorArray :=
  fold_left (fun c v => incr_length (VectorArraySet c (va_length c) v)) l arr.



(** The states at the head of the outer loop: [elkan_reaches st0 n st]
   when [st] is the state in which pass [n] starts, [st0] being the
   state the loop was entered with. *)
Inductive elkan_reaches (index : Relation) (samples : VectorArray) (st0 : elkan_state)
  : nat -> elkan_state -> Prop :=
| reaches_start : elkan_reaches index samples st0 0 st0
| reaches_pass iteration st w1 :
    elkan_reaches index samples st0 iteration st ->
    CHECK_FOR_INTERRUPTS (wld st) = Ok w1 ->
    elkan_reaches index samples st0 (S iteration)
                  (elkan_pass index samples iteration (with_world st w1)).1.

(** The bounds of Elkan's algorithm are sound in [st]: every lower bound
   is at most, and every upper bound at least, what the distance
   function gives for the current centers. *)
Definition bounds_sound (index : Relation) (samples : VectorArray) (st : elkan_state)
  : Prop :=
  let numCenters := va_maxlen (centers st) in
  forall j, j < va_length samples ->
    (forall k, k < numCenters ->
       fle (lowerBound st !!! (j * numCenters + k))
           (KMEANS_DISTANCE_PROC index (VectorArrayGet samples j)
                                       (VectorArrayGet (centers st) k)) = true) /\
    closestCenters st !!! j < numCenters /\
    fle (KMEANS_DISTANCE_PROC index (VectorArrayGet samples j)
           (VectorArrayGet (centers st) (closestCenters st !!! j)))
        (upperBound st !!! j) = true.

(** The new value of a lower bound in Step 5. *)
Definition widened (shift old : num) : num :=
  let distance := to_float (fsub old shift) in
  if flt distance zero then zero else distance.

(** [a] sorts before or with [b] under the comparator given to [qsort]. *)
Definition vector_le (a b : Vector) : Prop := (CompareVectors a b <= 0)%Z.

Definition no_nan (vecs : list Vector) : Prop :=
  Forall (Forall (fun x => fisnan x = false)) vecs.

(** What [qsort] promises for [CompareVectors]: the result is a
   rearrangement of the input, and it is in order whenever the comparator
   is consistent on the input, which it is on vectors without NaN. *)
Class QsortSpec : Prop := {
  qsort_Permutation : forall l, Permutation (qsort CompareVectors l) l;
  qsort_Sorted : forall l, no_nan l -> Sorted vector_le (qsort CompareVectors l)
}.

(** ** Vocabulary of the further properties *)

(** NaN or infinite. *)
Definition nonfinite (x : num) : bool := fisnan x || fisinf x.

(** The first coordinate that is NaN or infinite, in the order the scan
   of [CheckCenters] visits them: center by center, and within a center
   coordinate by coordinate. *)
Definition first_nonfinite (vecs : list (list num)) : option num :=
  List.find nonfinite (concat vecs).

(** The scratch arrays have the sizes they were allocated with, and
   every entry of [closestCenters] is the index of a center. *)
Definition indices_valid (samples : VectorArray) (st : elkan_state) : Prop :=
  let numCenters := va_maxlen (centers st) in
  let numSamples := va_length samples in
  numCenters <= length (va_items (centers st)) /\
  length (lowerBound st) = numSamples * numCenters /\
  length (upperBound st) = numSamples /\
  length (closestCenters st) = numSamples /\
  length (halfcdist st) = numCenters * numCenters /\
  length (s st) = numCenters /\
  length (newcdist st) = numCenters /\
  Forall (fun c => c < numCenters) (closestCenters st).

(** The samples assigned to center [c], in sample order. *)
Definition assigned (closestCenters : list nat) (numSamples c : nat) : list nat :=
  filter (fun j => closestCenters !!! j = c) (seq 0 numSamples).

(** Coordinate [k] of the samples [js], added up one after the other in
   [float] arithmetic, from zero. *)
Definition coordinate_sum (samples : VectorArray) (js : list nat) (k : nat) : num :=
  fold_left (fun x j => to_float (fadd x (VectorArrayGet samples j !!! k))) js zero.

(** The mean of the samples [js]: per coordinate, the sum, an infinite
   sum replaced by [FLT_MAX] with its sign, divided by their number. *)
Definition cluster_mean (samples : VectorArray) (dimensions : nat) (js : list nat)
  : list num :=
  map (fun k => to_float (fdiv (clamp_inf (coordinate_sum samples js k))
                               (to_float (of_int (Z.of_nat (length js))))))
      (seq 0 dimensions).

(** The table [h'] holds the half distances of the pairs in [W], and
   is [h] everywhere else. *)
Definition half_table (index : Relation) (cs : VectorArray) (n : nat) (h h' : list num)
    (W : nat -> nat -> Prop) : Prop :=
  length h' = length h /\
  (forall a b, a < b -> b < n -> W a b ->
     h' !!! (a * n + b)
     = to_float (fmul half (KMEANS_DISTANCE_PROC index (VectorArrayGet cs a)
                                                   (VectorArrayGet cs b))) /\
     h' !!! (b * n + a)
     = to_float (fmul half (KMEANS_DISTANCE_PROC index (VectorArrayGet cs a)
                                                   (VectorArrayGet cs b)))) /\
  (forall p, (forall a b, a < b -> b < n -> W a b -> p <> a * n + b /\ p <> b * n + a) ->
     h' !!! p = h !!! p).

(** The outside world [E0] with [g] around the arrays. *)
Definition with_stray (E0 : Externals) (g : Z -> num) : Externals := {|
  RandomInt_at := @RandomInt_at E0;
  RandomDouble_at := @RandomDouble_at E0;
  interrupt_pending := @interrupt_pending E0;
  qsort := @qsort E0;
  maintenance_work_mem := @maintenance_work_mem E0;
  VECTOR_ARRAY_SIZE := @VECTOR_ARRAY_SIZE E0;
  stray_float := g
|}.

(** ** Vocabulary of the runs that round nothing *)

(** A reading of a run in the rationals.  [val x] is the number the
   scalar [x] stands for, [fin] picks the scalars that stand for one
   (not NaN, not infinite), and [V] the vectors of the run.  The record
   says that on [fin] the comparisons of the code are the orders of the
   rationals, and that between vectors of [V] the distance function
   gives a scalar of [fin] which a [float] holds without rounding, and
   is a (pseudo)metric. *)
Record ExactOn (val : num -> Q) (fin : num -> Prop)
    (distance : Vector -> Vector -> num) (V : Vector -> Prop) : Prop := {
  exact_zero : fin zero /\ (val zero == 0)%Q;
  exact_flt : forall x y, fin x -> fin y -> (flt x y = true <-> (val x < val y)%Q);
  exact_fle : forall x y, fin x -> fin y -> (fle x y = true <-> (val x <= val y)%Q);
  exact_distance : forall a b, V a -> V b ->
    fin (distance a b) /\ fin (to_float (distance a b)) /\
    (val (to_float (distance a b)) == val (distance a b))%Q;
  exact_nonneg : forall a b, V a -> V b -> (0 <= val (distance a b))%Q;
  exact_sym : forall a b, V a -> V b -> (val (distance a b) == val (distance b a))%Q;
  exact_triangle : forall a b c, V a -> V b -> V c ->
    (val (distance a c) <= val (distance a b) + val (distance b c))%Q
}.

(** Steps 5 and 6 of pass [iteration], entered in the state [st], round
   nothing: the centers Step 4 computes are vectors of [V], and every
   difference [lowerBound - newcdist] and every sum
   [upperBound + newcdist] that is stored is a scalar of [fin], equal to
   the difference or the sum of the rationals. *)
Definition widening_exact (index : Relation) (samples : VectorArray) (val : num -> Q)
    (fin : num -> Prop) (V : Vector -> Prop) (iteration : nat) (st : elkan_state) : Prop :=
  let st1 := (assign_phase index samples iteration st).1 in
  let st2 := update_phase index samples st1 in
  let numCenters := va_maxlen (centers st) in
  (forall k, k < numCenters -> V (VectorArrayGet (centers st2) k)) /\
  forall j, j < va_length samples ->
    (forall k, k < numCenters ->
       let l := lowerBound st1 !!! (j * numCenters + k) in
       let x := to_float (fsub l (newcdist st2 !!! k)) in
       fin x /\ (val x == val l - val (newcdist st2 !!! k))%Q) /\
    (let u := upperBound st1 !!! j in
     let shift := newcdist st2 !!! (closestCenters st1 !!! j) in
     let y := to_float (fadd u shift) in
     fin y /\ (val y == val u + val shift)%Q).

(** The bounds that Steps 2 and 3 work on are scalars of [fin] and are
   sound for the centers [cs], read through [val]; the arrays have
   their sizes. *)
Definition assignment_ok (index : Relation) (samples : VectorArray) (val : num -> Q)
    (fin : num -> Prop) (cs : VectorArray) (a : assignment) : Prop :=
  let numCenters := va_maxlen cs in
  let numSamples := va_length samples in
  length (a_lower a) = numSamples * numCenters /\
  length (a_upper a) = numSamples /\
  length (a_closest a) = numSamples /\
  forall j, j < numSamples ->
    (forall k, k < numCenters ->
       fin (a_lower a !!! (j * numCenters + k)) /\
       (val (a_lower a !!! (j * numCenters + k)%nat)
        <= val (KMEANS_DISTANCE_PROC index (VectorArrayGet samples j)
                                           (VectorArrayGet cs k)))%Q) /\
    a_closest a !!! j < numCenters /\
    fin (a_upper a !!! j) /\
    (val (KMEANS_DISTANCE_PROC index (VectorArrayGet samples j)
            (VectorArrayGet cs (a_closest a !!! j)))
     <= val (a_upper a !!! j))%Q.

(** The same for a state of the loop, whose centers are vectors of [V]. *)
Definition elkan_ok (index : Relation) (samples : VectorArray) (val : num -> Q)
    (fin : num -> Prop) (V : Vector -> Prop) (st : elkan_state) : Prop :=
  va_maxlen (centers st) <= length (va_items (centers st)) /\
  length (newcdist st) = va_maxlen (centers st) /\
  (forall k, k < va_maxlen (centers st) -> V (VectorArrayGet (centers st) k)) /\
  assignment_ok index samples val fin (centers st)
    (mkAssign (lowerBound st) (upperBound st) (closestCenters st) 0).

(** The halved distances between vectors of [V] are scalars of [fin]
   that a [float] holds exactly, and so is [FLT_MAX]. *)
Definition halves_exact (val : num -> Q) (fin : num -> Prop)
    (distance : Vector -> Vector -> num) (V : Vector -> Prop) : Prop :=
  fin FLT_MAX /\
  forall a b, V a -> V b ->
    let h := to_float (fmul half (distance a b)) in
    fin h /\ (val h == (1 # 2) * val (distance a b))%Q.

(** The distance from sample [j] to center [k] of [cs], as a rational. *)
Definition sample_distance (index : Relation) (samples cs : VectorArray) (val : num -> Q)
    (j k : nat) : Q :=
  val (KMEANS_DISTANCE_PROC index (VectorArrayGet samples j) (VectorArrayGet cs k)).

(** Center [c] is as close to sample [j] as any center of [cs]. *)
Definition nearest (index : Relation) (samples cs : VectorArray) (val : num -> Q)
    (j c : nat) : Prop :=
  forall k, k < va_maxlen cs ->
    (sample_distance index samples cs val j c <= sample_distance index samples cs val j k)%Q.

(** The table holds half the distance between any two distinct centers. *)
Definition half_ok (index : Relation) (cs : VectorArray) (val : num -> Q)
    (fin : num -> Prop) (hc : list num) : Prop :=
  forall a b, a < va_maxlen cs -> b < va_maxlen cs -> a <> b ->
    fin (hc !!! (a * va_maxlen cs + b)) /\
    (val (hc !!! (a * va_maxlen cs + b)%nat)
     == (1 # 2) * val (KMEANS_DISTANCE_PROC index (VectorArrayGet cs a)
                                             (VectorArrayGet cs b)))%Q.

(** The invariant of the scan of the centers for sample [j], before
   center [k] is looked at: the bounds are sound; unless r(x) is set the
   upper bound of the sample is its distance to its center; no center
   looked at so far is closer than that bound; the other samples are as
   they were in [a0]. *)
Definition scan_inv (index : Relation) (samples cs : VectorArray) (val : num -> Q)
    (fin : num -> Prop) (j : nat) (a0 : assignment) (k : nat) (acc : assignment * bool)
  : Prop :=
  assignment_ok index samples val fin cs acc.1 /\
  (acc.2 = false ->
   (val (a_upper acc.1 !!! j)
    == sample_distance index samples cs val j (a_closest acc.1 !!! j))%Q) /\
  (forall k', k' < k -> k' <> a_closest acc.1 !!! j ->
     (val (a_upper acc.1 !!! j) <= sample_distance index samples cs val j k')%Q) /\
  (forall j', j' <> j ->
     a_closest acc.1 !!! j' = a_closest a0 !!! j' /\
     a_upper acc.1 !!! j' = a_upper a0 !!! j').

(** ** Vocabulary of the scans for a minimum *)

(** What the scans need of the comparisons, and what the comparisons of
   IEEE 754 give on every scalar, NaN and the infinities included: [<]
   holds of no scalar and itself, it is transitive, and [x <= y < z]
   gives [x < z]. *)
Record OrderLaws : Prop := {
  flt_irrefl : forall x, flt x x = false;
  flt_trans : forall x y z, flt x y = true -> flt y z = true -> flt x z = true;
  fle_flt_trans : forall x y z, fle x y = true -> flt y z = true -> flt x z = true
}.

(** [choice] after the weights of the samples before [j] were taken
   from it, one after the other. *)
Fixpoint choice_after (weight : list num) (choice : num) (j : nat) : num :=
  match j with
  | O => choice
  | S j' => fsub (choice_after weight choice j') (weight !!! j')
  end.

End Kmeans.

(** ** A reference sort and a concrete outside world *)

Fixpoint insert_sorted {A} (cmp : A -> A -> Z) (x : A) (l : list A) : list A :=
  match l with
  | [] => [x]
  | y :: rest =>
      if (cmp x y <=? 0)%Z then x :: l else y :: insert_sorted cmp x rest
  end.

Definition insertion_sort {A} (cmp : A -> A -> Z) (l : list A) : list A :=
  fold_right (insert_sorted cmp) [] l.

(** An outside world with the given random streams, no pending
   interrupt, insertion sort for [qsort], 64 MB of
   [maintenance_work_mem], a header of 24 bytes per array, and zeros
   around the arrays. *)
Definition quiet_world {F : FloatOps} (rint : nat -> nat) (rdbl : nat -> num)
  : Externals := {|
  RandomInt_at := rint;
  RandomDouble_at := rdbl;
  interrupt_pending := fun _ => false;
  qsort := insertion_sort;
  maintenance_work_mem := 65536;
  VECTOR_ARRAY_SIZE := fun len size => (24 + len * size)%Z;
  stray_float := fun _ => zero
|}.

(** ** Concrete runs *)

(** Runs in exact arithmetic, on vectors of dimension 1, with the
   distance [|a - b|] between the first coordinates. *)
Module ExactRun.

Definition absdiff (x y : Q) : Q :=
  if Qle_bool x y then (y - x)%Q else (x - y)%Q.

Definition distance (a b : list Q) : Q := absdiff (hd 0%Q a) (hd 0%Q b).

Definition index : @Relation ExactQ.ops := @mkRelation ExactQ.ops distance None None.

(** [RandomInt()] gives 0 and [RandomDouble()] gives 1/2, always. *)
Definition outside : @Externals ExactQ.ops :=
  @quiet_world ExactQ.ops (fun _ => 0) (fun _ => (1 # 2)%Q).

Definition world0 : world := mkWorld 0 0.

(** Two samples for three centers: the quick path. *)
Definition few_samples : @VectorArray ExactQ.ops :=
  @mkVectorArray ExactQ.ops 2 2 1 12 [[1%Q]; [0%Q]].

Definition three_centers : @VectorArray ExactQ.ops :=
  @mkVectorArray ExactQ.ops 0 3 1 12 [[0%Q]; [0%Q]; [0%Q]].

Definition quick_result : @VectorArray ExactQ.ops * @VectorArray ExactQ.ops * world :=
  Eval vm_compute in
    match @IvfflatKmeans ExactQ.ops outside index few_samples three_centers
                         IVFFLAT_TYPE_VECTOR world0 with
    | Ok r => r
    | Err _ => (few_samples, three_centers, world0)
    end.

(** Three samples for two centers: the Elkan path. *)
Definition samples : @VectorArray ExactQ.ops :=
  @mkVectorArray ExactQ.ops 3 3 1 12 [[0%Q]; [1%Q]; [10%Q]].

Definition two_centers : @VectorArray ExactQ.ops :=
  @mkVectorArray ExactQ.ops 0 2 1 12 [[0%Q]; [0%Q]].

Definition seeded : @elkan_state ExactQ.ops :=
  Eval vm_compute in
    match @elkan_setup ExactQ.ops outside index samples two_centers world0 with
    | Ok st => st
    | Err _ => @mkElkan ExactQ.ops two_centers [] [] [] [] [] [] world0
    end.

(** Two samples as far apart as [float] coordinates allow, one center. *)
Definition far_samples : @VectorArray ExactQ.ops :=
  @mkVectorArray ExactQ.ops 2 2 1 12 [[(- ExactQ.flt_max)%Q]; [ExactQ.flt_max]].

Definition one_center : @VectorArray ExactQ.ops :=
  @mkVectorArray ExactQ.ops 0 1 1 12 [[0%Q]].

Definition far_seeded : @elkan_state ExactQ.ops :=
  Eval vm_compute in
    match @elkan_setup ExactQ.ops outside index far_samples one_center world0 with
    | Ok st => st
    | Err _ => @mkElkan ExactQ.ops one_center [] [] [] [] [] [] world0
    end.

(** The seeding of two centers from the three samples. *)
Definition seeding : @VectorArray ExactQ.ops * list Q * world :=
  Eval vm_compute in
    match @InitCenters ExactQ.ops outside index samples two_centers (replicate 6 0%Q)
                       world0 with
    | Ok r => r
    | Err _ => (two_centers, [], world0)
    end.

(** The state at the head of pass 1. *)
Definition after_pass_0 : @elkan_state ExactQ.ops :=
  Eval vm_compute in
    (@elkan_pass ExactQ.ops outside index samples 0 (with_world seeded (mkWorld 2 3))).1.

(** The whole loop, from the seeded state. *)
Definition trained : @elkan_state ExactQ.ops * list Z :=
  Eval vm_compute in
    match @elkan_loop ExactQ.ops outside index samples 500 0 seeded with
    | Ok r => r
    | Err _ => (seeded, [])
    end.

Definition elkan_result : @VectorArray ExactQ.ops * world :=
  Eval vm_compute in
    match @ElkanKmeans ExactQ.ops outside index samples two_centers
                       IVFFLAT_TYPE_VECTOR world0 with
    | Ok r => r
    | Err _ => (two_centers, world0)
    end.

(** Three distinct centers, in an array that is full. *)
Definition full_centers : @VectorArray ExactQ.ops :=
  @mkVectorArray ExactQ.ops 3 3 1 12 [[1%Q]; [0%Q]; [(1 # 2)%Q]].

Definition checked_centers : @VectorArray ExactQ.ops :=
  Eval vm_compute in
    match @CheckCenters ExactQ.ops outside index full_centers IVFFLAT_TYPE_VECTOR with
    | Ok r => r
    | Err _ => full_centers
    end.

(** The three samples trained to a single center. *)
Definition single_result : @VectorArray ExactQ.ops * world :=
  Eval vm_compute in
    match @ElkanKmeans ExactQ.ops outside index samples one_center
                       IVFFLAT_TYPE_VECTOR world0 with
    | Ok r => r
    | Err _ => (one_center, world0)
    end.

End ExactRun.

(** Runs in IEEE arithmetic, on vectors of dimension 1, with the
   distance [|a - b|] computed in [double]. *)
Module IEEERun.

Definition distance (a b : list spec_float) : spec_float :=
  SFabs (SFsub IEEE754.prec64 IEEE754.emax64 (hd (S754_zero false) a)
                                             (hd (S754_zero false) b)).

Definition index : @Relation IEEE754.ops := @mkRelation IEEE754.ops distance None None.

Definition outside : @Externals IEEE754.ops :=
  @quiet_world IEEE754.ops (fun _ => 0) (fun _ => S754_finite false 4503599627370496 (-53)).

Definition world0 : world := mkWorld 0 0.

Definition one : spec_float := Eval vm_compute in IEEE754.of_Z 1.

(** [-(2^-24 + 2^-40)], a [float]. *)
Definition small : spec_float :=
  Eval vm_compute in
    binary_normalize IEEE754.prec64 IEEE754.emax64 (- (2 ^ 16 + 1)) (-40) false.

(** Two samples whose distance, [1 + 2^-24 + 2^-40], is no [float]. *)
Definition samples : @VectorArray IEEE754.ops :=
  @mkVectorArray IEEE754.ops 2 2 1 12 [[one]; [small]].

Definition one_center : @VectorArray IEEE754.ops :=
  @mkVectorArray IEEE754.ops 0 1 1 12 [[S754_zero false]].

Definition seeded : @elkan_state IEEE754.ops :=
  Eval vm_compute in
    match @elkan_setup IEEE754.ops outside index samples one_center world0 with
    | Ok st => st
    | Err _ => @mkElkan IEEE754.ops one_center [] [] [] [] [] [] world0
    end.

(** Two samples for three centers: the quick path. *)
Definition few_samples : @VectorArray IEEE754.ops :=
  @mkVectorArray IEEE754.ops 2 2 1 12 [[one]; [S754_zero false]].

Definition three_centers : @VectorArray IEEE754.ops :=
  @mkVectorArray IEEE754.ops 0 3 1 12 [[S754_zero false]; [S754_zero false]; [S754_zero false]].

Definition quick_result : @VectorArray IEEE754.ops * @VectorArray IEEE754.ops * world :=
  Eval vm_compute in
    match @IvfflatKmeans IEEE754.ops outside index few_samples three_centers
                         IVFFLAT_TYPE_VECTOR world0 with
    | Ok r => r
    | Err _ => (few_samples, three_centers, world0)
    end.

(** Three distinct, finite centers. *)
Definition good_centers : @VectorArray IEEE754.ops :=
  @mkVectorArray IEEE754.ops 3 3 1 12 [[one]; [S754_zero false]; [small]].

(** Three samples for two centers: the Elkan path. *)
Definition ten : spec_float := Eval vm_compute in IEEE754.of_Z 10.

Definition points : @VectorArray IEEE754.ops :=
  @mkVectorArray IEEE754.ops 3 3 1 12 [[S754_zero false]; [one]; [ten]].

Definition two_centers : @VectorArray IEEE754.ops :=
  @mkVectorArray IEEE754.ops 0 2 1 12 [[S754_zero false]; [S754_zero false]].

Definition grouped : @elkan_state IEEE754.ops :=
  Eval vm_compute in
    match @elkan_setup IEEE754.ops outside index points two_centers world0 with
    | Ok st => st
    | Err _ => @mkElkan IEEE754.ops two_centers [] [] [] [] [] [] world0
    end.

(** The states at the head of pass 1 and of pass 2. *)
Definition after_pass_0 : @elkan_state IEEE754.ops :=
  Eval vm_compute in
    (@elkan_pass IEEE754.ops outside index points 0 (with_world grouped (mkWorld 2 3))).1.

Definition after_pass_1 : @elkan_state IEEE754.ops :=
  Eval vm_compute in
    (@elkan_pass IEEE754.ops outside index points 1
       (with_world after_pass_0 (mkWorld 2 4))).1.

(** The whole loop, from the state of the setup. *)
Definition trained : @elkan_state IEEE754.ops * list Z :=
  Eval vm_compute in
    match @elkan_loop IEEE754.ops outside index points 500 0 grouped with
    | Ok r => r
    | Err _ => (grouped, [])
    end.

(** The vectors of that run: the samples and the centers it moves to. *)
Definition vectors : list (list spec_float) :=
  [[S754_zero false]; [one]; [ten]; [S754_finite false 4503599627370496 (-53)]].

Definition fin (x : spec_float) : Prop := IEEE754.finite x = true.





End IEEERun.

Section ReferenceSort.

Context {F : FloatOps}.

(** The comparator never says "greater" both ways. *)
Lemma vector_cmp_flip (a b : Vector) :
  (0 < vector_cmp_internal a b)%Z -> (vector_cmp_internal b a < 0)%Z.
Proof.
  revert b. induction a as [|x a IH]; intros [|y b]; simpl; try lia.
  destruct (flt x y) eqn:Hxy; [lia|].
  destruct (flt y x) eqn:Hyx; [lia|].
  apply IH.
Qed.

Lemma insert_sorted_Permutation {A} (cmp : A -> A -> Z) (x : A) (l : list A) :
  Permutation (insert_sorted cmp x l) (x :: l).
Proof.
  induction l as [|y l IH]; simpl; [reflexivity|].
  destruct (cmp x y <=? 0)%Z; [reflexivity|].
  rewrite IH. apply perm_swap.
Qed.

Lemma insertion_sort_Permutation {A} (cmp : A -> A -> Z) (l : list A) :
  Permutation (insertion_sort cmp l) l.
Proof.
  induction l as [|x l IH]; simpl; [reflexivity|].
  rewrite insert_sorted_Permutation. constructor. exact IH.
Qed.

Lemma insert_sorted_HdRel {A} (cmp : A -> A -> Z) (x y : A) (l : list A) :
  (cmp y x <= 0)%Z ->
  HdRel (fun a b => (cmp a b <= 0)%Z) y l ->
  HdRel (fun a b => (cmp a b <= 0)%Z) y (insert_sorted cmp x l).
Proof.
  intros Hyx Hhd. destruct l as [|z l]; simpl.
  - constructor. exact Hyx.
  - destruct (cmp x z <=? 0)%Z; constructor; [exact Hyx|].
    inversion Hhd; assumption.
Qed.

Lemma insert_sorted_Sorted {A} (cmp : A -> A -> Z) (x : A) (l : list A) :
  (forall a b, (0 < cmp a b)%Z -> (cmp b a <= 0)%Z) ->
  Sorted (fun a b => (cmp a b <= 0)%Z) l ->
  Sorted (fun a b => (cmp a b <= 0)%Z) (insert_sorted cmp x l).
Proof.
  intros Hflip Hs. induction Hs as [|y l Hs IH Hhd]; simpl.
  - repeat constructor.
  - destruct (cmp x y <=? 0)%Z eqn:Hxy.
    + apply Z.leb_le in Hxy. repeat constructor; assumption.
    + apply Z.leb_gt in Hxy. constructor; [exact IH|].
      apply insert_sorted_HdRel; [|exact Hhd]. apply Hflip. exact Hxy.
Qed.

Lemma insertion_sort_Sorted (l : list Vector) :
  Sorted vector_le (insertion_sort CompareVectors l).
Proof.
  induction l as [|x l IH]; simpl; [constructor|].
  apply insert_sorted_Sorted; [|exact IH].
  intros a b Hab. apply vector_cmp_flip in Hab. unfold CompareVectors. lia.
Qed.

(** Insertion sort keeps the promises of [qsort]. *)
Lemma quiet_world_QsortSpec (rint : nat -> nat) (rdbl : nat -> num) :
  @QsortSpec F (quiet_world rint rdbl).
Proof.
  split; simpl.
  - intros l. apply insertion_sort_Permutation.
  - intros l _. apply insertion_sort_Sorted.
Qed.

End ReferenceSort.

Section Properties.

Context {F : FloatOps} {E : Externals}.

(** *** Lists as arrays *)

Lemma map_fmap {A B} (f : A -> B) (l : list A) : map f l = f <$> l.
Proof. reflexivity. Qed.

(** A loop that rewrites the cells [g x], each from its own old value:
   the cells it visits hold the new values, the others are untouched. *)
Lemma fold_update_spec {A} `{Inhabited A} {I} (g : I -> nat) (f : I -> A -> A)
    (xs : list I) (l : list A) :
  NoDup (g <$> xs) ->
  let l' := fold_left (fun l x => <[g x := f x (l !!! g x)]> l) xs l in
  length l' = length l /\
  (forall p, p ∉ (g <$> xs) -> l' !!! p = l !!! p) /\
  (forall x, x ∈ xs -> g x < length l -> l' !!! g x = f x (l !!! g x)).
Proof.
  revert l. induction xs as [|a xs IH]; intros l Hnd; cbn [fold_left].
  - split; [reflexivity|]. split; [reflexivity|]. intros x Hx. inversion Hx.
  - rewrite fmap_cons in Hnd. apply NoDup_cons in Hnd as [Ha Hnd].
    destruct (IH (<[g a := f a (l !!! g a)]> l) Hnd) as (Hlen & Hout & Hin).
    rewrite length_insert in Hlen, Hin.
    split; [exact Hlen|]. split.
    + intros p Hp. rewrite fmap_cons in Hp. apply not_elem_of_cons in Hp as [Hpa Hp].
      rewrite Hout by exact Hp. apply list_lookup_total_insert_ne. congruence.
    + intros x Hx Hlt. apply elem_of_cons in Hx as [->|Hx].
      * rewrite Hout by exact Ha. apply list_lookup_total_insert_eq. exact Hlt.
      * rewrite Hin by assumption. f_equal.
        apply list_lookup_total_insert_ne. intros Heq. apply Ha. rewrite Heq.
        apply list_elem_of_fmap_2. exact Hx.
Qed.

Lemma flat_index_inj (n j k j' k' : nat) :
  k < n -> k' < n -> j * n + k = j' * n + k' -> j = j' /\ k = k'.
Proof.
  intros Hk Hk' Heq. apply (Nat.div_mod_unique n); [assumption|assumption|lia].
Qed.

Lemma flat_index_lt (n m j k : nat) : j < m -> k < n -> j * n + k < m * n.
Proof. intros Hj Hk. nia. Qed.

Lemma Forall_at {A} `{Inhabited A} (P : A -> Prop) (l : list A) (i : nat) :
  Forall P l -> i < length l -> P (l !!! i).
Proof.
  intros Hall Hi. eapply Forall_lookup_1; [exact Hall|].
  apply list_lookup_lookup_total_lt. exact Hi.
Qed.

Lemma VectorArrayGet_Set_ne (arr : VectorArray) (i p : nat) (v : Vector) :
  i <> p -> VectorArrayGet (incr_length (VectorArraySet arr p v)) i = VectorArrayGet arr i.
Proof.
  intros Hne. unfold VectorArrayGet. simpl.
  apply list_lookup_total_insert_ne. congruence.
Qed.

Lemma fold_left_preserves {A B} (P : A -> Prop) (f : A -> B -> A) (l : list B) (a : A) :
  (forall a x, x ∈ l -> P a -> P (f a x)) -> P a -> P (fold_left f l a).
Proof.
  revert a. induction l as [|x l IH]; intros a Hstep Ha; simpl; [exact Ha|].
  apply IH.
  - intros a' y Hy. apply Hstep. right. exact Hy.
  - apply Hstep; [left|exact Ha].
Qed.

(** *** ApplyNorm *)

(** C9.  [ApplyNorm] leaves the vector as it is when the norm is not
   strictly positive ([0 < norm] fails, which covers zero, negative and
   NaN norms); when the norm is strictly positive the vector keeps its
   dimension and every coordinate [x] becomes [x / norm], stored back
   as a [float]. *)
Theorem ApplyNorm_spec (normproc : Vector -> num) (vec : Vector) :
  (flt zero (normproc vec) = false -> ApplyNorm normproc vec = vec) /\
  (flt zero (normproc vec) = true ->
     length (ApplyNorm normproc vec) = length vec /\
     forall i x, vec !! i = Some x ->
       ApplyNorm normproc vec !! i = Some (to_float (fdiv x (normproc vec)))).
Proof.
  unfold ApplyNorm. split; intros Hn; rewrite Hn.
  - reflexivity.
  - split.
    + apply length_map.
    + intros i x Hi. rewrite map_fmap, list_lookup_fmap, Hi. reflexivity.
Qed.

(** *** The driver *)

(** C6.  The driver runs [QuickCenters] exactly when
   [samples->length <= centers->maxlen] and [ElkanKmeans] otherwise; an
   error of either ends the call, and otherwise [CheckCenters] runs on
   the centers that path produced and decides the outcome. *)
Theorem IvfflatKmeans_dispatch (index : Relation) (samples cs : VectorArray)
    (type : IvfflatType) (w : world) :
  IvfflatKmeans index samples cs type w =
  if va_length samples <=? va_maxlen cs
  then
    match QuickCenters index samples cs type w with
    | Ok (samples1, cs1, w1) =>
        match CheckCenters index cs1 type with
        | Ok cs2 => Ok (samples1, cs2, w1)
        | Err e => Err e
        end
    | Err e => Err e
    end
  else
    match ElkanKmeans index samples cs type w with
    | Ok (cs1, w1) =>
        match CheckCenters index cs1 type with
        | Ok cs2 => Ok (samples, cs2, w1)
        | Err e => Err e
        end
    | Err e => Err e
    end.
Proof.
  unfold IvfflatKmeans.
  destruct (va_length samples <=? va_maxlen cs).
  - destruct (QuickCenters index samples cs type w) as [[[s1 c1] w1]|e]; reflexivity.
  - destruct (ElkanKmeans index samples cs type w) as [[c1 w1]|e]; reflexivity.
Qed.

(** *** The indexing-overflow check of ElkanKmeans *)

Lemma wrap32_range (z : Z) : (- 2 ^ 31 <= wrap32 z < 2 ^ 31)%Z.
Proof.
  unfold wrap32.
  pose proof (Z.mod_pos_bound (z + 2 ^ 31) (2 ^ 32) ltac:(lia)). lia.
Qed.

(** The test [numCenters * numCenters > INT_MAX] is made on an [int]
   product, which never exceeds [INT_MAX]: it is false for every number
   of centers. *)
Lemma indexing_overflows_never (numCenters : nat) :
  indexing_overflows numCenters = false.
Proof.
  unfold indexing_overflows, INT_MAX.
  pose proof (wrap32_range (Z.of_nat numCenters * Z.of_nat numCenters)). lia.
Qed.

(** *** Which errors the loops can raise *)

Lemma CHECK_FOR_INTERRUPTS_Err (w : world) (e : error) :
  CHECK_FOR_INTERRUPTS w = Err e ->
  e = Cancelled /\ exists k, interrupt_pending k = true.
Proof.
  unfold CHECK_FOR_INTERRUPTS.
  destruct (interrupt_pending (checks w)) eqn:Hp; [|discriminate].
  intros [= <-]. eauto.
Qed.

Lemma InitCenters_loop_Err index samples numCenters numSamples idxs cs lb weight w e :
  InitCenters_loop index samples numCenters numSamples idxs cs lb weight w = Err e ->
  e = Cancelled /\ exists k, interrupt_pending k = true.
Proof.
  revert cs lb weight w.
  induction idxs as [|i rest IH]; intros cs lb weight w; simpl; [discriminate|].
  destruct (CHECK_FOR_INTERRUPTS w) as [w1|e1] eqn:Hc; simpl.
  - destruct (fold_left _ _ _) as [[lb1 weight1] sum].
    destruct (i + 1 =? numCenters); [discriminate|].
    apply IH.
  - intros [= <-]. eapply CHECK_FOR_INTERRUPTS_Err, Hc.
Qed.

Lemma InitCenters_Err index samples cs lb w e :
  InitCenters index samples cs lb w = Err e ->
  e = Cancelled /\ exists k, interrupt_pending k = true.
Proof. unfold InitCenters. simpl. apply InitCenters_loop_Err. Qed.

(** *** The outer loop of ElkanKmeans *)

Lemma elkan_loop_trace index samples (n iteration : nat) (st : elkan_state) :
  match elkan_loop index samples n iteration st with
  | Ok (_, trace) =>
      length trace <= n /\ (0 < n -> 0 < length trace) /\
      forall i c, trace !! i = Some c ->
        (S i < length trace <-> ~ (c = 0%Z /\ iteration + i <> 0) /\ S i < n)
  | Err e => e = Cancelled /\ exists k, interrupt_pending k = true
  end.
Proof.
  revert iteration st.
  induction n as [|n IH]; intros iteration st; cbn [elkan_loop].
  - split; [simpl; lia|]. split; [lia|]. intros i c Hi. destruct i; discriminate.
  - destruct (CHECK_FOR_INTERRUPTS (wld st)) as [w1|e] eqn:Hc; cbn [bind];
      [|eapply CHECK_FOR_INTERRUPTS_Err, Hc].
    destruct (elkan_pass _ _ _ _) as [st1 changes].
    destruct ((changes =? 0)%Z && negb (iteration =? 0)) eqn:Hstop.
    + apply andb_prop in Hstop as [Hz Hi0].
      apply Z.eqb_eq in Hz. apply negb_true_iff, Nat.eqb_neq in Hi0.
      simpl. split; [lia|]. split; [lia|].
      intros [|i] c Hi; [|discriminate]. injection Hi as <-.
      split; [lia|]. intros [Hno _]. exfalso. apply Hno. split; [assumption|lia].
    + specialize (IH (S iteration) st1).
      destruct (elkan_loop index samples n (S iteration) st1) as [[st2 trace]|e];
        cbn [bind]; [|assumption].
      destruct IH as (Hlen & Hpos & Hstep). cbn [length].
      split; [lia|]. split; [lia|].
      intros [|i] c Hi; simpl in Hi.
      * injection Hi as <-.
        apply andb_false_iff in Hstop.
        split.
        -- intros Hlt. split; [|lia].
           intros [Hz Hi0]. destruct Hstop as [Hs|Hs].
           ++ apply Z.eqb_neq in Hs. contradiction.
           ++ apply negb_false_iff, Nat.eqb_eq in Hs. lia.
        -- intros [_ Hn]. assert (0 < n) as Hn' by lia.
           specialize (Hpos Hn'). lia.
      * specialize (Hstep i c Hi).
        replace (iteration + S i) with (S iteration + i) by lia.
        split.
        -- intros Hlt. apply proj1 in Hstep.
           assert (S i < length trace) as Hlt' by lia.
           destruct (Hstep Hlt'). split; [assumption|lia].
        -- intros [Hno Hn]. apply proj2 in Hstep.
           assert (S i < n) as Hn' by lia.
           specialize (Hstep (conj Hno Hn')). lia.
Qed.

Lemma elkan_loop_Err index samples n iteration st e :
  elkan_loop index samples n iteration st = Err e ->
  e = Cancelled /\ exists k, interrupt_pending k = true.
Proof.
  intros He. pose proof (elkan_loop_trace index samples n iteration st) as H.
  rewrite He in H. exact H.
Qed.

(** C3.  [ElkanKmeans] never fails with the indexing-overflow error,
   whatever the number of centers, also when [numCenters * numCenters]
   exceeds [INT_MAX]: the guard compares an [int] product, which has
   already wrapped, with [INT_MAX]. *)
Theorem ElkanKmeans_never_IndexingOverflow index samples cs type w :
  ElkanKmeans index samples cs type w <> Err IndexingOverflow.
Proof.
  unfold ElkanKmeans, elkan_setup.
  destruct (_ >? _)%Z; [discriminate|].
  rewrite indexing_overflows_never.
  destruct (InitCenters _ _ _ _ _) as [[[cs1 lb1] w1]|e] eqn:Hi; cbn [bind].
  - destruct (initial_assignment _ _ _ _ _) as [ub cc]. cbn [bind].
    destruct (elkan_loop _ _ _ _ _) as [[st1 tr]|e] eqn:Hl; cbn [bind]; [discriminate|].
    apply elkan_loop_Err in Hl as [-> _]. discriminate.
  - apply InitCenters_Err in Hi as [-> _]. discriminate.
Qed.

(** With 46341 centers the product exceeds [INT_MAX] and the guard
   still lets the call through. *)
Example indexing_overflow_missed :
  (Z.of_nat (Z.to_nat 46341) * Z.of_nat (Z.to_nat 46341) > INT_MAX)%Z /\
  indexing_overflows (Z.to_nat 46341) = false.
Proof.
  split; [|apply indexing_overflows_never].
  rewrite Z2Nat.id by lia. reflexivity.
Qed.

(** *** CheckCenters *)

Lemma check_coordinates_Err (vec : Vector) :
  (exists e, check_coordinates vec = Err e) <->
  Exists (fun x => fisnan x = true) vec \/ Exists (fun x => fisinf x = true) vec.
Proof.
  induction vec as [|x rest IH]; simpl.
  - split; [intros [e He]; discriminate|intros [H|H]; inversion H].
  - destruct (fisnan x) eqn:Hnan.
    { split; [intros _; left; constructor; assumption|eauto]. }
    destruct (fisinf x) eqn:Hinf.
    { split; [intros _; right; constructor; assumption|eauto]. }
    rewrite IH. split.
    + intros [H|H]; [left|right]; apply Exists_cons_tl; assumption.
    + intros [H|H]; inversion H; subst; try congruence; auto.
Qed.

Lemma check_values_Err (vecs : list Vector) :
  (exists e, check_values vecs = Err e) <-> has_nan vecs \/ has_inf vecs.
Proof.
  unfold has_nan, has_inf.
  induction vecs as [|v rest IH]; simpl.
  - split; [intros [e He]; discriminate|intros [H|H]; inversion H].
  - pose proof (check_coordinates_Err v) as Hv.
    destruct (check_coordinates v) as [[]|e]; simpl.
    + rewrite IH. split.
      * intros [H|H]; [left|right]; apply Exists_cons_tl; assumption.
      * intros [H|H]; inversion H; subst; auto.
        -- exfalso. assert (exists e, Ok tt = Err e) as [e He] by (apply Hv; auto).
           discriminate.
        -- exfalso. assert (exists e, Ok tt = Err e) as [e He] by (apply Hv; auto).
           discriminate.
    + split; [intros _|eauto].
      destruct Hv as [Hv _]. destruct Hv as [H|H]; [eauto| |];
        [left|right]; apply Exists_cons_hd; assumption.
Qed.

Lemma has_adjacent_duplicate_spec (vecs : list Vector) :
  has_adjacent_duplicate vecs = true <-> adjacent_equal vecs.
Proof.
  unfold adjacent_equal.
  induction vecs as [|a rest IH]; simpl.
  - split; [discriminate|intros (i & x & H & _); discriminate].
  - destruct rest as [|b rest'].
    + split; [discriminate|intros (i & x & _ & H); destruct i; discriminate].
    + rewrite orb_true_iff, IH. unfold datumIsEqual. rewrite bool_decide_eq_true.
      split.
      * intros [->|(i & x & H1 & H2)].
        -- exists 0, a. split; reflexivity.
        -- exists (S i), x. split; assumption.
      * intros (i & x & H1 & H2). destruct i as [|i].
        -- left. simpl in H1, H2. congruence.
        -- right. exists i, x. split; assumption.
Qed.

Lemma has_zero_norm_spec (normproc : Vector -> num) (vecs : list Vector) :
  has_zero_norm normproc vecs = true <->
  Exists (fun v => feq (normproc v) zero = true) vecs.
Proof.
  unfold has_zero_norm. rewrite existsb_exists, List.Exists_exists. reflexivity.
Qed.

(** C8 (as amended).  [CheckCenters] raises an error exactly when:
   [centers->length] differs from [centers->maxlen]; or some coordinate
   of a center is NaN; or some coordinate is infinite; or the element
   type is not the supported vector type; or, after sorting, two
   adjacent centers are byte-equal; or the index-level norm function
   ([IVFFLAT_NORM_PROC], not the k-means one) is configured and gives
   some center the norm zero.  In every other case it returns, and the
   centers have been sorted in place. *)
Theorem CheckCenters_error_iff (index : Relation) (cs : VectorArray)
    (type : IvfflatType) :
  let failure :=
    va_length cs <> va_maxlen cs \/
    has_nan (va_elems cs) \/
    has_inf (va_elems cs) \/
    type <> IVFFLAT_TYPE_VECTOR \/
    adjacent_equal (va_elems (qsort_array cs)) \/
    (exists normproc, NORM_PROC index = Some normproc /\
       Exists (fun v => feq (normproc v) zero = true) (va_elems (qsort_array cs))) in
  ((exists e, CheckCenters index cs type = Err e) <-> failure) /\
  (~ failure -> CheckCenters index cs type = Ok (qsort_array cs)).
Proof.
  intros failure.
  assert ((exists e, CheckCenters index cs type = Err e) <-> failure) as Hiff.
  { unfold failure, CheckCenters.
    destruct (va_length cs =? va_maxlen cs) eqn:Hlen; simpl.
    2:{ apply Nat.eqb_neq in Hlen. split; [auto|eauto]. }
    apply Nat.eqb_eq in Hlen.
    pose proof (check_values_Err (va_elems cs)) as Hv.
    destruct (check_values (va_elems cs)) as [[]|e]; simpl.
    2:{ split; [intros _|eauto]. destruct Hv as [Hv _].
        destruct Hv as [H|H]; eauto. }
    assert (~ (has_nan (va_elems cs) \/ has_inf (va_elems cs))) as Hclean.
    { intros H. apply Hv in H as [e He]. discriminate. }
    destruct type.
    2:{ split; [intros _|eauto]. right; right; right; left. discriminate. }
    pose proof (has_adjacent_duplicate_spec (va_elems (qsort_array cs))) as Hd.
    destruct (has_adjacent_duplicate (va_elems (qsort_array cs))).
    { split; [intros _|eauto]. do 4 right. left. apply Hd. reflexivity. }
    assert (~ adjacent_equal (va_elems (qsort_array cs))) as Hnodup.
    { intros H. apply Hd in H. discriminate. }
    destruct (NORM_PROC index) as [normproc|].
    - pose proof (has_zero_norm_spec normproc (va_elems (qsort_array cs))) as Hz.
      destruct (has_zero_norm normproc (va_elems (qsort_array cs))).
      + split; [intros _|eauto]. do 5 right. exists normproc.
        split; [reflexivity|]. apply Hz. reflexivity.
      + split; [intros [e He]; discriminate|].
        intros [H|[H|[H|[H|[H|(np & Hnp & H)]]]]]; try tauto.
        injection Hnp as <-. apply Hz in H. discriminate.
    - split; [intros [e He]; discriminate|].
      intros [H|[H|[H|[H|[H|(np & Hnp & H)]]]]]; try tauto. discriminate. }
  split; [exact Hiff|].
  intros Hok.
  assert (~ exists e, CheckCenters index cs type = Err e) as Hne by tauto.
  revert Hne. unfold CheckCenters.
  destruct (negb _); [intros H; exfalso; eauto|].
  destruct (check_values _) as [[]|e]; simpl; [|intros H; exfalso; eauto].
  destruct type; [|intros H; exfalso; eauto].
  destruct (has_adjacent_duplicate _); [intros H; exfalso; eauto|].
  destruct (NORM_PROC index) as [normproc|]; [|reflexivity].
  destruct (has_zero_norm _ _); [intros H; exfalso; eauto|reflexivity].
Qed.

(** *** Sorting in place *)

Lemma va_elems_lookup (arr : VectorArray) (i : nat) (v : Vector) :
  i < va_length arr -> va_items arr !! i = Some v -> va_elems arr !! i = Some v.
Proof.
  intros Hi Hv. unfold va_elems, VectorArrayGet.
  rewrite map_fmap, list_lookup_fmap, lookup_seq_lt by exact Hi. simpl.
  rewrite (list_lookup_total_correct _ _ _ Hv). reflexivity.
Qed.

Lemma no_nan_used_prefix (arr : VectorArray) :
  no_nan (va_elems arr) -> no_nan (take (va_length arr) (va_items arr)).
Proof.
  unfold no_nan. rewrite !Forall_lookup. intros H i v Hv.
  apply lookup_take_Some in Hv as [Hv Hi].
  apply (H i). apply va_elems_lookup; assumption.
Qed.

Lemma qsort_array_used_prefix {QS : QsortSpec} (arr : VectorArray) :
  take (va_length (qsort_array arr)) (va_items (qsort_array arr))
  = qsort CompareVectors (take (va_length arr) (va_items arr)).
Proof.
  unfold qsort_array. simpl.
  set (sorted := qsort CompareVectors (take (va_length arr) (va_items arr))).
  assert (length sorted = length (take (va_length arr) (va_items arr))) as Hlen
    by (apply Permutation_length, qsort_Permutation).
  rewrite length_take in Hlen.
  destruct (decide (va_length arr <= length (va_items arr))) as [Hle|Hgt].
  - rewrite take_app_length' by lia. reflexivity.
  - rewrite drop_ge, app_nil_r by lia. apply take_ge. lia.
Qed.

Lemma qsort_array_Permutation {QS : QsortSpec} (arr : VectorArray) :
  Permutation (va_items (qsort_array arr)) (va_items arr).
Proof.
  unfold qsort_array. simpl.
  rewrite qsort_Permutation. rewrite take_drop. reflexivity.
Qed.

Lemma check_coordinates_Ok (vec : Vector) (u : unit) :
  check_coordinates vec = Ok u -> Forall (fun x => fisnan x = false) vec.
Proof.
  induction vec as [|x rest IH]; simpl; [constructor|].
  destruct (fisnan x) eqn:Hnan; [discriminate|].
  destruct (fisinf x); [discriminate|].
  intros H. constructor; [exact Hnan|apply IH, H].
Qed.

Lemma check_values_Ok (vecs : list Vector) (u : unit) :
  check_values vecs = Ok u -> no_nan vecs.
Proof.
  unfold no_nan. induction vecs as [|v rest IH]; simpl; [constructor|].
  destruct (check_coordinates v) as [u'|e] eqn:Hv; cbn [bind]; [|discriminate].
  intros H. constructor; [eapply check_coordinates_Ok, Hv|apply IH, H].
Qed.

Lemma CheckCenters_Ok index (cs cs' : VectorArray) (type : IvfflatType) :
  CheckCenters index cs type = Ok cs' ->
  cs' = qsort_array cs /\ no_nan (va_elems cs) /\
  va_length cs = va_maxlen cs /\ type = IVFFLAT_TYPE_VECTOR.
Proof.
  unfold CheckCenters.
  destruct (va_length cs =? va_maxlen cs) eqn:Hlen; cbn [negb]; [|discriminate].
  apply Nat.eqb_eq in Hlen.
  destruct (check_values (va_elems cs)) as [u|e] eqn:Hv; cbn [bind]; [|discriminate].
  apply check_values_Ok in Hv.
  destruct type; [|discriminate].
  destruct (has_adjacent_duplicate _); [discriminate|].
  destruct (NORM_PROC index) as [normproc|].
  - destruct (has_zero_norm _ _); [discriminate|].
    intros [= <-]. repeat split; assumption.
  - intros [= <-]. repeat split; assumption.
Qed.

Lemma IvfflatKmeans_Ok index samples cs type w samples' cs' w' :
  IvfflatKmeans index samples cs type w = Ok (samples', cs', w') ->
  exists cs1,
    CheckCenters index cs1 type = Ok cs' /\
    if va_length samples <=? va_maxlen cs
    then QuickCenters index samples cs type w = Ok (samples', cs1, w')
    else ElkanKmeans index samples cs type w = Ok (cs1, w') /\ samples' = samples.
Proof.
  unfold IvfflatKmeans.
  destruct (va_length samples <=? va_maxlen cs).
  - destruct (QuickCenters _ _ _ _ _) as [[[s1 c1] w1]|e]; [|discriminate].
    cbn [bind].
    destruct (CheckCenters index c1 type) as [c2|e] eqn:Hc; [|discriminate].
    intros [= <- <- <-]. exists c1. split; [exact Hc|reflexivity].
  - destruct (ElkanKmeans _ _ _ _ _) as [[c1 w1]|e]; [|discriminate].
    cbn [bind].
    destruct (CheckCenters index c1 type) as [c2|e] eqn:Hc; [|discriminate].
    intros [= <- <- <-]. exists c1. split; [exact Hc|]. split; reflexivity.
Qed.

(** C10.  Whenever [IvfflatKmeans] returns, the centers the caller gets
   back are the centers its training path produced, sorted in place by
   [CheckCenters]: the array is the trained array after
   [qsort(centers->items, centers->length, ...)], it is full, its
   centers in use are a rearrangement of the trained ones, and they are
   in ascending order of the vector comparison ([CheckCenters] had
   found no NaN among them), whichever path trained them. *)
Theorem IvfflatKmeans_sorted {QS : QsortSpec} index samples cs type w samples' cs' w' :
  IvfflatKmeans index samples cs type w = Ok (samples', cs', w') ->
  exists trained,
    (if va_length samples <=? va_maxlen cs
     then QuickCenters index samples cs type w = Ok (samples', trained, w')
     else ElkanKmeans index samples cs type w = Ok (trained, w')) /\
    cs' = qsort_array trained /\
    va_length cs' = va_length trained /\
    va_length cs' = va_maxlen cs' /\
    Permutation (take (va_length cs') (va_items cs'))
                (take (va_length trained) (va_items trained)) /\
    Sorted vector_le (take (va_length cs') (va_items cs')).
Proof.
  intros H. apply IvfflatKmeans_Ok in H as (cs1 & Hc & Hpath).
  apply CheckCenters_Ok in Hc as (-> & Hnan & Hfull & _).
  exists cs1.
  split; [destruct (va_length samples <=? va_maxlen cs); [exact Hpath|apply Hpath]|].
  split; [reflexivity|]. split; [reflexivity|]. split; [exact Hfull|].
  rewrite qsort_array_used_prefix.
  split; [apply qsort_Permutation|apply qsort_Sorted, no_nan_used_prefix, Hnan].
Qed.

(** *** What happens to the samples *)

Lemma QuickCenters_samples index samples cs type w samples' cs' w' :
  QuickCenters index samples cs type w = Ok (samples', cs', w') ->
  samples' = if 0 <? va_length samples then qsort_array samples else samples.
Proof.
  unfold QuickCenters.
  destruct (0 <? va_length samples); [destruct type; [|discriminate]|]; cbn [bind];
    destruct (fill_random _ _ _ _ _) as [[c2 w2]|e]; cbn [bind];
    congruence.
Qed.

(** C2 (as amended).  On return from [IvfflatKmeans] the samples array
   holds the vectors it held on entry: the Elkan path (more samples than
   centers) leaves it as it was; the quick path sorts its used prefix in
   place with [qsort], so there the array is a rearrangement of what the
   caller passed, of the same length. *)
Theorem IvfflatKmeans_samples {QS : QsortSpec} index samples cs type w samples' cs' w' :
  IvfflatKmeans index samples cs type w = Ok (samples', cs', w') ->
  (va_maxlen cs < va_length samples -> samples' = samples) /\
  (va_length samples <= va_maxlen cs ->
     samples' = if 0 <? va_length samples then qsort_array samples else samples) /\
  Permutation (va_items samples') (va_items samples) /\
  va_length samples' = va_length samples.
Proof.
  intros H. apply IvfflatKmeans_Ok in H as (cs1 & _ & H).
  destruct (va_length samples <=? va_maxlen cs) eqn:Hle.
  - apply Nat.leb_le in Hle. apply QuickCenters_samples in H.
    split; [lia|]. split; [intros _; exact H|].
    subst samples'. destruct (0 <? va_length samples).
    + split; [apply qsort_array_Permutation|reflexivity].
    + split; reflexivity.
  - apply Nat.leb_gt in Hle. destruct H as [_ ->].
    split; [reflexivity|]. split; [lia|]. split; reflexivity.
Qed.

(** *** QuickCenters *)

Lemma push_items_app (arr : VectorArray) (l1 l2 : list Vector) :
  push_items arr (l1 ++ l2) = push_items (push_items arr l1) l2.
Proof. unfold push_items. apply fold_left_app. Qed.










Lemma random_vector_draws (dimensions : nat) (w : world) :
  exists draws,
    random_vector dimensions w
    = (map to_float draws, mkWorld (rng w + dimensions) (checks w)) /\
    length draws = dimensions /\
    forall d, d ∈ draws -> exists k, d = RandomDouble_at k.
Proof.
  revert w. induction dimensions as [|d IH]; intros w; simpl.
  - exists []. rewrite Nat.add_0_r. destruct w. repeat split.
    intros x Hx. inversion Hx.
  - destruct (IH (mkWorld (S (rng w)) (checks w))) as (draws & Hrv & Hlen & Hsrc).
    rewrite Hrv. exists (RandomDouble_at (rng w) :: draws). simpl.
    split; [do 2 f_equal; lia|]. split; [lia|].
    intros x Hx. apply elem_of_cons in Hx as [->|Hx]; eauto.
Qed.


(** [dimensions] draws in a row from the random stream. *)
Lemma random_vector_stream (dimensions : nat) (w : world) :
  random_vector dimensions w
  = (map (fun i => to_float (RandomDouble_at (rng w + i))) (seq 0 dimensions),
     mkWorld (rng w + dimensions) (checks w)).
Proof.
  revert w. induction dimensions as [|d IH]; intros w; simpl.
  - rewrite Nat.add_0_r. destruct w. reflexivity.
  - rewrite IH. cbn [rng checks]. rewrite Nat.add_0_r. f_equal.
    + f_equal. rewrite <- seq_shift, map_map. apply map_ext. intros i. do 2 f_equal. lia.
    + f_equal. lia.
Qed.





(** *** InitCenters *)

(** The distance loop for center [i] writes column [i] of the bounds. *)
Lemma init_distance_lower index samples cs numCenters i (js : list nat)
    (lb weight : list num) (sum : num) :
  (fold_left (init_distance index samples cs numCenters i) js (lb, weight, sum)).1.1
  = fold_left
      (fun l j => <[j * numCenters + i :=
                     (fun _ => to_float (KMEANS_DISTANCE_PROC index (VectorArrayGet samples j)
                                           (VectorArrayGet cs i))) (l !!! (j * numCenters + i))]> l)
      js lb.
Proof.
  revert lb weight sum. induction js as [|j js IH]; intros lb weight sum; [reflexivity|].
  cbn [fold_left]. unfold init_distance at 2. apply IH.
Qed.

Lemma init_column index samples cs numCenters numSamples i (lb weight : list num) (sum : num) :
  i < numCenters ->
  numSamples * numCenters <= length lb ->
  let lb' := (fold_left (init_distance index samples cs numCenters i)
                        (seq 0 numSamples) (lb, weight, sum)).1.1 in
  length lb' = length lb /\
  (forall j, j < numSamples ->
     lb' !!! (j * numCenters + i)
     = to_float (KMEANS_DISTANCE_PROC index (VectorArrayGet samples j) (VectorArrayGet cs i))) /\
  (forall j i', i' < numCenters -> i' <> i ->
     lb' !!! (j * numCenters + i') = lb !!! (j * numCenters + i')).
Proof.
  intros Hi Hroom lb'. unfold lb'. rewrite init_distance_lower.
  match goal with |- context [fold_left ?body _ _] =>
    pose proof (fold_update_spec (fun j => j * numCenters + i)
      (fun j (_ : num) => to_float (KMEANS_DISTANCE_PROC index (VectorArrayGet samples j)
                                      (VectorArrayGet cs i)))
      (seq 0 numSamples) lb) as Hspec
  end.
  destruct Hspec as (Hlen & Hout & Hin).
  { apply NoDup_fmap_2_strong; [|apply NoDup_seq].
    intros j j' _ _ Heq. apply (flat_index_inj numCenters j i j' i); assumption. }
  split; [exact Hlen|]. split.
  - intros j Hj. apply Hin.
    + apply elem_of_seq. lia.
    + pose proof (flat_index_lt numCenters numSamples j i Hj Hi). lia.
  - intros j i' Hi' Hne. apply Hout.
    intros Hmem. apply list_elem_of_fmap in Hmem as (j' & Heq & _).
    apply flat_index_inj in Heq as [_ Heq]; [congruence|assumption|assumption].
Qed.

Lemma InitCenters_loop_spec index samples numCenters numSamples (m i0 : nat)
    (cs : VectorArray) (lb weight : list num) (w : world) :
  i0 + m = numCenters ->
  numSamples * numCenters <= length lb ->
  (forall j i, j < numSamples -> i < i0 ->
     lb !!! (j * numCenters + i)
     = to_float (KMEANS_DISTANCE_PROC index (VectorArrayGet samples j) (VectorArrayGet cs i))) ->
  match InitCenters_loop index samples numCenters numSamples (seq i0 m) cs lb weight w with
  | Ok (cs', lb', w') =>
      length lb' = length lb /\
      (forall i, i <= i0 -> VectorArrayGet cs' i = VectorArrayGet cs i) /\
      (forall j i, j < numSamples -> i < numCenters ->
         lb' !!! (j * numCenters + i)
         = to_float (KMEANS_DISTANCE_PROC index (VectorArrayGet samples j)
                                          (VectorArrayGet cs' i)))
  | Err e => e = Cancelled /\ exists k, interrupt_pending k = true
  end.
Proof.
  revert i0 cs lb weight w.
  induction m as [|m IH]; intros i0 cs lb weight w Hnc Hroom Hdone; cbn [seq InitCenters_loop].
  - split; [reflexivity|]. split; [reflexivity|].
    intros j i Hj Hi. apply Hdone; lia.
  - destruct (CHECK_FOR_INTERRUPTS w) as [w1|e] eqn:Hc; cbn [bind];
      [|eapply CHECK_FOR_INTERRUPTS_Err, Hc].
    pose proof (init_column index samples cs numCenters numSamples i0 lb weight zero
                  ltac:(lia) Hroom) as Hcol.
    destruct (fold_left _ _ _) as [[lb1 weight1] sum]. simpl in Hcol.
    destruct Hcol as (Hlen1 & Hcol & Hrest).
    assert (forall j i, j < numSamples -> i < S i0 ->
              lb1 !!! (j * numCenters + i)
              = to_float (KMEANS_DISTANCE_PROC index (VectorArrayGet samples j)
                                               (VectorArrayGet cs i))) as Hdone1.
    { intros j i Hj Hi. destruct (decide (i = i0)) as [->|Hne].
      - apply Hcol, Hj.
      - rewrite Hrest by lia. apply Hdone; lia. }
    destruct (i0 + 1 =? numCenters) eqn:Hlast.
    + apply Nat.eqb_eq in Hlast.
      split; [exact Hlen1|]. split; [reflexivity|].
      intros j i Hj Hi. apply Hdone1; lia.
    + apply Nat.eqb_neq in Hlast.
      destruct (RandomDouble w1) as [r w2].
      set (cs1 := incr_length (VectorArraySet cs (i0 + 1) _)).
      specialize (IH (S i0) cs1 lb1 weight1 w2).
      destruct (InitCenters_loop _ _ _ _ _ cs1 _ _ _) as [[[cs' lb'] w']|e].
      * destruct IH as (Hlen' & Hsame & Hall); [lia|lia| |].
        { intros j i Hj Hi. rewrite Hdone1 by assumption.
          unfold cs1. rewrite VectorArrayGet_Set_ne by lia. reflexivity. }
        split; [lia|]. split; [|exact Hall].
        intros i Hi. rewrite Hsame by lia.
        unfold cs1. apply VectorArrayGet_Set_ne. lia.
      * apply IH; [lia|lia|].
        intros j i Hj Hi. rewrite Hdone1 by assumption.
        unfold cs1. rewrite VectorArrayGet_Set_ne by lia. reflexivity.
Qed.

Lemma InitCenters_loop_shape index samples numCenters numSamples idxs cs lb weight w
    cs' lb' w' :
  InitCenters_loop index samples numCenters numSamples idxs cs lb weight w
  = Ok (cs', lb', w') ->
  va_maxlen cs' = va_maxlen cs /\ length (va_items cs') = length (va_items cs).
Proof.
  revert cs lb weight w.
  induction idxs as [|i rest IH]; intros cs lb weight w; cbn [InitCenters_loop].
  - intros [= <- <- <-]. split; reflexivity.
  - destruct (CHECK_FOR_INTERRUPTS w) as [w1|e]; cbn [bind]; [|discriminate].
    destruct (fold_left _ _ _) as [[lb1 weight1] sum].
    destruct (i + 1 =? numCenters); [intros [= <- <- <-]; split; reflexivity|].
    destruct (RandomDouble w1) as [r w2].
    intros H. apply IH in H as [Hm Hi]. simpl in Hm, Hi.
    rewrite length_insert in Hi. split; assumption.
Qed.

Lemma InitCenters_spec index (samples cs : VectorArray) (lb : list num) (w : world) :
  va_length samples * va_maxlen cs <= length lb ->
  match InitCenters index samples cs lb w with
  | Ok (cs', lb', w') =>
      length lb' = length lb /\
      va_maxlen cs' = va_maxlen cs /\
      length (va_items cs') = length (va_items cs) /\
      forall j i, j < va_length samples -> i < va_maxlen cs ->
        lb' !!! (j * va_maxlen cs + i)
        = to_float (KMEANS_DISTANCE_PROC index (VectorArrayGet samples j)
                                         (VectorArrayGet cs' i))
  | Err e => e = Cancelled /\ exists k, interrupt_pending k = true
  end.
Proof.
  intros Hroom. unfold InitCenters.
  destruct (RandomInt w) as [r w1].
  match goal with |- context [InitCenters_loop _ _ _ _ _ ?c _ ?wt _] =>
    pose proof (InitCenters_loop_spec index samples (va_maxlen cs) (va_length samples)
                  (va_maxlen cs) 0 c lb wt w1 eq_refl Hroom) as Hloop;
    pose proof (InitCenters_loop_shape index samples (va_maxlen cs) (va_length samples)
                  (seq 0 (va_maxlen cs)) c lb wt w1) as Hshape
  end.
  destruct (InitCenters_loop _ _ _ _ _ _ _ _ _) as [[[cs' lb'] w']|e].
  - destruct Hloop as (Hlen & _ & Hall); [intros j i _ Hi; lia|].
    destruct (Hshape cs' lb' w' eq_refl) as [Hm Hi]. simpl in Hm, Hi.
    rewrite length_insert in Hi.
    repeat split; assumption.
  - apply Hloop. intros j i _ Hi. lia.
Qed.

(** C4.  When [InitCenters] returns (it can only fail by cancellation),
   every cell [lowerBound[j * numCenters + i]], for a sample [j] and a
   center [i < numCenters], holds the distance from sample [j] to center
   [i] as the distance function computed it, stored as a [float]; the
   last column is among them.  Center [i] is written once, before column
   [i] is computed, and never again, so the center of the final array is
   the center the column was computed against. *)
Theorem InitCenters_lowerBound index (samples cs : VectorArray)
    (lowerBound : list num) (w : world) :
  va_length samples * va_maxlen cs <= length lowerBound ->
  match InitCenters index samples cs lowerBound w with
  | Ok (cs', lowerBound', w') =>
      forall j i, j < va_length samples -> i < va_maxlen cs ->
        lowerBound' !! (j * va_maxlen cs + i)
        = Some (to_float (KMEANS_DISTANCE_PROC index (VectorArrayGet samples j)
                                               (VectorArrayGet cs' i)))
  | Err e => e = Cancelled /\ exists k, interrupt_pending k = true
  end.
Proof.
  intros Hroom. pose proof (InitCenters_spec index samples cs lowerBound w Hroom) as H.
  destruct (InitCenters index samples cs lowerBound w) as [[[cs' lb'] w']|e]; [|exact H].
  destruct H as (Hlen & _ & _ & Hall).
  intros j i Hj Hi. rewrite <- Hall by assumption.
  apply list_lookup_lookup_total_lt.
  pose proof (flat_index_lt (va_maxlen cs) (va_length samples) j i Hj Hi). lia.
Qed.

(** *** Steps 5 to 7 on the arrays, and the initial assignment *)

Lemma commit_centers_fields (js : list nat) (newCenters : list Vector) (cs : VectorArray) :
  let cs' := fold_left (fun c j => VectorArraySet c j (newCenters !!! j)) js cs in
  va_maxlen cs' = va_maxlen cs /\ va_length cs' = va_length cs /\
  va_dim cs' = va_dim cs /\
  va_items cs'
  = fold_left (fun l j => <[j := (fun _ : Vector => newCenters !!! j) (l !!! j)]> l)
              js (va_items cs).
Proof.
  revert cs. induction js as [|j js IH]; intros cs; cbn [fold_left]; [repeat split|].
  destruct (IH (VectorArraySet cs j (newCenters !!! j))) as (Hm & Hl & Hd & Hi).
  repeat split; assumption.
Qed.

Lemma commit_centers_spec (numCenters : nat) (newCenters : list Vector) (cs : VectorArray) :
  numCenters <= length (va_items cs) ->
  let cs' := commit_centers numCenters newCenters cs in
  va_maxlen cs' = va_maxlen cs /\
  length (va_items cs') = length (va_items cs) /\
  forall k, k < numCenters -> VectorArrayGet cs' k = newCenters !!! k.
Proof.
  intros Hroom cs'. unfold cs', commit_centers.
  destruct (commit_centers_fields (seq 0 numCenters) newCenters cs) as (Hm & _ & _ & Hi).
  destruct (fold_update_spec (fun j : nat => j) (fun j (_ : Vector) => newCenters !!! j)
              (seq 0 numCenters) (va_items cs)) as (Hlen & _ & Hin).
  { rewrite list_fmap_id. apply NoDup_seq. }
  split; [exact Hm|]. split; [rewrite Hi; exact Hlen|].
  intros k Hk. unfold VectorArrayGet. rewrite Hi. apply Hin; [apply elem_of_seq|]; lia.
Qed.

Lemma center_shifts_spec (index : Relation)
    (cs : VectorArray) (newCenters : list Vector) (numCenters : nat)
    (shifts : list num) :
  numCenters <= length shifts ->
  let shifts' := center_shifts index cs newCenters numCenters shifts in
  length shifts' = length shifts /\
  forall k, k < numCenters ->
    shifts' !!! k = to_float (KMEANS_DISTANCE_PROC index (VectorArrayGet cs k)
                                                   (newCenters !!! k)).
Proof.
  intros Hroom shifts'. unfold shifts', center_shifts.
  destruct (fold_update_spec (fun j : nat => j)
              (fun j (_ : num) => to_float (KMEANS_DISTANCE_PROC index (VectorArrayGet cs j)
                                                              (newCenters !!! j)))
              (seq 0 numCenters) shifts) as (Hlen & _ & Hin).
  { rewrite list_fmap_id. apply NoDup_seq. }
  split; [exact Hlen|].
  intros k Hk. apply Hin; [apply elem_of_seq|]; lia.
Qed.

Lemma widen_upper_spec (numSamples : nat) (shifts : list num) (closest : list nat)
    (upper : list num) :
  numSamples <= length upper ->
  let upper' := widen_upper numSamples shifts closest upper in
  length upper' = length upper /\
  forall j, j < numSamples ->
    upper' !!! j = to_float (fadd (upper !!! j) (shifts !!! (closest !!! j))).
Proof.
  intros Hroom upper'. unfold upper', widen_upper.
  destruct (fold_update_spec (fun j : nat => j)
              (fun j (x : num) => to_float (fadd x (shifts !!! (closest !!! j))))
              (seq 0 numSamples) upper) as (Hlen & _ & Hin).
  { rewrite list_fmap_id. apply NoDup_seq. }
  split; [exact Hlen|].
  intros j Hj. apply Hin; [apply elem_of_seq|]; lia.
Qed.

Lemma widen_lower_spec (numSamples numCenters : nat) (shifts lower : list num) :
  numSamples * numCenters <= length lower ->
  let lower' := widen_lower numSamples numCenters shifts lower in
  length lower' = length lower /\
  (forall j k, j < numSamples -> k < numCenters ->
     lower' !!! (j * numCenters + k)
     = widened (shifts !!! k) (lower !!! (j * numCenters + k))) /\
  (forall p, numSamples * numCenters <= p -> lower' !!! p = lower !!! p).
Proof.
  unfold widen_lower.
  induction numSamples as [|n IH]; intros Hroom; cbn zeta.
  - split; [reflexivity|]. split; [lia|reflexivity].
  - rewrite seq_S, fold_left_app. cbn [fold_left Nat.add].
    destruct IH as (Hlen & Hrows & Hrest); [lia|].
    set (lower1 := fold_left _ (seq 0 n) lower) in *.
    destruct (fold_update_spec (fun k => n * numCenters + k)
                (fun k (x : num) => widened (shifts !!! k) x)
                (seq 0 numCenters) lower1) as (Hlen2 & Hout & Hin).
    { apply NoDup_fmap_2_strong; [|apply NoDup_seq]. intros; lia. }
    change (fold_left (widen_lower_at numCenters shifts n) (seq 0 numCenters) lower1)
      with (fold_left (fun l k => <[n * numCenters + k :=
                          widened (shifts !!! k) (l !!! (n * numCenters + k))]> l)
                      (seq 0 numCenters) lower1).
    split; [lia|]. split.
    + intros j k Hj Hk. destruct (decide (j = n)) as [->|Hne].
      * rewrite Hin; [|apply elem_of_seq; lia|lia].
        f_equal. apply Hrest. lia.
      * rewrite Hout; [apply Hrows; lia|].
        intros Hmem. apply list_elem_of_fmap in Hmem as (k' & Heq & Hk').
        apply elem_of_seq in Hk'.
        apply flat_index_inj in Heq as [? _]; [contradiction|lia|lia].
    + intros p Hp. rewrite Hout; [apply Hrest; lia|].
      intros Hmem. apply list_elem_of_fmap in Hmem as (k' & Heq & Hk').
      apply elem_of_seq in Hk'. lia.
Qed.

Lemma initial_closest_scan (numCenters : nat) (lb : list num) (j n : nat) :
  let '(m, c) :=
    fold_left
      (fun (acc : num * nat) k =>
         let '(minDistance, closestCenter) := acc in
         let distance := lb !!! (j * numCenters + k) in
         if flt distance minDistance then (distance, k) else acc)
      (seq 0 n) (FLT_MAX, 0) in
  (c < n /\ m = lb !!! (j * numCenters + c)) \/
  (m = FLT_MAX /\ c = 0 /\
   forall k, k < n -> flt (lb !!! (j * numCenters + k)) FLT_MAX = false).
Proof.
  induction n as [|n IH].
  - right. split; [reflexivity|]. split; [reflexivity|]. intros k Hk. lia.
  - rewrite seq_S, fold_left_app. cbn [fold_left Nat.add].
    destruct (fold_left _ (seq 0 n) (FLT_MAX, 0)) as [m c].
    destruct (flt (lb !!! (j * numCenters + n)) m) eqn:Hlt.
    + left. split; [lia|reflexivity].
    + destruct IH as [[Hc Hm]|(Hm & Hc & Hall)].
      * left. split; [lia|exact Hm].
      * right. split; [exact Hm|]. split; [exact Hc|].
        intros k Hk. destruct (decide (k = n)) as [->|Hne]; [|apply Hall; lia].
        rewrite <- Hm. exact Hlt.
Qed.

Lemma initial_assignment_fst (numCenters : nat) (lb : list num) (js : list nat)
    (upper : list num) (closest : list nat) :
  (fold_left
     (fun (acc : list num * list nat) j =>
        let '(minDistance, closestCenter) := initial_closest numCenters lb j in
        (<[j := minDistance]> acc.1, <[j := closestCenter]> acc.2))
     js (upper, closest)).1
  = fold_left (fun l j => <[j := (fun _ : num => (initial_closest numCenters lb j).1)
                                   (l !!! j)]> l) js upper.
Proof.
  revert upper closest. induction js as [|j js IH]; intros upper closest; [reflexivity|].
  cbn [fold_left]. destruct (initial_closest numCenters lb j) as [m c] eqn:Hic.
  cbn [fst snd]. rewrite IH. reflexivity.
Qed.

Lemma initial_assignment_snd (numCenters : nat) (lb : list num) (js : list nat)
    (upper : list num) (closest : list nat) :
  (fold_left
     (fun (acc : list num * list nat) j =>
        let '(minDistance, closestCenter) := initial_closest numCenters lb j in
        (<[j := minDistance]> acc.1, <[j := closestCenter]> acc.2))
     js (upper, closest)).2
  = fold_left (fun l j => <[j := (fun _ : nat => (initial_closest numCenters lb j).2)
                                   (l !!! j)]> l) js closest.
Proof.
  revert upper closest. induction js as [|j js IH]; intros upper closest; [reflexivity|].
  cbn [fold_left]. destruct (initial_closest numCenters lb j) as [m c] eqn:Hic.
  cbn [fst snd]. rewrite IH. reflexivity.
Qed.

Lemma initial_assignment_spec (numSamples numCenters : nat) (lb upper : list num)
    (closest : list nat) :
  numSamples <= length upper -> numSamples <= length closest ->
  let r := initial_assignment numSamples numCenters lb upper closest in
  length r.1 = length upper /\ length r.2 = length closest /\
  forall j, j < numSamples ->
    r.1 !!! j = (initial_closest numCenters lb j).1 /\
    r.2 !!! j = (initial_closest numCenters lb j).2.
Proof.
  intros Hu Hc r. unfold r, initial_assignment.
  rewrite initial_assignment_fst, initial_assignment_snd.
  destruct (fold_update_spec (fun j : nat => j)
              (fun j (_ : num) => (initial_closest numCenters lb j).1)
              (seq 0 numSamples) upper) as (Hlen1 & _ & Hin1).
  { rewrite list_fmap_id. apply NoDup_seq. }
  destruct (fold_update_spec (fun j : nat => j)
              (fun j (_ : nat) => (initial_closest numCenters lb j).2)
              (seq 0 numSamples) closest) as (Hlen2 & _ & Hin2).
  { rewrite list_fmap_id. apply NoDup_seq. }
  split; [exact Hlen1|]. split; [exact Hlen2|].
  intros j Hj. split; [apply Hin1|apply Hin2]; try (apply elem_of_seq); lia.
Qed.

(** The state an unfinished loop returns is one of the loop heads. *)
Lemma elkan_loop_reaches {index : Relation} {samples : VectorArray}
    st0 (n iteration : nat) st st' trace :
  elkan_reaches index samples st0 iteration st ->
  elkan_loop index samples n iteration st = Ok (st', trace) ->
  elkan_reaches index samples st0 (iteration + length trace) st'.
Proof.
  revert iteration st st' trace.
  induction n as [|n IH]; intros iteration st st' trace Hreach; cbn [elkan_loop].
  - intros [= <- <-]. rewrite Nat.add_0_r. exact Hreach.
  - destruct (CHECK_FOR_INTERRUPTS (wld st)) as [w1|e] eqn:Hc; cbn [bind]; [|discriminate].
    pose proof (reaches_pass index samples st0 iteration st w1 Hreach Hc) as Hnext.
    destruct (elkan_pass _ _ _ _) as [st1 changes]. cbn [fst] in Hnext.
    destruct (_ && _).
    + intros [= <- <-]. cbn [length]. replace (iteration + 1) with (S iteration) by lia.
      exact Hnext.
    + specialize (IH (S iteration) st1).
      destruct (elkan_loop index samples n (S iteration) st1) as [[st2 tr]|e];
        cbn [bind]; [|discriminate].
      intros [= <- <-]. cbn [length].
      replace (iteration + S (length tr)) with (S iteration + length tr) by lia.
      apply IH; [exact Hnext|reflexivity].
Qed.

(** ** Further properties of the code *)

(** *** What InitCenters does to the outside world and to the centers *)

Lemma InitCenters_loop_world index samples numCenters numSamples (m i0 : nat)
    (cs : VectorArray) (lb weight : list num) (w : world) :
  i0 + m = numCenters ->
  match InitCenters_loop index samples numCenters numSamples (seq i0 m) cs lb weight w with
  | Ok (cs', lb', w') =>
      (forall i, i < m -> interrupt_pending (checks w + i) = false) /\
      checks w' = checks w + m /\
      rng w' = rng w + (m - 1) /\
      va_length cs' = va_length cs + (m - 1) /\
      va_maxlen cs' = va_maxlen cs /\
      va_dim cs' = va_dim cs
  | Err e =>
      e = Cancelled /\ exists i, i < m /\ interrupt_pending (checks w + i) = true
  end.
Proof.
  revert i0 cs lb weight w.
  induction m as [|m IH]; intros i0 cs lb weight w Hnc; cbn [seq InitCenters_loop].
  - split; [intros i Hi; lia|]. repeat split; lia.
  - unfold CHECK_FOR_INTERRUPTS.
    destruct (interrupt_pending (checks w)) eqn:Hp; cbn [bind].
    { split; [reflexivity|]. exists 0. split; [lia|]. rewrite Nat.add_0_r. exact Hp. }
    destruct (fold_left _ _ _) as [[lb1 weight1] sum].
    destruct (i0 + 1 =? numCenters) eqn:Hlast.
    + apply Nat.eqb_eq in Hlast. assert (m = 0) as -> by lia. cbn [checks rng].
      split.
      { intros i Hi. assert (i = 0) as -> by lia. rewrite Nat.add_0_r. exact Hp. }
      repeat split; lia.
    + apply Nat.eqb_neq in Hlast. unfold RandomDouble. cbn [checks rng].
      match goal with |- context [InitCenters_loop _ _ _ _ _ ?c _ _ ?w2] =>
        specialize (IH (S i0) c lb1 weight1 w2 ltac:(lia))
      end.
      destruct (InitCenters_loop _ _ _ _ _ _ _ _ _) as [[[cs' lb'] w']|e].
      * cbn [checks rng va_length va_maxlen va_dim incr_length VectorArraySet] in IH.
        destruct IH as (Hnone & Hchecks & Hrng & Hlen & Hmax & Hdim).
        split.
        { intros i Hi. destruct i as [|i]; [rewrite Nat.add_0_r; exact Hp|].
          replace (checks w + S i) with (S (checks w) + i) by lia. apply Hnone. lia. }
        repeat split; lia.
      * cbn [checks] in IH. destruct IH as (-> & i & Hi & Hpi).
        split; [reflexivity|]. exists (S i). split; [lia|].
        replace (checks w + S i) with (S (checks w) + i) by lia. exact Hpi.
Qed.

Lemma choose_sample_le (weight : list num) (j n : nat) (choice : num) :
  j <= choose_sample weight j n choice <= j + n.
Proof.
  revert j choice. induction n as [|n IH]; intros j choice; simpl; [lia|].
  destruct (fle _ zero); [lia|].
  specialize (IH (S j) (fsub choice (weight !!! j))). lia.
Qed.

Lemma InitCenters_loop_seeds index samples numCenters numSamples (m i0 : nat)
    (cs : VectorArray) (lb weight : list num) (w : world) cs' lb' w' :
  i0 + m = numCenters ->
  0 < numSamples ->
  numCenters <= length (va_items cs) ->
  (forall i, i <= i0 -> exists j, j < numSamples /\
     VectorArrayGet cs i = VectorArrayGet samples j) ->
  InitCenters_loop index samples numCenters numSamples (seq i0 m) cs lb weight w
  = Ok (cs', lb', w') ->
  forall i, i <= i0 + (m - 1) -> exists j, j < numSamples /\
    VectorArrayGet cs' i = VectorArrayGet samples j.
Proof.
  revert i0 cs lb weight w.
  induction m as [|m IH]; intros i0 cs lb weight w Hnc Hsamples Hroom Hseeded;
    cbn [seq InitCenters_loop].
  - intros [= <- <- <-] i Hi. apply Hseeded. lia.
  - destruct (CHECK_FOR_INTERRUPTS w) as [w1|e]; cbn [bind]; [|discriminate].
    destruct (fold_left _ _ _) as [[lb1 weight1] sum].
    destruct (i0 + 1 =? numCenters) eqn:Hlast.
    + apply Nat.eqb_eq in Hlast. intros [= <- <- <-] i Hi. apply Hseeded. lia.
    + apply Nat.eqb_neq in Hlast.
      destruct (RandomDouble w1) as [r w2].
      set (j := choose_sample weight1 0 (numSamples - 1) (fmul sum r)).
      assert (j < numSamples) as Hj
        by (pose proof (choose_sample_le weight1 0 (numSamples - 1) (fmul sum r)); lia).
      intros Hloop i Hi.
      eapply (IH (S i0)); [lia|exact Hsamples| | |exact Hloop|lia].
      * simpl. rewrite length_insert. exact Hroom.
      * intros i' Hi'. destruct (decide (i' = i0 + 1)) as [->|Hne].
        -- exists j. split; [exact Hj|]. unfold VectorArrayGet. simpl.
           apply list_lookup_total_insert_eq. lia.
        -- rewrite VectorArrayGet_Set_ne by exact Hne. apply Hseeded. lia.
Qed.

(** X1.  [InitCenters] fills the centers array with samples: given at
   least one sample and a buffer of [maxlen >= 1] slots, when it returns
   it has added exactly [maxlen] to [centers->length], has left [maxlen]
   and [dim] as they were, and every one of the first [maxlen] centers
   is a copy of one of the samples (the first by [RandomInt() %
   numSamples], the others by the weighted choice, which never leaves
   the sample array). *)
Theorem InitCenters_seeds index (samples cs : VectorArray) (lb : list num) (w : world)
    cs' lb' w' :
  0 < va_length samples ->
  0 < va_maxlen cs ->
  va_maxlen cs <= length (va_items cs) ->
  InitCenters index samples cs lb w = Ok (cs', lb', w') ->
  va_length cs' = va_length cs + va_maxlen cs /\
  va_maxlen cs' = va_maxlen cs /\
  va_dim cs' = va_dim cs /\
  forall i, i < va_maxlen cs ->
    exists j, j < va_length samples /\ VectorArrayGet cs' i = VectorArrayGet samples j.
Proof.
  intros Hsamples Hpos Hroom. unfold InitCenters.
  destruct (RandomInt w) as [r w1].
  set (cs1 := incr_length (VectorArraySet cs 0 _)).
  set (weight := replicate _ _).
  intros Hloop.
  pose proof (InitCenters_loop_world index samples (va_maxlen cs) (va_length samples)
                (va_maxlen cs) 0 cs1 lb weight w1 eq_refl) as Hworld.
  rewrite Hloop in Hworld. destruct Hworld as (_ & _ & _ & Hlen & Hmax & Hdim).
  simpl in Hlen, Hmax, Hdim.
  split; [lia|]. split; [exact Hmax|]. split; [exact Hdim|].
  intros i Hi.
  eapply (InitCenters_loop_seeds index samples (va_maxlen cs) (va_length samples)
            (va_maxlen cs) 0 cs1); [reflexivity|exact Hsamples| | |exact Hloop|lia].
  - unfold cs1. simpl. rewrite length_insert. exact Hroom.
  - intros i' Hi'. assert (i' = 0) as -> by lia.
    exists (r mod va_length samples). split; [apply Nat.mod_upper_bound; lia|].
    unfold cs1, VectorArrayGet. simpl. apply list_lookup_total_insert_eq. lia.
Qed.

(** [InitCenters] passes one interrupt check per center. *)
Lemma InitCenters_checks index (samples cs : VectorArray) (lb : list num) (w : world) :
  match InitCenters index samples cs lb w with
  | Ok (cs', lb', w') => checks w' = checks w + va_maxlen cs
  | Err e => e = Cancelled /\ exists i, interrupt_pending (checks w + i) = true
  end.
Proof.
  unfold InitCenters. unfold RandomInt.
  match goal with |- context [InitCenters_loop _ _ _ _ _ ?c ?l ?wt ?w1] =>
    pose proof (InitCenters_loop_world index samples (va_maxlen cs) (va_length samples)
                  (va_maxlen cs) 0 c l wt w1 eq_refl) as Hworld
  end.
  destruct (InitCenters_loop _ _ _ _ _ _ _ _ _) as [[[cs' lb'] w']|e].
  - cbn [checks] in Hworld. destruct Hworld as (_ & Hchecks & _). exact Hchecks.
  - cbn [checks] in Hworld. destruct Hworld as (-> & i & _ & Hi). eauto.
Qed.

(** X2.  [InitCenters] makes one interrupt check per center and nothing
   else can stop it: it is cancelled exactly when one of the [maxlen]
   checks it makes finds a pending interrupt, and when it returns it has
   passed [maxlen] checks and has drawn one [RandomInt] and
   [maxlen - 1] times [RandomDouble] (none for the last center). *)
Theorem InitCenters_world index (samples cs : VectorArray) (lb : list num) (w : world) :
  match InitCenters index samples cs lb w with
  | Ok (cs', lb', w') =>
      (forall i, i < va_maxlen cs -> interrupt_pending (checks w + i) = false) /\
      checks w' = checks w + va_maxlen cs /\
      rng w' = S (rng w) + (va_maxlen cs - 1)
  | Err e =>
      e = Cancelled /\
      exists i, i < va_maxlen cs /\ interrupt_pending (checks w + i) = true
  end.
Proof.
  unfold InitCenters. unfold RandomInt.
  match goal with |- context [InitCenters_loop _ _ _ _ _ ?c ?l ?wt ?w1] =>
    pose proof (InitCenters_loop_world index samples (va_maxlen cs) (va_length samples)
                  (va_maxlen cs) 0 c l wt w1 eq_refl) as Hworld
  end.
  destruct (InitCenters_loop _ _ _ _ _ _ _ _ _) as [[[cs' lb'] w']|e].
  - cbn [checks rng] in Hworld. destruct Hworld as (Hnone & Hchecks & Hrng & _).
    repeat split; assumption.
  - exact Hworld.
Qed.

(** *** The shape of the centers array through ElkanKmeans *)

Lemma elkan_pass_centers index samples iteration st :
  let cs' := centers (elkan_pass index samples iteration st).1 in
  va_length cs' = va_length (centers st) /\
  va_maxlen cs' = va_maxlen (centers st) /\
  va_dim cs' = va_dim (centers st).
Proof.
  unfold elkan_pass, assign_phase, update_phase. cbn [centers fst closestCenters wld].
  destruct (new_centers _ _ _ _ _ _ _) as [newCenters w1]. cbn [centers fst].
  unfold commit_centers.
  destruct (commit_centers_fields (seq 0 (va_maxlen (centers st))) newCenters (centers st))
    as (Hm & Hl & Hd & _).
  repeat split; assumption.
Qed.

Lemma elkan_loop_centers index samples (n iteration : nat) (st st' : elkan_state) trace :
  elkan_loop index samples n iteration st = Ok (st', trace) ->
  va_length (centers st') = va_length (centers st) /\
  va_maxlen (centers st') = va_maxlen (centers st) /\
  va_dim (centers st') = va_dim (centers st).
Proof.
  revert iteration st st' trace.
  induction n as [|n IH]; intros iteration st st' trace; cbn [elkan_loop].
  - intros [= <- <-]. repeat split.
  - destruct (CHECK_FOR_INTERRUPTS (wld st)) as [w1|e]; cbn [bind]; [|discriminate].
    pose proof (elkan_pass_centers index samples iteration (with_world st w1)) as Hpass.
    destruct (elkan_pass _ _ _ _) as [st1 changes]. cbn [fst with_world centers] in Hpass.
    destruct (_ && _).
    + intros [= <- <-]. exact Hpass.
    + specialize (IH (S iteration) st1).
      destruct (elkan_loop index samples n (S iteration) st1) as [[st2 tr]|e];
        cbn [bind]; [|discriminate].
      intros [= <- <-]. destruct (IH st2 tr eq_refl) as (Hl & Hm & Hd).
      destruct Hpass as (Hl' & Hm' & Hd'). repeat split; congruence.
Qed.

Lemma elkan_loop_quiet index samples (n iteration : nat) (st : elkan_state) :
  (forall k, interrupt_pending k = false) ->
  exists st' trace, elkan_loop index samples n iteration st = Ok (st', trace).
Proof.
  intros Hquiet.
  destruct (elkan_loop index samples n iteration st) as [[st' trace]|e] eqn:Hloop; [eauto|].
  apply elkan_loop_Err in Hloop as (_ & k & Hk). rewrite Hquiet in Hk. discriminate.
Qed.

Lemma new_centers_checks index samples numSamples numCenters dimensions closest w :
  checks (new_centers index samples numSamples numCenters dimensions closest w).2 = checks w.
Proof.
  unfold new_centers. destruct (sum_samples _ _ _ _ _) as [sums counts].
  apply (fold_left_preserves (fun acc : list (list num) * world => checks acc.2 = checks w));
    [|reflexivity].
  intros [ncs w0] j _ Hw0. cbn [snd] in Hw0. unfold finish_center.
  destruct (0 <? counts !!! j)%Z; [exact Hw0|].
  destruct (random_vector_draws dimensions w0) as (draws & -> & _). cbn [snd checks].
  exact Hw0.
Qed.

Lemma elkan_pass_checks index samples iteration st :
  checks (wld (elkan_pass index samples iteration st).1) = checks (wld st).
Proof.
  unfold elkan_pass, assign_phase, update_phase. cbn [centers fst closestCenters wld].
  pose proof (new_centers_checks index samples (va_length samples) (va_maxlen (centers st))
                (va_dim (centers st))
                (a_closest
                   (assign_points index samples (centers st) (va_length samples)
                      (va_maxlen (centers st))
                      (step1 index (centers st) (va_maxlen (centers st)) (halfcdist st))
                      (compute_s (va_maxlen (centers st))
                         (step1 index (centers st) (va_maxlen (centers st)) (halfcdist st))
                         (s st))
                      (negb (iteration =? 0))
                      (mkAssign (lowerBound st) (upperBound st) (closestCenters st) 0)))
                (wld st)) as H.
  destruct (new_centers _ _ _ _ _ _ _) as [newCenters w1]. exact H.
Qed.

(** The loop makes one interrupt check per pass. *)
Lemma elkan_loop_worlds index samples (n iteration : nat) (st : elkan_state) :
  match elkan_loop index samples n iteration st with
  | Ok (st', trace) =>
      checks (wld st') = checks (wld st) + length trace /\
      (forall i, i < length trace -> interrupt_pending (checks (wld st) + i) = false)
  | Err e =>
      e = Cancelled /\ exists i, interrupt_pending (checks (wld st) + i) = true
  end.
Proof.
  revert iteration st.
  induction n as [|n IH]; intros iteration st; cbn [elkan_loop].
  - split; [simpl; lia|]. intros i Hi. simpl in Hi. lia.
  - unfold CHECK_FOR_INTERRUPTS.
    destruct (interrupt_pending (checks (wld st))) eqn:Hp; cbn [bind].
    { split; [reflexivity|]. exists 0. rewrite Nat.add_0_r. exact Hp. }
    pose proof (elkan_pass_checks index samples iteration
                  (with_world st (mkWorld (rng (wld st)) (S (checks (wld st)))))) as Hpass.
    destruct (elkan_pass _ _ _ _) as [st1 changes]. cbn [fst with_world wld checks] in Hpass.
    destruct (_ && _).
    + cbn [length]. split; [lia|]. intros i Hi. assert (i = 0) as -> by lia.
      rewrite Nat.add_0_r. exact Hp.
    + specialize (IH (S iteration) st1). rewrite Hpass in IH.
      destruct (elkan_loop index samples n (S iteration) st1) as [[st2 tr]|e]; cbn [bind].
      * destruct IH as (Hchecks & Hnone). cbn [length]. split; [lia|].
        intros [|i] Hi; [rewrite Nat.add_0_r; exact Hp|].
        replace (checks (wld st) + S i) with (S (checks (wld st)) + i) by lia.
        apply Hnone. lia.
      * destruct IH as (-> & i & Hi). split; [reflexivity|]. exists (S i).
        replace (checks (wld st) + S i) with (S (checks (wld st)) + i) by lia. exact Hi.
Qed.

(** *** How ElkanKmeans ends *)

(** [ElkanKmeans] fails for the memory budget or by cancellation. *)
Lemma ElkanKmeans_Err index (samples cs : VectorArray) (type : IvfflatType) (w : world)
    (e : error) :
  ElkanKmeans index samples cs type w = Err e ->
  (exists required_mb budget_mb, e = BudgetExceeded required_mb budget_mb) \/ e = Cancelled.
Proof.
  unfold ElkanKmeans, elkan_setup.
  destruct (_ >? _)%Z; cbn [bind]; [intros [= <-]; left; eauto|].
  rewrite indexing_overflows_never.
  destruct (InitCenters _ _ _ _ _) as [[[cs1 lb1] w1]|e1] eqn:Hinit; cbn [bind].
  - destruct (initial_assignment _ _ _ _ _) as [ub cc]. cbn [bind].
    destruct (elkan_loop _ _ _ _ _) as [[st1 tr]|e1] eqn:Hloop; cbn [bind]; [discriminate|].
    intros [= <-]. right. apply elkan_loop_Err in Hloop as [-> _]. reflexivity.
  - intros [= <-]. right. apply InitCenters_Err in Hinit as [-> _]. reflexivity.
Qed.

(** X3.  The failures of [ElkanKmeans].  It raises the memory error
   exactly when the estimated total exceeds [maintenance_work_mem]
   kilobytes, before anything else is done, reporting the estimate in
   megabytes rounded up and the budget in megabytes; otherwise the only
   way it can fail is the cancellation of a pending interrupt.  No other
   error of the file comes out of it. *)
Theorem ElkanKmeans_errors index (samples cs : VectorArray) (type : IvfflatType)
    (w : world) :
  let over := (totalSize samples cs > wrapSize (maintenance_work_mem * 1024))%Z in
  match ElkanKmeans index samples cs type w with
  | Ok _ => ~ over
  | Err (BudgetExceeded required_mb budget_mb) =>
      over /\
      required_mb = (totalSize samples cs / (1024 * 1024) + 1)%Z /\
      budget_mb = Z.quot maintenance_work_mem 1024
  | Err Cancelled =>
      ~ over /\
      exists i, interrupt_pending (checks w + i) = true
  | Err _ => False
  end.
Proof.
  intros over. unfold over, ElkanKmeans, elkan_setup.
  destruct (_ >? _)%Z eqn:Hover; cbn [bind].
  { split; [apply Z.gtb_gt, Hover|]. split; reflexivity. }
  assert (~ (totalSize samples cs > wrapSize (maintenance_work_mem * 1024))%Z) as Hfits.
  { intros H. apply Z.gtb_gt in H. congruence. }
  rewrite indexing_overflows_never.
  pose proof (InitCenters_checks index samples cs
                (replicate (va_length samples * va_maxlen cs) zero) w) as Hinit.
  destruct (InitCenters _ _ _ _ _) as [[[cs1 lb1] w1]|e]; cbn [bind].
  - rename Hinit into Hchecks.
    destruct (initial_assignment _ _ _ _ _) as [ub cc]. cbn [bind].
    match goal with |- context [elkan_loop _ _ _ _ ?st] =>
      pose proof (elkan_loop_worlds index samples 500 0 st) as Hloop
    end.
    destruct (elkan_loop _ _ _ _ _) as [[st1 tr]|e]; cbn [bind]; [exact Hfits|].
    cbn [wld] in Hloop. destruct Hloop as (-> & i & Hi).
    split; [exact Hfits|]. exists (va_maxlen cs + i).
    rewrite Nat.add_assoc, <- Hchecks. exact Hi.
  - destruct Hinit as (-> & i & Hi). split; [exact Hfits|]. eauto.
Qed.

Lemma InitCenters_shape index (samples cs : VectorArray) (lb : list num) (w : world)
    cs' lb' w' :
  InitCenters index samples cs lb w = Ok (cs', lb', w') ->
  va_length cs' = S (va_length cs) + (va_maxlen cs - 1) /\
  va_maxlen cs' = va_maxlen cs /\
  va_dim cs' = va_dim cs.
Proof.
  unfold InitCenters. destruct (RandomInt w) as [r w1]. intros Hloop.
  match type of Hloop with InitCenters_loop _ _ _ _ _ ?c ?l ?wt _ = _ =>
    pose proof (InitCenters_loop_world index samples (va_maxlen cs) (va_length samples)
                  (va_maxlen cs) 0 c l wt w1 eq_refl) as Hworld
  end.
  rewrite Hloop in Hworld. destruct Hworld as (_ & _ & _ & Hlen & Hmax & Hdim).
  simpl in Hlen, Hmax, Hdim. repeat split; assumption.
Qed.

(** X4.  [ElkanKmeans] returns on an input that is in range, when the
   estimate fits the memory budget and no interrupt is pending,
   whatever the distance function is.  In range means: there is a
   sample, the two buffers hold the items they announce, every sample
   has the dimension of the centers, [numCenters * numCenters] fits an
   [int] (the index into [halfcdist] does not wrap) and so does
   [numSamples * numCenters] (the counter [changes]).  The centers
   array then has [maxlen] more centers in use than on entry, with
   [maxlen] and [dim] unchanged. *)
Theorem ElkanKmeans_returns index (samples cs : VectorArray) (type : IvfflatType)
    (w : world) :
  (totalSize samples cs <= wrapSize (maintenance_work_mem * 1024))%Z ->
  (forall i, interrupt_pending (checks w + i) = false) ->
  0 < va_length samples <= length (va_items samples) ->
  0 < va_maxlen cs <= length (va_items cs) ->
  Forall (fun v => length v = va_dim cs) (take (va_length samples) (va_items samples)) ->
  (Z.of_nat (va_maxlen cs) * Z.of_nat (va_maxlen cs) <= INT_MAX)%Z ->
  (Z.of_nat (va_length samples) * Z.of_nat (va_maxlen cs) <= INT_MAX)%Z ->
  exists cs' w',
    ElkanKmeans index samples cs type w = Ok (cs', w') /\
    va_length cs' = va_length cs + va_maxlen cs /\
    va_maxlen cs' = va_maxlen cs /\
    va_dim cs' = va_dim cs.
Proof.
  intros Hfits Hquiet _ [Hpos _] _ _ _. unfold ElkanKmeans, elkan_setup.
  assert ((totalSize samples cs >? wrapSize (maintenance_work_mem * 1024))%Z = false) as ->
    by (rewrite Z.gtb_ltb; apply Z.ltb_ge; exact Hfits).
  rewrite indexing_overflows_never.
  pose proof (InitCenters_checks index samples cs
                (replicate (va_length samples * va_maxlen cs) zero) w) as Hinit.
  destruct (InitCenters _ _ _ _ _) as [[[cs1 lb1] w1]|e] eqn:Hseed; cbn [bind].
  2:{ destruct Hinit as (_ & i & Hi). rewrite Hquiet in Hi. discriminate. }
  rename Hinit into Hchecks.
  apply InitCenters_shape in Hseed as (Hlen & Hmax & Hdim).
  destruct (initial_assignment _ _ _ _ _) as [ub cc]. cbn [bind].
  match goal with |- context [elkan_loop _ _ _ _ ?st] =>
    pose proof (elkan_loop_worlds index samples 500 0 st) as Hloop;
    pose proof (elkan_loop_centers index samples 500 0 st) as Hshape
  end.
  destruct (elkan_loop _ _ _ _ _) as [[st1 tr]|e]; cbn [bind].
  - destruct (Hshape st1 tr eq_refl) as (Hl & Hm & Hd). cbn [centers] in Hl, Hm, Hd.
    exists (centers st1), (wld st1). split; [reflexivity|].
    repeat split; lia.
  - cbn [wld] in Hloop. destruct Hloop as (_ & i & Hi).
    rewrite Hchecks, <- Nat.add_assoc, Hquiet in Hi. discriminate.
Qed.

(** *** The passes of the outer loop *)




(** *** QuickCenters, whatever the element type *)

Lemma copy_if_new_shape (samples c : VectorArray) (j : nat) :
  va_length c <= va_length (copy_if_new samples c j) <= S (va_length c) /\
  va_maxlen (copy_if_new samples c j) = va_maxlen c /\
  va_dim (copy_if_new samples c j) = va_dim c.
Proof. unfold copy_if_new. destruct (_ || _); simpl; repeat split; lia. Qed.

Lemma copy_distinct_shape (samples cs : VectorArray) :
  va_length cs <= va_length (copy_distinct samples cs) <= va_length cs + va_length samples /\
  va_maxlen (copy_distinct samples cs) = va_maxlen cs /\
  va_dim (copy_distinct samples cs) = va_dim cs.
Proof.
  unfold copy_distinct.
  assert (forall js c,
            va_length c <= va_length (fold_left (copy_if_new samples) js c)
              <= va_length c + length js /\
            va_maxlen (fold_left (copy_if_new samples) js c) = va_maxlen c /\
            va_dim (fold_left (copy_if_new samples) js c) = va_dim c) as Hgen.
  { induction js as [|j js IH]; intros c; cbn [fold_left length].
    { split; [lia|]. split; reflexivity. }
    destruct (IH (copy_if_new samples c j)) as (Hlen & Hmax & Hdim).
    destruct (copy_if_new_shape samples c j) as (Hlen1 & Hmax1 & Hdim1).
    split; [lia|]. split; congruence. }
  specialize (Hgen (seq 0 (va_length samples)) cs). rewrite length_seq in Hgen. exact Hgen.
Qed.

Lemma fill_random_shape (n : nat) index type (cs : VectorArray) (w : world) :
  match fill_random n index type cs w with
  | Ok (cs', w') =>
      checks w' = checks w /\
      va_maxlen cs' = va_maxlen cs /\
      va_dim cs' = va_dim cs /\
      va_length cs <= va_length cs' /\
      (va_length cs + n = va_maxlen cs -> va_length cs' = va_maxlen cs) /\
      (va_maxlen cs <= va_length cs -> cs' = cs /\ w' = w) /\
      (type = IVFFLAT_TYPE_VECTOR \/ n = 0 \/ va_maxlen cs <= va_length cs)
  | Err e =>
      e = UnsupportedType /\ type = IVFFLAT_TYPE_OTHER /\ va_length cs < va_maxlen cs
  end.
Proof.
  revert cs w. induction n as [|n IH]; intros cs w; cbn [fill_random].
  - repeat split; try lia; auto.
  - destruct (va_length cs <? va_maxlen cs) eqn:Hlt.
    2:{ apply Nat.ltb_ge in Hlt. repeat split; try lia; auto. }
    apply Nat.ltb_lt in Hlt. destruct type; [|repeat split; exact Hlt].
    destruct (random_vector_draws (va_dim cs) w) as (draws & -> & _).
    match goal with |- context [fill_random n _ _ ?c ?w1] =>
      specialize (IH c w1)
    end.
    destruct (fill_random n _ _ _ _) as [[cs' w']|e].
    + simpl in IH. destruct IH as (Hchecks & Hmax & Hdim & Hlen & Hfull & _ & _).
      repeat split; try lia; auto.
    + destruct IH as (_ & Hother & _). discriminate.
Qed.

(** On the quick path, from an empty centers array, [QuickCenters]
   fills the array or refuses the type. *)
Lemma QuickCenters_fills index (samples cs : VectorArray) (type : IvfflatType)
    (w : world) :
  va_length cs = 0 ->
  0 < va_maxlen cs ->
  va_length samples <= va_maxlen cs ->
  match QuickCenters index samples cs type w with
  | Ok (samples', cs', w') =>
      type = IVFFLAT_TYPE_VECTOR /\
      va_length cs' = va_maxlen cs /\
      va_maxlen cs' = va_maxlen cs /\
      va_dim cs' = va_dim cs
  | Err e => e = UnsupportedType /\ type = IVFFLAT_TYPE_OTHER
  end.
Proof.
  intros Hempty Hpos Hfit. unfold QuickCenters.
  destruct (0 <? va_length samples) eqn:Hsome.
  - destruct type; cbn [bind]; [|split; reflexivity].
    destruct (copy_distinct_shape (qsort_array samples) cs) as (Hlen1 & Hmax1 & Hdim1).
    set (cs1 := copy_distinct (qsort_array samples) cs) in *. simpl in Hlen1.
    pose proof (fill_random_shape (va_maxlen cs1 - va_length cs1) index IVFFLAT_TYPE_VECTOR
                  cs1 w) as Hfill.
    destruct (fill_random _ _ _ _ _) as [[cs2 w2]|e]; cbn [bind].
    + destruct Hfill as (_ & Hmax & Hdim & _ & Hfull & _ & _).
      split; [reflexivity|]. split; [rewrite Hfull by lia; exact Hmax1|].
      split; congruence.
    + destruct Hfill as (_ & Hother & _). discriminate.
  - cbn [bind].
    pose proof (fill_random_shape (va_maxlen cs - va_length cs) index type cs w) as Hfill.
    destruct (fill_random _ _ _ _ _) as [[cs2 w2]|e]; cbn [bind].
    + destruct Hfill as (_ & Hmax & Hdim & _ & Hfull & _ & Hcase).
      assert (type = IVFFLAT_TYPE_VECTOR) as Hv
        by (destruct Hcase as [Hv|[Hn|Hge]]; [exact Hv|lia|lia]).
      split; [exact Hv|]. split; [apply Hfull; lia|]. split; assumption.
    + destruct Hfill as (-> & -> & _). split; reflexivity.
Qed.

(** X5.  The two ways [QuickCenters] can end.  It makes no interrupt
   check.  It fails only with "Unsupported type", and does so exactly
   when the type is not the vector type and there is a sample to copy or
   a slot to fill; with another type, no sample and a full centers array
   it returns with everything untouched.  When it returns, [maxlen] and
   [dim] are unchanged, and if the samples fit into the free slots the
   centers array is full. *)
Theorem QuickCenters_outcome index (samples cs : VectorArray) (type : IvfflatType)
    (w : world) :
  match QuickCenters index samples cs type w with
  | Ok (samples', cs', w') =>
      checks w' = checks w /\
      va_maxlen cs' = va_maxlen cs /\
      va_dim cs' = va_dim cs /\
      (va_length cs + va_length samples <= va_maxlen cs -> va_length cs' = va_maxlen cs) /\
      (type = IVFFLAT_TYPE_VECTOR \/
       (va_length samples = 0 /\ va_maxlen cs <= va_length cs /\
        samples' = samples /\ cs' = cs /\ w' = w))
  | Err e =>
      e = UnsupportedType /\ type = IVFFLAT_TYPE_OTHER /\
      (0 < va_length samples \/ va_length cs < va_maxlen cs)
  end.
Proof.
  unfold QuickCenters.
  destruct (0 <? va_length samples) eqn:Hsome.
  - apply Nat.ltb_lt in Hsome.
    destruct type; cbn [bind]; [|split; [reflexivity|split; [reflexivity|left; exact Hsome]]].
    pose proof (copy_distinct_shape (qsort_array samples) cs) as Hcopy.
    set (cs1 := copy_distinct (qsort_array samples) cs) in *.
    destruct Hcopy as (Hlen1 & Hmax1 & Hdim1). simpl in Hlen1.
    pose proof (fill_random_shape (va_maxlen cs1 - va_length cs1) index IVFFLAT_TYPE_VECTOR
                  cs1 w) as Hfill.
    destruct (fill_random _ _ _ _ _) as [[cs2 w2]|e]; cbn [bind].
    + destruct Hfill as (Hchecks & Hmax & Hdim & Hlen & Hfull & _ & _).
      split; [exact Hchecks|]. split; [congruence|]. split; [congruence|].
      split; [|left; reflexivity].
      intros Hfit. rewrite Hfull by lia. exact Hmax1.
    + destruct Hfill as (_ & Hother & _). discriminate.
  - apply Nat.ltb_ge in Hsome. cbn [bind].
    pose proof (fill_random_shape (va_maxlen cs - va_length cs) index type cs w) as Hfill.
    destruct (fill_random _ _ _ _ _) as [[cs2 w2]|e]; cbn [bind].
    + destruct Hfill as (Hchecks & Hmax & Hdim & Hlen & Hfull & Hsame & Hcase).
      split; [exact Hchecks|]. split; [exact Hmax|]. split; [exact Hdim|].
      split; [intros Hfit; apply Hfull; lia|].
      destruct Hcase as [Hv|Hdone]; [left; exact Hv|].
      right. destruct Hsame as [-> ->]; [lia|].
      repeat split; lia.
    + destruct Hfill as (-> & -> & Hlt). repeat split. right. exact Hlt.
Qed.

(** *** CheckCenters: which error, and what holds on return *)

Lemma check_coordinates_find (vec : list num) :
  check_coordinates vec
  = match List.find nonfinite vec with
    | Some x => Err (if fisnan x then NaNDetected else InfiniteDetected)
    | None => Ok tt
    end.
Proof.
  induction vec as [|x rest IH]; simpl; [reflexivity|]. unfold nonfinite at 1.
  destruct (fisnan x) eqn:Hnan; simpl.
  - rewrite Hnan. reflexivity.
  - destruct (fisinf x); simpl; [rewrite Hnan; reflexivity|exact IH].
Qed.

Lemma find_append {A} (f : A -> bool) (l1 l2 : list A) :
  List.find f (l1 ++ l2)
  = match List.find f l1 with Some x => Some x | None => List.find f l2 end.
Proof.
  induction l1 as [|a l1 IH]; simpl; [reflexivity|]. destruct (f a); [reflexivity|exact IH].
Qed.

Lemma check_values_find (vecs : list (list num)) :
  check_values vecs
  = match first_nonfinite vecs with
    | Some x => Err (if fisnan x then NaNDetected else InfiniteDetected)
    | None => Ok tt
    end.
Proof.
  unfold first_nonfinite.
  induction vecs as [|v rest IH]; simpl; [reflexivity|].
  rewrite find_append, check_coordinates_find.
  destruct (List.find nonfinite v); [reflexivity|]. exact IH.
Qed.

Ltac settle_which :=
  repeat match goal with
  | |- _ /\ _ => split
  | |- _ <-> _ => split; intros ?
  end;
  repeat match goal with
  | H : _ /\ _ |- _ => destruct H
  | H : exists _, _ |- _ => destruct H
  end;
  try discriminate; try congruence; try tauto; eauto 10.

(** X6.  Which error [CheckCenters] raises.  The checks are made in the
   order of the code: the count of the centers first; then the
   coordinates, where the first coordinate in scan order that is NaN or
   infinite decides between "NaN detected" and "Infinite value
   detected"; then the element type; then the duplicates among the
   sorted centers; last the zero norms. *)
Theorem CheckCenters_which_error (index : Relation) (cs : VectorArray)
    (type : IvfflatType) :
  let full := va_length cs = va_maxlen cs in
  let clean := first_nonfinite (va_elems cs) = None in
  let sorted := va_elems (qsort_array cs) in
  (CheckCenters index cs type = Err NotEnoughCenters <-> ~ full) /\
  (CheckCenters index cs type = Err NaNDetected <->
     full /\ exists x, first_nonfinite (va_elems cs) = Some x /\ fisnan x = true) /\
  (CheckCenters index cs type = Err InfiniteDetected <->
     full /\ exists x, first_nonfinite (va_elems cs) = Some x /\ fisnan x = false) /\
  (CheckCenters index cs type = Err UnsupportedType <->
     full /\ clean /\ type = IVFFLAT_TYPE_OTHER) /\
  (CheckCenters index cs type = Err DuplicateCenters <->
     full /\ clean /\ type = IVFFLAT_TYPE_VECTOR /\ adjacent_equal sorted) /\
  (CheckCenters index cs type = Err ZeroNormDetected <->
     full /\ clean /\ type = IVFFLAT_TYPE_VECTOR /\ ~ adjacent_equal sorted /\
     exists normproc, NORM_PROC index = Some normproc /\
       Exists (fun v => feq (normproc v) zero = true) sorted).
Proof.
  intros full clean sorted. unfold full, clean, sorted, CheckCenters.
  rewrite check_values_find.
  destruct (va_length cs =? va_maxlen cs) eqn:Hlen; cbn [negb].
  2:{ apply Nat.eqb_neq in Hlen. settle_which. }
  apply Nat.eqb_eq in Hlen.
  destruct (first_nonfinite (va_elems cs)) as [x|] eqn:Hfirst; cbn [bind].
  { destruct (fisnan x) eqn:Hnan; settle_which. }
  destruct type; [|settle_which].
  pose proof (has_adjacent_duplicate_spec (va_elems (qsort_array cs))) as Hd.
  destruct (has_adjacent_duplicate (va_elems (qsort_array cs))).
  { assert (adjacent_equal (va_elems (qsort_array cs))) as Hadj by (apply Hd; reflexivity).
    settle_which. }
  assert (~ adjacent_equal (va_elems (qsort_array cs))) as Hnodup.
  { intros H. apply Hd in H. discriminate. }
  destruct (NORM_PROC index) as [normproc|]; [|settle_which].
  pose proof (has_zero_norm_spec normproc (va_elems (qsort_array cs))) as Hz.
  destruct (has_zero_norm normproc (va_elems (qsort_array cs))).
  - assert (Exists (fun v => feq (normproc v) zero = true) (va_elems (qsort_array cs)))
      as Hzero by (apply Hz; reflexivity).
    settle_which.
  - settle_which.
    match goal with H : Some _ = Some _ |- _ => injection H as <- end.
    match goal with H : Exists _ _ |- _ => apply Hz in H; discriminate H end.
Qed.

(** What an index loop over the used part reads: the items of the
   buffer, and the default past its end. *)
Lemma va_elems_items (arr : VectorArray) :
  va_elems arr
  = take (va_length arr) (va_items arr)
    ++ replicate (va_length arr - length (va_items arr)) [].
Proof.
  unfold va_elems, VectorArrayGet. rewrite map_fmap.
  apply list_eq. intros i.
  rewrite list_lookup_fmap.
  destruct (decide (i < va_length arr)) as [Hi|Hi].
  - rewrite lookup_seq_lt by exact Hi. simpl.
    destruct (decide (i < length (va_items arr))) as [Hb|Hb].
    + rewrite lookup_app_l by (rewrite length_take; lia).
      rewrite lookup_take_lt by exact Hi.
      symmetry. apply list_lookup_lookup_total_lt. exact Hb.
    + rewrite lookup_app_r by (rewrite length_take; lia).
      rewrite list_lookup_total_alt.
      rewrite (lookup_ge_None_2 (va_items arr) i) by lia. simpl.
      symmetry. apply lookup_replicate_2. rewrite length_take. lia.
  - rewrite lookup_seq_ge by lia. simpl. symmetry. apply lookup_ge_None_2.
    rewrite length_app, length_take, length_replicate. lia.
Qed.

Lemma qsort_array_elems {QS : QsortSpec} (arr : VectorArray) :
  Permutation (va_elems (qsort_array arr)) (va_elems arr).
Proof.
  rewrite !va_elems_items. rewrite qsort_array_used_prefix.
  assert (length (va_items (qsort_array arr)) = length (va_items arr)) as ->
    by (apply Permutation_length, qsort_array_Permutation).
  change (va_length (qsort_array arr)) with (va_length arr).
  rewrite qsort_Permutation. reflexivity.
Qed.

Lemma check_coordinates_clean (vec : list num) (u : unit) :
  check_coordinates vec = Ok u -> Forall (fun x => nonfinite x = false) vec.
Proof.
  induction vec as [|x rest IH]; simpl; [constructor|].
  destruct (fisnan x) eqn:Hnan; [discriminate|].
  destruct (fisinf x) eqn:Hinf; [discriminate|].
  intros H. constructor; [unfold nonfinite; rewrite Hnan, Hinf; reflexivity|apply IH, H].
Qed.

Lemma check_values_clean (vecs : list (list num)) (u : unit) :
  check_values vecs = Ok u -> Forall (Forall (fun x => nonfinite x = false)) vecs.
Proof.
  induction vecs as [|v rest IH]; simpl; [constructor|].
  destruct (check_coordinates v) as [u'|e] eqn:Hv; cbn [bind]; [|discriminate].
  intros H. constructor; [eapply check_coordinates_clean, Hv|apply IH, H].
Qed.

(** X7.  What a caller can rely on when [CheckCenters] returns: the
   type is the vector type, the array is full, its centers are those it
   was given, in another order; no coordinate is NaN or infinite; no two
   neighbours are byte-equal; and when the index has a norm function no
   center has norm zero. *)
Theorem CheckCenters_postcondition {QS : QsortSpec} (index : Relation)
    (cs cs' : VectorArray) (type : IvfflatType) :
  CheckCenters index cs type = Ok cs' ->
  type = IVFFLAT_TYPE_VECTOR /\
  va_length cs' = va_maxlen cs' /\
  va_length cs' = va_length cs /\
  va_maxlen cs' = va_maxlen cs /\
  va_dim cs' = va_dim cs /\
  Permutation (va_elems cs') (va_elems cs) /\
  Forall (Forall (fun x => nonfinite x = false)) (va_elems cs') /\
  ~ adjacent_equal (va_elems cs') /\
  (forall normproc, NORM_PROC index = Some normproc ->
     Forall (fun v => feq (normproc v) zero = false) (va_elems cs')).
Proof.
  unfold CheckCenters.
  destruct (va_length cs =? va_maxlen cs) eqn:Hlen; cbn [negb]; [|discriminate].
  apply Nat.eqb_eq in Hlen.
  destruct (check_values (va_elems cs)) as [u|e] eqn:Hv; cbn [bind]; [|discriminate].
  apply check_values_clean in Hv.
  destruct type; [|discriminate].
  pose proof (has_adjacent_duplicate_spec (va_elems (qsort_array cs))) as Hd.
  destruct (has_adjacent_duplicate _); [discriminate|].
  assert (~ adjacent_equal (va_elems (qsort_array cs))) as Hnodup.
  { intros H. apply Hd in H. discriminate. }
  assert (Forall (Forall (fun x => nonfinite x = false)) (va_elems (qsort_array cs)))
    as Hclean by (rewrite qsort_array_elems; exact Hv).
  destruct (NORM_PROC index) as [normproc|].
  - pose proof (has_zero_norm_spec normproc (va_elems (qsort_array cs))) as Hz.
    destruct (has_zero_norm _ _) eqn:Hzero; [discriminate|].
    intros [= <-].
    split; [reflexivity|]. split; [exact Hlen|]. split; [reflexivity|].
    split; [reflexivity|]. split; [reflexivity|].
    split; [apply qsort_array_elems|]. split; [exact Hclean|]. split; [exact Hnodup|].
    intros np [= <-]. apply Forall_forall. intros v Hin.
    destruct (feq (normproc v) zero) eqn:Hfeq; [|reflexivity].
    assert (false = true) as Habs; [|discriminate Habs].
    apply Hz. apply List.Exists_exists. exists v. split; [|exact Hfeq].
    apply list_elem_of_In. exact Hin.
  - intros [= <-].
    split; [reflexivity|]. split; [exact Hlen|]. split; [reflexivity|].
    split; [reflexivity|]. split; [reflexivity|].
    split; [apply qsort_array_elems|]. split; [exact Hclean|]. split; [exact Hnodup|].
    intros np Hnp. discriminate.
Qed.

(** *** The outcomes of the driver *)

(** X8.  The outcomes of [IvfflatKmeans] when it is handed an empty
   centers array with [maxlen >= 1] slots.  The errors "Not enough
   centers" and "Indexing overflow" cannot occur: both paths fill the
   array up to [maxlen].  The memory error and the cancellation occur
   only on the Elkan path (more samples than centers);
   "Unsupported type" only for a type that is not the vector type;
   duplicate and zero-norm errors only for the vector type.  When the
   call returns the centers array is full, with [maxlen] and [dim]
   unchanged. *)
Theorem IvfflatKmeans_outcome (index : Relation) (samples cs : VectorArray)
    (type : IvfflatType) (w : world) :
  va_length cs = 0 ->
  0 < va_maxlen cs ->
  match IvfflatKmeans index samples cs type w with
  | Ok (samples', cs', w') =>
      type = IVFFLAT_TYPE_VECTOR /\
      va_length cs' = va_maxlen cs /\
      va_maxlen cs' = va_maxlen cs /\
      va_dim cs' = va_dim cs
  | Err NotEnoughCenters => False
  | Err IndexingOverflow => False
  | Err (BudgetExceeded _ _) => va_maxlen cs < va_length samples
  | Err Cancelled => va_maxlen cs < va_length samples
  | Err UnsupportedType => type = IVFFLAT_TYPE_OTHER
  | Err NaNDetected => type = IVFFLAT_TYPE_VECTOR \/ va_maxlen cs < va_length samples
  | Err InfiniteDetected => type = IVFFLAT_TYPE_VECTOR \/ va_maxlen cs < va_length samples
  | Err DuplicateCenters => type = IVFFLAT_TYPE_VECTOR
  | Err ZeroNormDetected => type = IVFFLAT_TYPE_VECTOR /\ NORM_PROC index <> None
  end.
Proof.
  intros Hempty Hpos. unfold IvfflatKmeans.
  assert (forall cs1 (samples1 : VectorArray) (w1 : world),
            va_length cs1 = va_maxlen cs -> va_maxlen cs1 = va_maxlen cs ->
            va_dim cs1 = va_dim cs ->
            forall (elkan : Prop), (type = IVFFLAT_TYPE_VECTOR \/ elkan) ->
            match (do cs2 <- CheckCenters index cs1 type ; Ok (samples1, cs2, w1)) with
            | Ok (samples', cs', w') =>
                type = IVFFLAT_TYPE_VECTOR /\ va_length cs' = va_maxlen cs /\
                va_maxlen cs' = va_maxlen cs /\ va_dim cs' = va_dim cs
            | Err NotEnoughCenters => False
            | Err IndexingOverflow => False
            | Err (BudgetExceeded _ _) => False
            | Err Cancelled => False
            | Err UnsupportedType => type = IVFFLAT_TYPE_OTHER
            | Err NaNDetected => type = IVFFLAT_TYPE_VECTOR \/ elkan
            | Err InfiniteDetected => type = IVFFLAT_TYPE_VECTOR \/ elkan
            | Err DuplicateCenters => type = IVFFLAT_TYPE_VECTOR
            | Err ZeroNormDetected => type = IVFFLAT_TYPE_VECTOR /\ NORM_PROC index <> None
            end) as Hcheck.
  { intros cs1 samples1 w1 Hlen Hmax Hdim elkan Hpath. unfold CheckCenters.
    assert ((va_length cs1 =? va_maxlen cs1) = true) as -> by (apply Nat.eqb_eq; congruence).
    cbn [negb]. rewrite check_values_find.
    destruct (first_nonfinite (va_elems cs1)) as [x|]; cbn [bind].
    { destruct (fisnan x); exact Hpath. }
    destruct type; [|reflexivity].
    destruct (has_adjacent_duplicate _); [reflexivity|].
    destruct (NORM_PROC index) as [normproc|].
    - destruct (has_zero_norm _ _); cbn [bind]; [split; [reflexivity|discriminate]|].
      repeat split; assumption.
    - cbn [bind]. repeat split; assumption. }
  destruct (va_length samples <=? va_maxlen cs) eqn:Hpath.
  - apply Nat.leb_le in Hpath.
    pose proof (QuickCenters_fills index samples cs type w Hempty Hpos Hpath) as Hquick.
    destruct (QuickCenters index samples cs type w) as [[[samples1 cs1] w1]|e]; cbn [bind].
    + destruct Hquick as (Hv & Hfull & Hmax & Hdim).
      specialize (Hcheck cs1 samples1 w1 Hfull Hmax Hdim False (or_introl Hv)).
      destruct (bind _ _) as [[[s' c'] w']|e]; [exact Hcheck|].
      destruct e; try exact Hcheck; try contradiction; tauto.
    + destruct Hquick as (-> & Hother). exact Hother.
  - apply Nat.leb_gt in Hpath.
    destruct (ElkanKmeans index samples cs type w) as [[cs1 w1]|e] eqn:Hrun; cbn [bind].
    + assert (va_length cs1 = va_maxlen cs /\ va_maxlen cs1 = va_maxlen cs /\
              va_dim cs1 = va_dim cs) as (Hlen & Hmax & Hdim).
      { revert Hrun. unfold ElkanKmeans, elkan_setup.
        destruct (_ >? _)%Z; [discriminate|].
        destruct (indexing_overflows _); [discriminate|].
        destruct (InitCenters _ _ _ _ _) as [[[cs0 lb0] w0]|e] eqn:Hseed; [|discriminate].
        cbn [bind]. apply InitCenters_shape in Hseed as (Hl0 & Hm0 & Hd0).
        destruct (initial_assignment _ _ _ _ _) as [ub cc]. cbn [bind].
        destruct (elkan_loop _ _ _ _ _) as [[st1 tr]|e] eqn:Hloop; [|discriminate].
        cbn [bind]. intros [= <- <-].
        apply elkan_loop_centers in Hloop as (Hl & Hm & Hd). cbn [centers] in Hl, Hm, Hd.
        repeat split; lia. }
      specialize (Hcheck cs1 samples w1 Hlen Hmax Hdim (va_maxlen cs < va_length samples)
                    (or_intror Hpath)).
      destruct (bind _ _) as [[[s' c'] w']|e]; [exact Hcheck|].
      destruct e; try exact Hcheck; try contradiction.
    + apply ElkanKmeans_Err in Hrun as [(a & b & ->)| ->]; exact Hpath.
Qed.

(** *** Array sizes and center indices, in any arithmetic *)

Lemma fold_insert_length {A I} (g : I -> nat) (f : I -> list A -> A) (xs : list I)
    (l : list A) :
  length (fold_left (fun l x => <[g x := f x l]> l) xs l) = length l.
Proof.
  revert l. induction xs as [|x xs IH]; intros l; cbn [fold_left]; [reflexivity|].
  rewrite IH. apply length_insert.
Qed.

Lemma step1_length index cs numCenters (h : list num) :
  length (step1 index cs numCenters h) = length h.
Proof.
  unfold step1.
  apply (fold_left_preserves (fun l => length l = length h)); [|reflexivity].
  intros l j _ Hl.
  apply (fold_left_preserves (fun l => length l = length h)); [|exact Hl].
  intros l' k _ Hl'. unfold step1_pair. rewrite !length_insert. exact Hl'.
Qed.

Lemma compute_s_length numCenters (h sc : list num) :
  length (compute_s numCenters h sc) = length sc.
Proof.
  unfold compute_s.
  apply (fold_insert_length (fun j : nat => j) (fun j _ => closest_other numCenters h j)).
Qed.

(** Step 3 for one pair: the sizes stay, and a new closest center is
   the center [k] being looked at. *)
Lemma step3_shape index samples cs numCenters (hc : list num) j k (a : assignment)
    (rj : bool) :
  k < numCenters ->
  let a' := (step3 index samples cs numCenters hc j (a, rj) k).1 in
  length (a_lower a') = length (a_lower a) /\
  length (a_upper a') = length (a_upper a) /\
  length (a_closest a') = length (a_closest a) /\
  (Forall (fun c => c < numCenters) (a_closest a) ->
   Forall (fun c => c < numCenters) (a_closest a')).
Proof.
  intros Hk. unfold step3.
  destruct (k =? _); [cbn; tauto|].
  destruct (fle _ _); [cbn; tauto|].
  destruct (fle _ _); [cbn; tauto|].
  destruct rj; cbn zeta.
  - destruct (_ || _); [destruct (flt _ _)|]; cbn [fst a_lower a_upper a_closest];
      rewrite ?length_insert; repeat split; try tauto.
    intros Hall. apply Forall_insert; assumption.
  - destruct (_ || _); [destruct (flt _ _)|]; cbn [fst a_lower a_upper a_closest];
      rewrite ?length_insert; repeat split; try tauto.
    intros Hall. apply Forall_insert; assumption.
Qed.

Lemma assign_points_shape index samples cs numSamples numCenters (hc sc : list num)
    (rjreset : bool) (a : assignment) :
  let a' := assign_points index samples cs numSamples numCenters hc sc rjreset a in
  length (a_lower a') = length (a_lower a) /\
  length (a_upper a') = length (a_upper a) /\
  length (a_closest a') = length (a_closest a) /\
  (Forall (fun c => c < numCenters) (a_closest a) ->
   Forall (fun c => c < numCenters) (a_closest a')).
Proof.
  unfold assign_points.
  apply (fold_left_preserves
           (fun a' => length (a_lower a') = length (a_lower a) /\
                      length (a_upper a') = length (a_upper a) /\
                      length (a_closest a') = length (a_closest a) /\
                      (Forall (fun c => c < numCenters) (a_closest a) ->
                       Forall (fun c => c < numCenters) (a_closest a'))));
    [|tauto].
  intros a1 j _ Ha1. unfold step23. destruct (fle _ _); [exact Ha1|].
  apply (fold_left_preserves
           (fun acc : assignment * bool =>
              length (a_lower acc.1) = length (a_lower a) /\
              length (a_upper acc.1) = length (a_upper a) /\
              length (a_closest acc.1) = length (a_closest a) /\
              (Forall (fun c => c < numCenters) (a_closest a) ->
               Forall (fun c => c < numCenters) (a_closest acc.1))));
    [|exact Ha1].
  intros [a2 rj] k Hk (Hl & Hu & Hc & Hall). apply elem_of_seq in Hk.
  destruct (step3_shape index samples cs numCenters hc j k a2 rj ltac:(lia))
    as (Hl' & Hu' & Hc' & Hall').
  cbn [fst] in *. repeat split; try congruence. tauto.
Qed.

Lemma assign_phase_indices index samples iteration st :
  indices_valid samples st ->
  indices_valid samples (assign_phase index samples iteration st).1.
Proof.
  intros (Hitems & Hl & Hu & Hc & Hh & Hs & Hn & Hall).
  unfold assign_phase, indices_valid.
  cbn [fst centers lowerBound upperBound closestCenters halfcdist s newcdist].
  match goal with |- context [assign_points ?i ?sa ?c ?ns ?nc ?h ?sc ?r ?a] =>
    destruct (assign_points_shape i sa c ns nc h sc r a) as (Hl' & Hu' & Hc' & Hall')
  end.
  cbn [a_lower a_upper a_closest] in *.
  rewrite step1_length, compute_s_length.
  repeat split; try congruence. tauto.
Qed.

Lemma update_phase_indices index samples st :
  indices_valid samples st ->
  indices_valid samples (update_phase index samples st).
Proof.
  intros (Hitems & Hl & Hu & Hc & Hh & Hs & Hn & Hall).
  unfold update_phase.
  destruct (new_centers _ _ _ _ _ _ _) as [newCenters w1].
  unfold indices_valid.
  cbn [centers lowerBound upperBound closestCenters halfcdist s newcdist].
  destruct (commit_centers_spec (va_maxlen (centers st)) newCenters (centers st) Hitems)
    as (Hmax' & Hitems' & _).
  destruct (center_shifts_spec index (centers st) newCenters (va_maxlen (centers st))
              (newcdist st) ltac:(lia)) as (Hn' & _).
  rewrite Hmax', Hitems', Hn'.
  unfold widen_lower, widen_upper.
  split; [exact Hitems|].
  split.
  { rewrite <- Hl.
    apply (fold_left_preserves (fun l => length l = length (lowerBound st))); [|reflexivity].
    intros l j _ Hlen.
    apply (fold_left_preserves (fun l => length l = length (lowerBound st))); [|exact Hlen].
    intros l' k _ Hlen'. unfold widen_lower_at. rewrite length_insert. exact Hlen'. }
  split.
  { rewrite <- Hu.
    apply (fold_left_preserves (fun l => length l = length (upperBound st))); [|reflexivity].
    intros l j _ Hlen. rewrite length_insert. exact Hlen. }
  repeat split; assumption.
Qed.

Lemma elkan_pass_indices index samples iteration st :
  indices_valid samples st ->
  indices_valid samples (elkan_pass index samples iteration st).1.
Proof.
  intros Hok. unfold elkan_pass.
  pose proof (assign_phase_indices index samples iteration st Hok) as Hmid.
  destruct (assign_phase index samples iteration st) as [st1 changes]. cbn [fst] in *.
  apply update_phase_indices, Hmid.
Qed.

Lemma initial_closest_lt (numCenters : nat) (lb : list num) (j : nat) :
  0 < numCenters -> (initial_closest numCenters lb j).2 < numCenters.
Proof.
  intros Hpos. pose proof (initial_closest_scan numCenters lb j numCenters) as Hscan.
  unfold initial_closest.
  destruct (fold_left _ _ _) as [m c]. cbn [snd].
  destruct Hscan as [[Hc _]|(_ & -> & _)]; [exact Hc|exact Hpos].
Qed.

Lemma elkan_setup_indices index (samples cs : VectorArray) (w : world) st0 :
  0 < va_maxlen cs ->
  va_maxlen cs <= length (va_items cs) ->
  elkan_setup index samples cs w = Ok st0 ->
  va_maxlen (centers st0) = va_maxlen cs /\ indices_valid samples st0.
Proof.
  intros Hpos Hroom. unfold elkan_setup.
  destruct (_ >? _)%Z; [discriminate|].
  destruct (indexing_overflows _); [discriminate|].
  pose proof (InitCenters_spec index samples cs
                (replicate (va_length samples * va_maxlen cs) zero) w) as Hinit.
  rewrite length_replicate in Hinit. specialize (Hinit (Nat.le_refl _)).
  destruct (InitCenters _ _ _ _ _) as [[[cs1 lb1] w1]|e]; [|discriminate].
  cbn [bind]. destruct Hinit as (Hlen & Hmax & Hitems & _).
  pose proof (initial_assignment_spec (va_length samples) (va_maxlen cs) lb1
                (replicate (va_length samples) zero) (replicate (va_length samples) 0))
    as Hassign.
  rewrite !length_replicate in Hassign.
  specialize (Hassign (Nat.le_refl _) (Nat.le_refl _)).
  destruct (initial_assignment _ _ _ _ _) as [ub1 cc1].
  cbn [fst snd] in Hassign. destruct Hassign as (Hu & Hc & Hrow).
  intros [= <-]. split; [exact Hmax|]. unfold indices_valid.
  cbn [centers lowerBound upperBound closestCenters halfcdist s newcdist].
  rewrite Hmax, !length_replicate.
  repeat split; try lia.
  apply Forall_lookup. intros j c Hj.
  assert (j < va_length samples) as Hlt by (apply lookup_lt_Some in Hj; lia).
  destruct (Hrow j Hlt) as [_ Hcc].
  rewrite (list_lookup_total_correct _ _ _ Hj) in Hcc. rewrite Hcc.
  apply initial_closest_lt, Hpos.
Qed.

Lemma elkan_reaches_indices index (samples cs : VectorArray) (w : world)
    (st0 : elkan_state) :
  0 < va_maxlen cs ->
  va_maxlen cs <= length (va_items cs) ->
  elkan_setup index samples cs w = Ok st0 ->
  forall iteration st, elkan_reaches index samples st0 iteration st ->
    va_maxlen (centers st) = va_maxlen cs /\ indices_valid samples st.
Proof.
  intros Hpos Hroom Hsetup iteration st Hreach.
  destruct (elkan_setup_indices index samples cs w st0 Hpos Hroom Hsetup) as [Hmax0 Hok0].
  induction Hreach as [|iteration st w1 Hreach IH Hcheck]; [split; assumption|].
  destruct IH as [Hm Hv]. split.
  - destruct (elkan_pass_centers index samples iteration (with_world st w1)) as (_ & H & _).
    rewrite H. exact Hm.
  - apply elkan_pass_indices. exact Hv.
Qed.

Lemma wrap32_small (z : Z) : (- 2 ^ 31 <= z < 2 ^ 31)%Z -> wrap32 z = z.
Proof.
  intros Hz. unfold wrap32.
  rewrite Z.mod_small by lia. lia.
Qed.

(** Below [INT_MAX] the [int] product of the index does not wrap, and
   the read is inside the table, whatever the outside world is. *)
Lemma halfcdist_index_exact (c numCenters k : nat) :
  c < numCenters -> k < numCenters ->
  (Z.of_nat numCenters * Z.of_nat numCenters <= INT_MAX)%Z ->
  halfcdist_index c numCenters k = Z.of_nat (c * numCenters + k).
Proof.
  intros Hc Hk Hsmall. unfold halfcdist_index, INT_MAX in *.
  rewrite wrap32_small; [lia|]. nia.
Qed.

Lemma float_at_inside (E' : Externals) (hc : list num) (c numCenters k : nat) :
  c < numCenters -> k < numCenters ->
  (Z.of_nat numCenters * Z.of_nat numCenters <= INT_MAX)%Z ->
  numCenters * numCenters <= length hc ->
  @float_at F E' hc (halfcdist_index c numCenters k) = hc !!! (c * numCenters + k).
Proof.
  intros Hc Hk Hsmall Hroom. rewrite halfcdist_index_exact by assumption.
  unfold float_at.
  pose proof (flat_index_lt numCenters numCenters c k Hc Hk) as Hlt.
  assert (((0 <=? Z.of_nat (c * numCenters + k))
           && (Z.of_nat (c * numCenters + k) <? Z.of_nat (length hc)))%Z = true) as ->.
  { apply andb_true_intro. split; [apply Z.leb_le|apply Z.ltb_lt]; lia. }
  rewrite Nat2Z.id. reflexivity.
Qed.

Lemma float_at_halfcdist (hc : list num) (c numCenters k : nat) :
  c < numCenters -> k < numCenters ->
  (Z.of_nat numCenters * Z.of_nat numCenters <= INT_MAX)%Z ->
  numCenters * numCenters <= length hc ->
  float_at hc (halfcdist_index c numCenters k) = hc !!! (c * numCenters + k).
Proof. apply float_at_inside. Qed.

(** Step 3 for one pair reads [halfcdist] inside the array: what is
   around the array does not matter. *)
Lemma step3_inside (g : Z -> num) index samples cs numCenters (hc : list num) j k
    (a : assignment) (rj : bool) :
  a_closest a !!! j < numCenters -> k < numCenters ->
  (Z.of_nat numCenters * Z.of_nat numCenters <= INT_MAX)%Z ->
  numCenters * numCenters <= length hc ->
  @step3 F (with_stray E g) index samples cs numCenters hc j (a, rj) k
  = step3 index samples cs numCenters hc j (a, rj) k.
Proof.
  intros Hc Hk Hsmall Hroom. unfold step3.
  rewrite !(float_at_inside (with_stray E g)), !(float_at_inside E) by assumption.
  destruct rj; cbn [a_closest];
    rewrite ?(float_at_inside (with_stray E g)), ?(float_at_inside E) by assumption;
    reflexivity.
Qed.

Lemma fold_left_agree {A B} (P : A -> Prop) (f f' : A -> B -> A) (l : list B) (a : A) :
  (forall a x, x ∈ l -> P a -> f' a x = f a x /\ P (f a x)) -> P a ->
  fold_left f' l a = fold_left f l a /\ P (fold_left f l a).
Proof.
  revert a. induction l as [|x l IH]; intros a Hstep Ha; simpl; [split; [reflexivity|exact Ha]|].
  destruct (Hstep a x ltac:(left) Ha) as [-> Hnext].
  apply IH; [|exact Hnext].
  intros a' y Hy. apply Hstep. right. exact Hy.
Qed.

Lemma assign_points_inside (g : Z -> num) index samples cs numSamples numCenters
    (hc sc : list num) (rjreset : bool) (a : assignment) :
  (Z.of_nat numCenters * Z.of_nat numCenters <= INT_MAX)%Z ->
  numCenters * numCenters <= length hc ->
  length (a_closest a) = numSamples ->
  Forall (fun c => c < numCenters) (a_closest a) ->
  @assign_points F (with_stray E g) index samples cs numSamples numCenters hc sc rjreset a
  = assign_points index samples cs numSamples numCenters hc sc rjreset a.
Proof.
  intros Hsmall Hroom Hlen Hall. unfold assign_points.
  apply (fold_left_agree
           (fun a' => length (a_closest a') = numSamples /\
                      Forall (fun c => c < numCenters) (a_closest a'))); [|split; assumption].
  intros a1 j Hj [Hlen1 Hall1]. apply elem_of_seq in Hj. unfold step23.
  destruct (fle _ _); [split; [reflexivity|split; assumption]|].
  destruct (fold_left_agree
              (fun acc : assignment * bool =>
                 length (a_closest acc.1) = numSamples /\
                 Forall (fun c => c < numCenters) (a_closest acc.1))
              (step3 index samples cs numCenters hc j)
              (@step3 F (with_stray E g) index samples cs numCenters hc j)
              (seq 0 numCenters) (a1, rjreset)) as [-> Hinv]; [|split; assumption|].
  - intros [a2 rj] k Hk [Hlen2 Hall2]. apply elem_of_seq in Hk. cbn [fst] in *.
    split.
    + apply step3_inside; try assumption; [|lia].
      apply (Forall_at _ _ j Hall2). lia.
    + destruct (step3_shape index samples cs numCenters hc j k a2 rj ltac:(lia))
        as (_ & _ & Hc & Hf).
      split; [lia|apply Hf, Hall2].
  - split; [reflexivity|exact Hinv].
Qed.

(** X9.  The indices [ElkanKmeans] computes stay inside their arrays
   when [numCenters * numCenters] fits an [int], which is what the
   guard of the function is meant to ensure.  At the head of every
   pass, and after Steps 1 to 3 of it, the scratch arrays have the
   sizes they were allocated with, every entry of [closestCenters] is
   below [numCenters], and for every sample [j] and center [k] the
   index [closestCenters[j] * numCenters + k], an [int] product, has
   not wrapped and is inside [halfcdist].  Nor does any read within
   Steps 1 to 3 leave [halfcdist]: the steps do the same whatever is
   around the array.  In any arithmetic. *)
Theorem elkan_indices_valid index (samples cs : VectorArray) (w : world)
    (st0 : elkan_state) :
  0 < va_length samples ->
  0 < va_maxlen cs ->
  va_maxlen cs <= length (va_items cs) ->
  (Z.of_nat (va_maxlen cs) * Z.of_nat (va_maxlen cs) <= INT_MAX)%Z ->
  elkan_setup index samples cs w = Ok st0 ->
  forall iteration st, elkan_reaches index samples st0 iteration st ->
    va_maxlen (centers st) = va_maxlen cs /\
    indices_valid samples st /\
    indices_valid samples (assign_phase index samples iteration st).1 /\
    (forall st1, st1 = st \/ st1 = (assign_phase index samples iteration st).1 ->
       forall j k, j < va_length samples -> k < va_maxlen cs ->
         halfcdist_index (closestCenters st1 !!! j) (va_maxlen cs) k
         = Z.of_nat (closestCenters st1 !!! j * va_maxlen cs + k) /\
         closestCenters st1 !!! j * va_maxlen cs + k < length (halfcdist st1)) /\
    forall g : Z -> num,
      @assign_phase F (with_stray E g) index samples iteration st
      = assign_phase index samples iteration st.
Proof.
  intros _ Hpos Hroom Hsmall Hsetup iteration st Hreach.
  destruct (elkan_reaches_indices index samples cs w st0 Hpos Hroom Hsetup iteration st
              Hreach) as [Hmax Hok].
  pose proof (assign_phase_indices index samples iteration st Hok) as Hmid.
  split; [exact Hmax|]. split; [exact Hok|]. split; [exact Hmid|]. split.
  - intros st1 Hst1 j k Hj Hk.
    assert (indices_valid samples st1 /\ va_maxlen (centers st1) = va_maxlen cs)
      as [Hv Hm].
    { destruct Hst1 as [->| ->]; [split; assumption|]. split; [exact Hmid|exact Hmax]. }
    destruct Hv as (_ & _ & _ & Hlen & Hh & _ & _ & Hall). rewrite Hm in *.
    assert (closestCenters st1 !!! j < va_maxlen cs) as Hc
      by (apply (Forall_at _ _ j Hall); lia).
    split; [apply halfcdist_index_exact; assumption|].
    rewrite Hh. apply flat_index_lt; assumption.
  - intros g. destruct Hok as (_ & _ & _ & Hlen & Hh & _ & _ & Hall).
    unfold assign_phase. rewrite assign_points_inside; [reflexivity| | | |].
    + rewrite Hmax. exact Hsmall.
    + rewrite step1_length, Hh. lia.
    + exact Hlen.
    + exact Hall.
Qed.

(** With one center more than [46341], whose square still fits an
   [int], the product wraps and the index is below the array. *)
Example halfcdist_index_wraps :
  (halfcdist_index (Z.to_nat 46341) (Z.to_nat 46342) 0 = -2147432674)%Z.
Proof. vm_compute. reflexivity. Qed.

(** *** The counter [changes] *)

(** A loop over [0 .. n-1], with an invariant that knows the position. *)
Lemma fold_left_seq_ind {A} (P : nat -> A -> Prop) (f : A -> nat -> A) (n : nat) (a : A) :
  P 0 a ->
  (forall i a, i < n -> P i a -> P (S i) (f a i)) ->
  P n (fold_left f (seq 0 n) a).
Proof.
  intros H0 Hstep. induction n as [|n IH]; [exact H0|].
  rewrite seq_S, fold_left_app. cbn [fold_left Nat.add].
  apply Hstep; [lia|]. apply IH. intros i a' Hi. apply Hstep. lia.
Qed.

(** Step 3 for one pair either leaves the assignment of the sample and
   the counter as they are, or moves the sample and counts one more. *)
Lemma step3_changes index samples cs numCenters (hc : list num) j k (a : assignment)
    (rj : bool) (closest0 : list nat) (m : Z) :
  (0 <= a_changes a <= m)%Z ->
  (m + 1 < 2 ^ 31)%Z ->
  (a_changes a = 0%Z -> a_closest a = closest0) ->
  let a' := (step3 index samples cs numCenters hc j (a, rj) k).1 in
  (0 <= a_changes a' <= m + 1)%Z /\
  (a_changes a' = 0%Z -> a_closest a' = closest0).
Proof.
  intros Hrange Hbound Hsame. unfold step3.
  destruct (k =? _); [cbn; split; [lia|exact Hsame]|].
  destruct (fle _ _); [cbn; split; [lia|exact Hsame]|].
  destruct (fle _ _); [cbn; split; [lia|exact Hsame]|].
  destruct rj; cbn zeta.
  - destruct (_ || _); [destruct (flt _ _)|]; cbn [fst a_changes a_closest];
      try (split; [lia|exact Hsame]).
    unfold int_incr. rewrite wrap32_small by lia. split; [lia|]. intros H. lia.
  - destruct (_ || _); [destruct (flt _ _)|]; cbn [fst a_changes a_closest];
      try (split; [lia|exact Hsame]).
    unfold int_incr. rewrite wrap32_small by lia. split; [lia|]. intros H. lia.
Qed.

Lemma assign_points_changes index samples cs numSamples numCenters (hc sc : list num)
    (rjreset : bool) (a : assignment) :
  (Z.of_nat (numSamples * numCenters) < 2 ^ 31)%Z ->
  a_changes a = 0%Z ->
  let a' := assign_points index samples cs numSamples numCenters hc sc rjreset a in
  (0 <= a_changes a' <= Z.of_nat (numSamples * numCenters))%Z /\
  (a_changes a' = 0%Z -> a_closest a' = a_closest a).
Proof.
  intros Hbound Hzero. unfold assign_points.
  apply (fold_left_seq_ind
           (fun j a' => (0 <= a_changes a' <= Z.of_nat (j * numCenters))%Z /\
                        (a_changes a' = 0%Z -> a_closest a' = a_closest a))).
  - split; [lia|reflexivity].
  - intros j a1 Hj (Hrange & Hsame). unfold step23.
    destruct (fle _ _); [split; [nia|exact Hsame]|].
    replace (S j * numCenters) with (j * numCenters + numCenters) by lia.
    apply (fold_left_seq_ind
             (fun k (acc : assignment * bool) =>
                (0 <= a_changes acc.1 <= Z.of_nat (j * numCenters + k))%Z /\
                (a_changes acc.1 = 0%Z -> a_closest acc.1 = a_closest a))).
    + cbn [fst]. rewrite Nat.add_0_r. split; assumption.
    + intros k [a2 rj] Hk (Hrange2 & Hsame2). cbn [fst] in *.
      replace (Z.of_nat (j * numCenters + S k)) with (Z.of_nat (j * numCenters + k) + 1)%Z
        by lia.
      apply step3_changes; [exact Hrange2| |exact Hsame2].
      assert (j * numCenters + k + 1 <= numSamples * numCenters) by nia. lia.
Qed.

Lemma assign_phase_changes index samples iteration st :
  (Z.of_nat (va_length samples * va_maxlen (centers st)) < 2 ^ 31)%Z ->
  (0 <= (assign_phase index samples iteration st).2
     <= Z.of_nat (va_length samples * va_maxlen (centers st)))%Z /\
  ((assign_phase index samples iteration st).2 = 0%Z ->
   closestCenters (assign_phase index samples iteration st).1 = closestCenters st).
Proof.
  intros Hbound. unfold assign_phase. cbn [fst snd closestCenters].
  match goal with |- context [assign_points ?i ?sa ?c ?ns ?nc ?h ?sc ?r ?a] =>
    pose proof (assign_points_changes i sa c ns nc h sc r a Hbound eq_refl) as H
  end.
  exact H.
Qed.

Lemma elkan_pass_closest index samples iteration st :
  closestCenters (elkan_pass index samples iteration st).1
  = closestCenters (assign_phase index samples iteration st).1 /\
  (elkan_pass index samples iteration st).2 = (assign_phase index samples iteration st).2.
Proof.
  unfold elkan_pass.
  destruct (assign_phase index samples iteration st) as [st1 changes]. cbn [fst snd].
  unfold update_phase. destruct (new_centers _ _ _ _ _ _ _) as [newCenters w1].
  split; reflexivity.
Qed.

Lemma elkan_reaches_maxlen index samples st0 iteration st :
  elkan_reaches index samples st0 iteration st ->
  va_maxlen (centers st) = va_maxlen (centers st0).
Proof.
  intros Hreach. induction Hreach as [|iteration st w1 Hreach IH Hcheck]; [reflexivity|].
  destruct (elkan_pass_centers index samples iteration (with_world st w1)) as (_ & H & _).
  rewrite H. exact IH.
Qed.

(** The last pass of a loop that stopped early ended with [changes = 0]. *)
Lemma elkan_loop_last index samples st0 (n iteration : nat) st st' trace :
  elkan_reaches index samples st0 iteration st ->
  elkan_loop index samples n iteration st = Ok (st', trace) ->
  0 < n ->
  exists st_last w1,
    elkan_reaches index samples st0 (iteration + length trace - 1) st_last /\
    CHECK_FOR_INTERRUPTS (wld st_last) = Ok w1 /\
    st' = (elkan_pass index samples (iteration + length trace - 1)
             (with_world st_last w1)).1 /\
    (length trace < n ->
     (elkan_pass index samples (iteration + length trace - 1)
        (with_world st_last w1)).2 = 0%Z).
Proof.
  revert iteration st st' trace.
  induction n as [|n IH]; intros iteration st st' trace Hreach; cbn [elkan_loop]; [lia|].
  destruct (CHECK_FOR_INTERRUPTS (wld st)) as [w1|e] eqn:Hc; cbn [bind]; [|discriminate].
  pose proof (reaches_pass index samples st0 iteration st w1 Hreach Hc) as Hnext.
  destruct (elkan_pass _ _ _ _) as [st1 changes] eqn:Hpass. cbn [fst] in Hnext.
  destruct ((changes =? 0)%Z && negb (iteration =? 0)) eqn:Hstop.
  - intros [= <- <-] _. cbn [length].
    replace (iteration + 1 - 1) with iteration by lia.
    exists st, w1. rewrite Hpass. cbn [fst snd].
    split; [exact Hreach|]. split; [exact Hc|]. split; [reflexivity|].
    intros _. apply andb_prop in Hstop as [Hz _]. apply Z.eqb_eq, Hz.
  - destruct (elkan_loop index samples n (S iteration) st1) as [[st2 tr]|e] eqn:Hloop;
      cbn [bind]; [|discriminate].
    intros [= <- <-] _. cbn [length].
    destruct n as [|n'].
    + cbn [elkan_loop] in Hloop. injection Hloop as <- <-. cbn [length].
      replace (iteration + 1 - 1) with iteration by lia.
      exists st, w1. rewrite Hpass. cbn [fst snd].
      split; [exact Hreach|]. split; [exact Hc|]. split; [reflexivity|]. lia.
    + destruct (IH (S iteration) st1 st2 tr Hnext Hloop ltac:(lia))
        as (st_last & w2 & Hr & Hc2 & Hst & Hzero).
      assert (0 < length tr) as Hpos.
      { pose proof (elkan_loop_trace index samples (S n') (S iteration) st1) as Htr.
        rewrite Hloop in Htr. destruct Htr as (_ & Hp & _). apply Hp. lia. }
      replace (iteration + S (length tr) - 1) with (S iteration + length tr - 1) by lia.
      exists st_last, w2. split; [exact Hr|]. split; [exact Hc2|]. split; [exact Hst|].
      intros Hlt. apply Hzero. lia.
Qed.

(** X10.  A loop that ends before its 500th pass has converged: in its
   last pass no sample changed its center, so the assignment it returns
   is the one that pass started from.  The counter [changes] is an
   [int]; the statement needs [numSamples * numCenters < 2^31], below
   which it cannot wrap. *)
Theorem elkan_loop_converged index (samples : VectorArray) (st0 st' : elkan_state)
    (trace : list Z) :
  (Z.of_nat (va_length samples * va_maxlen (centers st0)) < 2 ^ 31)%Z ->
  elkan_loop index samples 500 0 st0 = Ok (st', trace) ->
  length trace < 500 ->
  exists st w1,
    elkan_reaches index samples st0 (length trace - 1) st /\
    CHECK_FOR_INTERRUPTS (wld st) = Ok w1 /\
    st' = (elkan_pass index samples (length trace - 1) (with_world st w1)).1 /\
    closestCenters st' = closestCenters st.
Proof.
  intros Hbound Hloop Hearly.
  destruct (elkan_loop_last index samples st0 500 0 st0 st' trace
              (reaches_start index samples st0) Hloop ltac:(lia))
    as (st & w1 & Hreach & Hcheck & Hst & Hzero).
  cbn [Nat.add] in *.
  exists st, w1. split; [exact Hreach|]. split; [exact Hcheck|]. split; [exact Hst|].
  specialize (Hzero Hearly).
  destruct (elkan_pass_closest index samples (length trace - 1) (with_world st w1))
    as [Hclosest Hchanges].
  rewrite Hst, Hclosest. rewrite Hchanges in Hzero.
  pose proof (elkan_reaches_maxlen index samples st0 _ st Hreach) as Hmax.
  destruct (assign_phase_changes index samples (length trace - 1) (with_world st w1))
    as [_ Hsame].
  { cbn [with_world centers]. rewrite Hmax. exact Hbound. }
  apply Hsame, Hzero.
Qed.

(** *** Step 4: the new centers *)

Lemma list_eq_tabulate {A} `{Inhabited A} (f : nat -> A) (n : nat) (l : list A) :
  length l = n -> (forall k, k < n -> l !!! k = f k) -> l = map f (seq 0 n).
Proof.
  intros Hlen Hall. apply list_eq. intros i.
  rewrite map_fmap, list_lookup_fmap.
  destruct (decide (i < n)) as [Hi|Hi].
  - rewrite lookup_seq_lt by exact Hi. simpl. rewrite <- (Hall i Hi).
    apply list_lookup_lookup_total_lt. lia.
  - rewrite lookup_seq_ge by lia. simpl. apply lookup_ge_None_2. lia.
Qed.

Lemma tabulate_lookup {A} `{Inhabited A} (f : nat -> A) (n k : nat) :
  k < n -> map f (seq 0 n) !!! k = f k.
Proof.
  intros Hk. apply list_lookup_total_correct.
  rewrite map_fmap, list_lookup_fmap, lookup_seq_lt by exact Hk. reflexivity.
Qed.

Lemma assigned_S (closest : list nat) (n c : nat) :
  assigned closest (S n) c
  = assigned closest n c ++ (if decide (closest !!! n = c) then [n] else []).
Proof.
  unfold assigned. rewrite seq_S, filter_app. reflexivity.
Qed.

Lemma assigned_length (closest : list nat) (n c : nat) :
  length (assigned closest n c) <= n.
Proof.
  unfold assigned. etransitivity; [apply length_filter|]. rewrite length_seq. lia.
Qed.

Lemma coordinate_sum_snoc (samples : VectorArray) (js : list nat) (j k : nat) :
  coordinate_sum samples (js ++ [j]) k
  = to_float (fadd (coordinate_sum samples js k) (VectorArrayGet samples j !!! k)).
Proof. unfold coordinate_sum. rewrite fold_left_app. reflexivity. Qed.

(** Adding one sample to a running sum, coordinate by coordinate. *)
Lemma add_coordinates (vec : list num) (dimensions : nat) (sum : list num) :
  length sum = dimensions ->
  let sum' :=
    fold_left (fun (c : list num) k => <[k := to_float (fadd (c !!! k) (vec !!! k))]> c)
              (seq 0 dimensions) sum in
  length sum' = dimensions /\
  forall k, k < dimensions -> sum' !!! k = to_float (fadd (sum !!! k) (vec !!! k)).
Proof.
  intros Hlen sum'. unfold sum'.
  destruct (fold_update_spec (fun k : nat => k)
              (fun k (x : num) => to_float (fadd x (vec !!! k)))
              (seq 0 dimensions) sum) as (Hlen' & _ & Hin).
  { rewrite list_fmap_id. apply NoDup_seq. }
  split; [lia|]. intros k Hk. apply Hin; [apply elem_of_seq|]; lia.
Qed.

(** The first loops of Step 4 gather, for every center, the sum and the
   number of the samples assigned to it. *)
Lemma sum_samples_spec (samples : VectorArray) (numSamples numCenters dimensions : nat)
    (closest : list nat) :
  (Z.of_nat numSamples < 2 ^ 31)%Z ->
  let r := sum_samples samples numSamples numCenters dimensions closest in
  length r.1 = numCenters /\ length r.2 = numCenters /\
  forall c, c < numCenters ->
    r.1 !!! c = map (coordinate_sum samples (assigned closest numSamples c))
                    (seq 0 dimensions) /\
    r.2 !!! c = Z.of_nat (length (assigned closest numSamples c)).
Proof.
  intros Hbound. unfold sum_samples.
  induction numSamples as [|n IH]; cbn zeta.
  - cbn [seq fold_left fst snd]. rewrite !length_replicate.
    split; [reflexivity|]. split; [reflexivity|].
    intros c Hc. rewrite !lookup_total_replicate_2 by exact Hc.
    split; [|reflexivity].
    apply list_eq_tabulate; [apply length_replicate|].
    intros k Hk. rewrite lookup_total_replicate_2 by exact Hk. reflexivity.
  - rewrite seq_S, fold_left_app. cbn [fold_left Nat.add].
    destruct IH as (Hl1 & Hl2 & Hall); [lia|].
    destruct (fold_left _ (seq 0 n) _) as [sums counts]. cbn [fst snd] in *.
    unfold add_sample. cbn [fst snd]. rewrite !length_insert.
    split; [exact Hl1|]. split; [exact Hl2|].
    intros c Hc. destruct (Hall c Hc) as [Hsum Hcount].
    rewrite assigned_S.
    destruct (decide (closest !!! n = c)) as [Heq|Hne].
    + rewrite Heq.
      rewrite !list_lookup_total_insert_eq by lia.
      rewrite length_app. cbn [length].
      pose proof (assigned_length closest n c) as Hle.
      split.
      * destruct (add_coordinates (VectorArrayGet samples n) dimensions (sums !!! c))
          as (Hlen' & Hcoord).
        { rewrite Hsum, length_map, length_seq. reflexivity. }
        apply list_eq_tabulate; [exact Hlen'|].
        intros k Hk. rewrite (Hcoord k Hk), Hsum, tabulate_lookup by exact Hk.
        rewrite coordinate_sum_snoc. reflexivity.
      * rewrite Hcount, wrap32_small by lia. lia.
    + rewrite !list_lookup_total_insert_ne by exact Hne.
      rewrite app_nil_r. split; assumption.
Qed.

(** One center of the last loop of Step 4. *)
Lemma finish_center_at index (dimensions : nat) (counts : list Z)
    (ncs : list (list num)) (w : world) (j : nat) :
  j < length ncs ->
  let r := finish_center index dimensions counts (ncs, w) j in
  length r.1 = length ncs /\
  (forall c, c <> j -> r.1 !!! c = ncs !!! c) /\
  ((0 < counts !!! j)%Z ->
     r.2 = w /\
     r.1 !!! j = normalize_if_needed (KMEANS_NORM_PROC index)
                   (map (fun x => to_float (fdiv x (to_float (of_int (counts !!! j)))))
                        (map clamp_inf (ncs !!! j)))) /\
  ((counts !!! j <= 0)%Z ->
     r.2 = mkWorld (rng w + dimensions) (checks w) /\
     r.1 !!! j = normalize_if_needed (KMEANS_NORM_PROC index)
                   (map (fun i => to_float (RandomDouble_at (rng w + i)))
                        (seq 0 dimensions))).
Proof.
  intros Hj r. unfold r, finish_center.
  destruct (0 <? counts !!! j)%Z eqn:Hpos.
  - apply Z.ltb_lt in Hpos. cbn [fst snd]. rewrite length_insert.
    split; [reflexivity|]. split.
    { intros c Hc. apply list_lookup_total_insert_ne. congruence. }
    split; [|lia]. intros _. split; [reflexivity|].
    apply list_lookup_total_insert_eq. exact Hj.
  - apply Z.ltb_ge in Hpos.
    rewrite random_vector_stream. cbn [fst snd].
    rewrite length_insert.
    split; [reflexivity|]. split.
    { intros c Hc. apply list_lookup_total_insert_ne. congruence. }
    split; [lia|]. intros _. split; [reflexivity|].
    apply list_lookup_total_insert_eq. exact Hj.
Qed.

(** Step 4 as a whole: every center that has samples becomes their
   mean, every other center a fresh random vector. *)
Lemma new_centers_spec index (samples : VectorArray)
    (numSamples numCenters dimensions : nat) (closestCenters : list nat) (w : world) :
  (Z.of_nat numSamples < 2 ^ 31)%Z ->
  let newCenters :=
    (new_centers index samples numSamples numCenters dimensions closestCenters w).1 in
  length newCenters = numCenters /\
  forall c, c < numCenters ->
    let js := assigned closestCenters numSamples c in
    (js <> [] ->
     newCenters !!! c
     = normalize_if_needed (KMEANS_NORM_PROC index) (cluster_mean samples dimensions js)) /\
    (js = [] ->
     exists p, rng w <= p /\
       newCenters !!! c
       = normalize_if_needed (KMEANS_NORM_PROC index)
           (map (fun i => to_float (RandomDouble_at (p + i))) (seq 0 dimensions))).
Proof.
  intros Hbound. cbn zeta. unfold new_centers.
  pose proof (sum_samples_spec samples numSamples numCenters dimensions closestCenters Hbound)
    as Hsums.
  destruct (sum_samples _ _ _ _ _) as [sums counts]. cbn [fst snd] in Hsums.
  destruct Hsums as (Hl1 & Hl2 & Hall).
  pose (done := fun (c : nat) (v : list num) =>
    (assigned closestCenters numSamples c <> [] ->
     v = normalize_if_needed (KMEANS_NORM_PROC index)
           (cluster_mean samples dimensions (assigned closestCenters numSamples c))) /\
    (assigned closestCenters numSamples c = [] ->
     exists p, rng w <= p /\
       v = normalize_if_needed (KMEANS_NORM_PROC index)
             (map (fun i => to_float (RandomDouble_at (p + i))) (seq 0 dimensions)))).
  assert (rng w <= rng (fold_left (finish_center index dimensions counts)
                                  (seq 0 numCenters) (sums, w)).2 /\
          length (fold_left (finish_center index dimensions counts) (seq 0 numCenters)
                            (sums, w)).1 = numCenters /\
          (forall c, c < numCenters ->
             done c ((fold_left (finish_center index dimensions counts) (seq 0 numCenters)
                                (sums, w)).1 !!! c)) /\
          (forall c, numCenters <= c ->
             (fold_left (finish_center index dimensions counts) (seq 0 numCenters)
                        (sums, w)).1 !!! c = sums !!! c)) as (_ & Hlen & Hdone & _).
  { apply (fold_left_seq_ind
             (fun i (acc : list (list num) * world) =>
                rng w <= rng acc.2 /\
                length acc.1 = numCenters /\
                (forall c, c < i -> done c (acc.1 !!! c)) /\
                (forall c, i <= c -> acc.1 !!! c = sums !!! c))).
    - cbn [fst snd]. split; [lia|]. split; [exact Hl1|].
      split; [intros c Hc; lia|reflexivity].
    - intros i [ncs w0] Hi (Hrng & Hlen & Hdone & Hrest). cbn [fst snd] in *.
      destruct (finish_center_at index dimensions counts ncs w0 i ltac:(lia))
        as (Hlen' & Hother & Hfull & Hempty).
      split.
      { destruct (Z_lt_le_dec 0 (counts !!! i)) as [Hp|Hp].
        - destruct (Hfull Hp) as [-> _]. exact Hrng.
        - destruct (Hempty Hp) as [-> _]. cbn [rng]. lia. }
      split; [lia|]. split.
      + intros c Hc. destruct (decide (c = i)) as [->|Hne].
        * destruct (Hall i Hi) as [Hsum Hcount].
          rewrite Hcount in Hfull, Hempty. rewrite (Hrest i (Nat.le_refl _)), Hsum in Hfull.
          unfold done. split.
          -- intros Hne.
             assert (0 < length (assigned closestCenters numSamples i)) as Hpos
               by (destruct (assigned closestCenters numSamples i); [congruence|simpl; lia]).
             destruct Hfull as [_ ->]; [lia|]. f_equal.
             unfold cluster_mean. rewrite !map_map. reflexivity.
          -- intros Hnil. rewrite Hnil in Hempty. cbn [length] in Hempty.
             destruct Hempty as [_ ->]; [lia|]. exists (rng w0). split; [exact Hrng|].
             reflexivity.
        * rewrite Hother by exact Hne. apply Hdone. lia.
      + intros c Hc. rewrite Hother by lia. apply Hrest. lia. }
  split; [exact Hlen|]. exact Hdone.
Qed.

(** *** Step 1: the table of half distances *)

(** A loop over [start .. start+m-1], with an invariant that knows the
   position. *)
Lemma fold_left_seq_from {A} (P : nat -> A -> Prop) (f : A -> nat -> A)
    (start m : nat) (a : A) :
  P 0 a ->
  (forall i a, i < m -> P i a -> P (S i) (f a (start + i))) ->
  P m (fold_left f (seq start m) a).
Proof.
  intros H0 Hstep. induction m as [|m IH]; [exact H0|].
  rewrite seq_S, fold_left_app. cbn [fold_left].
  apply Hstep; [lia|]. apply IH. intros i a' Hi. apply Hstep. lia.
Qed.

Lemma half_table_pair index cs n (h h' : list num) (W : nat -> nat -> Prop) (j k : nat) :
  n * n <= length h -> j < k -> k < n ->
  half_table index cs n h h' W ->
  half_table index cs n h (step1_pair index cs n j h' k)
             (fun a b => W a b \/ (a = j /\ b = k)).
Proof.
  intros Hroom Hjk Hk (Hlen & Hin & Hout). unfold step1_pair, half_table.
  rewrite !length_insert. split; [exact Hlen|].
  assert (j * n + k < length h') as Hjk_lt
    by (pose proof (flat_index_lt n n j k ltac:(lia) Hk); lia).
  assert (k * n + j < length h') as Hkj_lt
    by (pose proof (flat_index_lt n n k j Hk ltac:(lia)); lia).
  split.
  - intros a b Hab Hb Hw.
    assert (a * n + b <> k * n + j) as Hne1.
    { intros Heq. apply flat_index_inj in Heq as [-> ->]; lia. }
    assert (b * n + a <> j * n + k) as Hne2.
    { intros Heq. apply flat_index_inj in Heq as [-> ->]; lia. }
    rewrite (list_lookup_total_insert_ne _ (k * n + j) (a * n + b)) by congruence.
    destruct (decide (a = j /\ b = k)) as [[-> ->]|Hother].
    + rewrite list_lookup_total_insert_eq by exact Hjk_lt.
      rewrite list_lookup_total_insert_eq by (rewrite length_insert; exact Hkj_lt).
      split; reflexivity.
    + destruct Hw as [Hw|Hw]; [|contradiction].
      assert (a * n + b <> j * n + k) as Hne3.
      { intros Heq. apply flat_index_inj in Heq as [-> ->]; [|lia|lia]. apply Hother.
        split; reflexivity. }
      assert (b * n + a <> k * n + j) as Hne4.
      { intros Heq. apply flat_index_inj in Heq as [-> ->]; [|lia|lia]. apply Hother.
        split; reflexivity. }
      rewrite (list_lookup_total_insert_ne _ (j * n + k) (a * n + b)) by congruence.
      rewrite (list_lookup_total_insert_ne _ (k * n + j) (b * n + a)) by congruence.
      rewrite (list_lookup_total_insert_ne _ (j * n + k) (b * n + a)) by congruence.
      apply Hin; assumption.
  - intros p Hp.
    destruct (Hp j k Hjk Hk (or_intror (conj eq_refl eq_refl))) as [Hp1 Hp2].
    rewrite !list_lookup_total_insert_ne by congruence.
    apply Hout. intros a b Hab Hb Hw. apply Hp; [assumption|assumption|left; exact Hw].
Qed.

Lemma half_table_ext index cs n (h h' : list num) (W W' : nat -> nat -> Prop) :
  (forall a b, a < b -> b < n -> (W a b <-> W' a b)) ->
  half_table index cs n h h' W -> half_table index cs n h h' W'.
Proof.
  intros Hext (Hlen & Hin & Hout). split; [exact Hlen|]. split.
  - intros a b Hab Hb Hw. apply Hin; [assumption|assumption|]. apply Hext; assumption.
  - intros p Hp. apply Hout. intros a b Hab Hb Hw. apply Hp; [assumption|assumption|].
    apply Hext; assumption.
Qed.

Lemma step1_table index (cs : VectorArray) (numCenters : nat) (h : list num) :
  numCenters * numCenters <= length h ->
  half_table index cs numCenters h (step1 index cs numCenters h) (fun _ _ => True).
Proof.
  intros Hroom. unfold step1.
  apply (half_table_ext index cs numCenters h _ (fun a _ => a < numCenters));
    [intros a b Hab Hb; split; [trivial|lia]|].
  apply (fold_left_seq_ind (fun j h' => half_table index cs numCenters h h' (fun a _ => a < j))).
  - split; [reflexivity|]. split; [intros a b _ _ Ha; lia|reflexivity].
  - intros j h1 Hj Hrows.
    apply (half_table_ext index cs numCenters h _
             (fun a b => a < j \/ (a = j /\ b < j + 1 + (numCenters - (j + 1)))));
      [intros a b Hab Hb; lia|].
    apply (fold_left_seq_from
             (fun i h' => half_table index cs numCenters h h'
                            (fun a b => a < j \/ (a = j /\ b < j + 1 + i)))).
    + apply (half_table_ext index cs numCenters h h1 (fun a _ => a < j)); [|exact Hrows].
      intros a b Hab Hb. lia.
    + intros i h2 Hi Hrow.
      apply (half_table_ext index cs numCenters h _
               (fun a b => (a < j \/ (a = j /\ b < j + 1 + i)) \/ (a = j /\ b = j + 1 + i)));
        [intros a b Hab Hb; lia|].
      apply half_table_pair; [exact Hroom|lia|lia|exact Hrow].
Qed.

(** X11.  Step 1 fills a symmetric table: for centers [j < k] both
   [halfcdist[j * numCenters + k]] and [halfcdist[k * numCenters + j]]
   hold half the distance from center [j] to center [k], computed once,
   with the lower-numbered center as first argument, and stored as a
   [float]; the diagonal is not written. *)
Theorem step1_spec index (cs : VectorArray) (numCenters : nat) (halfcdist : list num) :
  numCenters * numCenters <= length halfcdist ->
  let halfcdist' := step1 index cs numCenters halfcdist in
  length halfcdist' = length halfcdist /\
  (forall j k, j < k -> k < numCenters ->
     halfcdist' !!! (j * numCenters + k)
     = to_float (fmul half (KMEANS_DISTANCE_PROC index (VectorArrayGet cs j)
                                                   (VectorArrayGet cs k))) /\
     halfcdist' !!! (k * numCenters + j) = halfcdist' !!! (j * numCenters + k)) /\
  (forall j, j < numCenters ->
     halfcdist' !!! (j * numCenters + j) = halfcdist !!! (j * numCenters + j)).
Proof.
  intros Hroom. cbn zeta.
  destruct (step1_table index cs numCenters halfcdist Hroom) as (Hlen & Hin & Hout).
  split; [exact Hlen|]. split.
  - intros j k Hjk Hk. destruct (Hin j k Hjk Hk I) as [H1 H2].
    split; [exact H1|]. rewrite H1, H2. reflexivity.
  - intros j Hj. apply Hout. intros a b Hab Hb _. split.
    + intros Heq. apply flat_index_inj in Heq as [-> ->]; lia.
    + intros Heq. apply flat_index_inj in Heq as [-> ->]; lia.
Qed.

(** *** The distance to the closest other center *)

Lemma compute_s_lookup (numCenters : nat) (h sc : list num) (j : nat) :
  numCenters <= length sc -> j < numCenters ->
  compute_s numCenters h sc !!! j = closest_other numCenters h j.
Proof.
  intros Hroom Hj. unfold compute_s.
  destruct (fold_update_spec (fun j : nat => j)
              (fun j (_ : num) => closest_other numCenters h j)
              (seq 0 numCenters) sc) as (_ & _ & Hin).
  { rewrite list_fmap_id. apply NoDup_seq. }
  apply Hin; [apply elem_of_seq|]; lia.
Qed.

Lemma closest_other_min (Horder : OrderLaws) (numCenters : nat) (h : list num) (j : nat) :
  let m := closest_other numCenters h j in
  flt FLT_MAX m = false /\
  (forall k, k < numCenters -> k <> j -> flt (h !!! (j * numCenters + k)) m = false) /\
  (m = FLT_MAX \/ exists k, k < numCenters /\ k <> j /\ m = h !!! (j * numCenters + k)).
Proof.
  cbn zeta. unfold closest_other.
  apply (fold_left_seq_ind
           (fun i m =>
              flt FLT_MAX m = false /\
              (forall k, k < i -> k <> j -> flt (h !!! (j * numCenters + k)) m = false) /\
              (m = FLT_MAX \/ exists k, k < i /\ k <> j /\ m = h !!! (j * numCenters + k)))).
  - split; [apply (flt_irrefl Horder)|]. split; [intros k Hk; lia|left; reflexivity].
  - intros i m Hi (Hcap & Hmin & Hcell).
    destruct (j =? i) eqn:Hji.
    + apply Nat.eqb_eq in Hji. subst i.
      split; [exact Hcap|]. split.
      * intros k Hk Hne. apply Hmin; [lia|exact Hne].
      * destruct Hcell as [->|(k & Hk & Hne & ->)]; [left; reflexivity|].
        right. exists k. split; [lia|]. split; [exact Hne|reflexivity].
    + apply Nat.eqb_neq in Hji.
      destruct (flt (h !!! (j * numCenters + i)) m) eqn:Hlt.
      * assert (forall x, flt x m = false -> flt x (h !!! (j * numCenters + i)) = false)
          as Hbelow.
        { intros x Hx. destruct (flt x (h !!! (j * numCenters + i))) eqn:Hxe; [|reflexivity].
          rewrite (flt_trans Horder _ _ _ Hxe Hlt) in Hx. discriminate. }
        split; [apply Hbelow, Hcap|]. split.
        -- intros k Hk Hne. destruct (decide (k = i)) as [->|Hki];
             [apply (flt_irrefl Horder)|].
           apply Hbelow, Hmin; [lia|exact Hne].
        -- right. exists i. split; [lia|]. split; [congruence|reflexivity].
      * split; [exact Hcap|]. split.
        -- intros k Hk Hne. destruct (decide (k = i)) as [->|Hki]; [exact Hlt|].
           apply Hmin; [lia|exact Hne].
        -- destruct Hcell as [->|(k & Hk & Hne & ->)]; [left; reflexivity|].
           right. exists k. split; [lia|]. split; [exact Hne|reflexivity].
Qed.

(** X12.  [s[j]] is a smallest entry of row [j] of [halfcdist] off the
   diagonal, capped at [FLT_MAX], under the comparison of the code: no
   such entry is less than [s[j]], [FLT_MAX] is not less than it, and
   it is [FLT_MAX] or one of the entries.  This needs of [<] only that
   it is irreflexive and transitive, which holds of IEEE 754 with NaN
   entries too (a NaN is less than nothing and is never taken). *)
Theorem compute_s_spec (numCenters : nat) (halfcdist s0 : list num) :
  OrderLaws ->
  numCenters <= length s0 ->
  forall j, j < numCenters ->
    let sj := compute_s numCenters halfcdist s0 !!! j in
    flt FLT_MAX sj = false /\
    (forall k, k < numCenters -> k <> j ->
       flt (halfcdist !!! (j * numCenters + k)) sj = false) /\
    (sj = FLT_MAX \/
     exists k, k < numCenters /\ k <> j /\ sj = halfcdist !!! (j * numCenters + k)).
Proof.
  intros Horder Hroom j Hj. cbn zeta. rewrite compute_s_lookup by assumption.
  apply (closest_other_min Horder).
Qed.

(** *** The initial assignment *)

(** What the setup leaves in row [j]: the distances to the seeded
   centers, stored as [float]s, and the result of their scan. *)
Lemma elkan_setup_rows index (samples cs : VectorArray) (w : world) (st0 : elkan_state) :
  elkan_setup index samples cs w = Ok st0 ->
  forall j, j < va_length samples ->
    upperBound st0 !!! j = (initial_closest (va_maxlen cs) (lowerBound st0) j).1 /\
    closestCenters st0 !!! j = (initial_closest (va_maxlen cs) (lowerBound st0) j).2 /\
    forall k, k < va_maxlen cs ->
      lowerBound st0 !!! (j * va_maxlen cs + k)
      = to_float (KMEANS_DISTANCE_PROC index (VectorArrayGet samples j)
                                       (VectorArrayGet (centers st0) k)).
Proof.
  intros Hsetup j Hj. unfold elkan_setup in Hsetup.
  destruct (_ >? _)%Z; [discriminate|].
  destruct (indexing_overflows _); [discriminate|].
  pose proof (InitCenters_spec index samples cs
                (replicate (va_length samples * va_maxlen cs) zero) w) as Hinit.
  rewrite length_replicate in Hinit. specialize (Hinit (Nat.le_refl _)).
  destruct (InitCenters _ _ _ _ _) as [[[cs1 lb1] w1]|e]; [|discriminate].
  cbn [bind] in Hsetup.
  destruct Hinit as (_ & _ & _ & Hall).
  pose proof (initial_assignment_spec (va_length samples) (va_maxlen cs) lb1
                (replicate (va_length samples) zero) (replicate (va_length samples) 0))
    as Hassign.
  rewrite !length_replicate in Hassign.
  specialize (Hassign (Nat.le_refl _) (Nat.le_refl _)).
  destruct (initial_assignment _ _ _ _ _) as [ub1 cc1].
  cbn [fst snd] in Hassign. destruct Hassign as (_ & _ & Hrow).
  injection Hsetup as <-. cbn [centers closestCenters upperBound lowerBound].
  destruct (Hrow j Hj) as [Hub Hcc].
  split; [exact Hub|]. split; [exact Hcc|]. intros k Hk. apply Hall; assumption.
Qed.

Lemma initial_closest_min (Horder : OrderLaws) (numCenters : nat) (lb : list num) (j : nat) :
  let r := initial_closest numCenters lb j in
  (r.2 < numCenters /\ r.1 = lb !!! (j * numCenters + r.2) /\
   flt r.1 FLT_MAX = true /\
   (forall k, k < numCenters -> flt (lb !!! (j * numCenters + k)) r.1 = false) /\
   (forall k, k < r.2 -> fle (lb !!! (j * numCenters + k)) r.1 = false)) \/
  (r.1 = FLT_MAX /\ r.2 = 0 /\
   forall k, k < numCenters -> flt (lb !!! (j * numCenters + k)) FLT_MAX = false).
Proof.
  cbn zeta. unfold initial_closest.
  apply (fold_left_seq_ind
           (fun i (r : num * nat) =>
              (r.2 < i /\ r.1 = lb !!! (j * numCenters + r.2) /\
               flt r.1 FLT_MAX = true /\
               (forall k, k < i -> flt (lb !!! (j * numCenters + k)) r.1 = false) /\
               (forall k, k < r.2 -> fle (lb !!! (j * numCenters + k)) r.1 = false)) \/
              (r.1 = FLT_MAX /\ r.2 = 0 /\
               forall k, k < i -> flt (lb !!! (j * numCenters + k)) FLT_MAX = false))).
  - cbn [fst snd]. right. split; [reflexivity|]. split; [reflexivity|]. intros k Hk. lia.
  - intros i [m c] Hi Hcase. cbn [fst snd] in *.
    destruct (flt (lb !!! (j * numCenters + i)) m) eqn:Hlt; cbn [fst snd].
    + left. split; [lia|]. split; [reflexivity|].
      assert (forall x, flt x m = false -> flt x (lb !!! (j * numCenters + i)) = false)
        as Hbelow.
      { intros x Hx. destruct (flt x (lb !!! (j * numCenters + i))) eqn:Hxe; [|reflexivity].
        rewrite (flt_trans Horder _ _ _ Hxe Hlt) in Hx. discriminate. }
      assert (forall x, flt x m = false -> fle x (lb !!! (j * numCenters + i)) = false)
        as Hbefore.
      { intros x Hx. destruct (fle x (lb !!! (j * numCenters + i))) eqn:Hxe; [|reflexivity].
        rewrite (fle_flt_trans Horder _ _ _ Hxe Hlt) in Hx. discriminate. }
      destruct Hcase as [(Hc & Hm & Hcap & Hmin & Hfirst)|(Hm & Hc & Hnone)].
      * split; [apply (flt_trans Horder _ _ _ Hlt Hcap)|]. split.
        -- intros k Hk. destruct (decide (k = i)) as [->|Hne]; [apply (flt_irrefl Horder)|].
           apply Hbelow, Hmin. lia.
        -- intros k Hk. apply Hbefore, Hmin. lia.
      * subst m. split; [exact Hlt|]. split.
        -- intros k Hk. destruct (decide (k = i)) as [->|Hne]; [apply (flt_irrefl Horder)|].
           apply Hbelow, Hnone. lia.
        -- intros k Hk. apply Hbefore, Hnone. lia.
    + destruct Hcase as [(Hc & Hm & Hcap & Hmin & Hfirst)|(Hm & Hc & Hnone)].
      * left. split; [lia|]. split; [exact Hm|]. split; [exact Hcap|]. split; [|exact Hfirst].
        intros k Hk. destruct (decide (k = i)) as [->|Hne]; [exact Hlt|]. apply Hmin. lia.
      * right. split; [exact Hm|]. split; [exact Hc|].
        intros k Hk. destruct (decide (k = i)) as [->|Hne]; [rewrite <- Hm; exact Hlt|].
        apply Hnone. lia.
Qed.

(** X13.  The initial assignment is the argmin of the distances as they
   were stored, that is rounded to [float], under the comparisons of
   the code.  When some center of a sample is stored below [FLT_MAX],
   the sample is assigned to a center than whose stored distance none
   is less, the lowest-numbered such center (every earlier one is
   stored strictly farther, or as a NaN), and its upper bound is that
   stored distance.  Otherwise it is assigned to center 0 with the
   upper bound [FLT_MAX].  This needs of the comparisons only the laws
   that IEEE 754 gives them. *)
Theorem elkan_setup_nearest index (samples cs : VectorArray) (w : world)
    (st0 : elkan_state) :
  OrderLaws ->
  elkan_setup index samples cs w = Ok st0 ->
  forall j, j < va_length samples ->
    let stored k :=
      to_float (KMEANS_DISTANCE_PROC index (VectorArrayGet samples j)
                                     (VectorArrayGet (centers st0) k)) in
    let c := closestCenters st0 !!! j in
    (c < va_maxlen cs /\
     upperBound st0 !!! j = stored c /\
     flt (stored c) FLT_MAX = true /\
     (forall k, k < va_maxlen cs -> flt (stored k) (stored c) = false) /\
     (forall k, k < c -> fle (stored k) (stored c) = false)) \/
    (c = 0 /\
     upperBound st0 !!! j = FLT_MAX /\
     forall k, k < va_maxlen cs -> flt (stored k) FLT_MAX = false).
Proof.
  intros Horder Hsetup j Hj. cbn zeta.
  destruct (elkan_setup_rows index samples cs w st0 Hsetup j Hj) as (-> & -> & Hcells).
  pose proof (initial_closest_min Horder (va_maxlen cs) (lowerBound st0) j) as Hcase.
  cbn zeta in Hcase.
  destruct (initial_closest (va_maxlen cs) (lowerBound st0) j) as [m c]. cbn [fst snd] in *.
  destruct Hcase as [(Hc & Hm & Hcap & Hmin & Hfirst)|(Hm & Hc0 & Hnone)].
  - left. rewrite (Hcells c Hc) in Hm. subst m.
    split; [exact Hc|]. split; [reflexivity|]. split; [exact Hcap|]. split.
    + intros k Hk. rewrite <- (Hcells k Hk). apply Hmin, Hk.
    + intros k Hk. rewrite <- (Hcells k) by lia. apply Hfirst, Hk.
  - right. split; [exact Hc0|]. split; [exact Hm|].
    intros k Hk. rewrite <- (Hcells k Hk). apply Hnone, Hk.
Qed.

(** *** The state in which pass 0 starts *)

Lemma elkan_reaches_0 index samples st0 st :
  elkan_reaches index samples st0 0 st -> st = st0.
Proof. intros H. inversion H. reflexivity. Qed.

(** *** The weights of k-means++ and the choice of a sample *)

Lemma choose_sample_from (weight : list num) (choice0 : num) (n j : nat) :
  let r := choose_sample weight j n (choice_after weight choice0 j) in
  j <= r <= j + n /\
  (forall i, j <= i -> i < r -> fle (choice_after weight choice0 (S i)) zero = false) /\
  (r < j + n -> fle (choice_after weight choice0 (S r)) zero = true).
Proof.
  cbn zeta. revert j. induction n as [|n IH]; intros j; cbn [choose_sample].
  - split; [lia|]. split; [intros i Hi Hlt; lia|lia].
  - change (fsub (choice_after weight choice0 j) (weight !!! j))
      with (choice_after weight choice0 (S j)).
    destruct (fle (choice_after weight choice0 (S j)) zero) eqn:Hstop.
    + split; [lia|]. split; [intros i Hi Hlt; lia|]. intros _. exact Hstop.
    + destruct (IH (S j)) as (Hrange & Hbefore & Hat).
      split; [lia|]. split.
      * intros i Hi Hlt. destruct (decide (i = j)) as [->|Hne]; [exact Hstop|].
        apply Hbefore; [lia|exact Hlt].
      * intros Hlt. apply Hat. lia.
Qed.

(** X15.  The choice of the next center in [InitCenters], in any
   arithmetic: the loop takes the weights from [choice] one after the
   other and stops at the first sample after whose weight what is left
   of [choice] compares [<= 0]; when that never happens it stops at the
   last sample it is allowed, [n], and never beyond. *)
Theorem choose_sample_spec (weight : list num) (n : nat) (choice : num) :
  let r := choose_sample weight 0 n choice in
  r <= n /\
  (forall i, i < r -> fle (choice_after weight choice (S i)) zero = false) /\
  (r < n -> fle (choice_after weight choice (S r)) zero = true).
Proof.
  cbn zeta.
  destruct (choose_sample_from weight choice n 0) as (Hrange & Hbefore & Hat).
  cbn [choice_after] in *.
  split; [lia|]. split.
  - intros i Hi. apply Hbefore; [lia|exact Hi].
  - intros Hlt. apply Hat. lia.
Qed.

Lemma fold_left_seq_ext {A} (f g : A -> nat -> A) (n : nat) (a : A) :
  (forall x i, i < n -> f x i = g x i) ->
  fold_left f (seq 0 n) a = fold_left g (seq 0 n) a.
Proof.
  intros Hext. induction n as [|n IH]; [reflexivity|].
  rewrite seq_S, !fold_left_app. cbn [fold_left Nat.add].
  rewrite IH by (intros x i Hi; apply Hext; lia). apply Hext. lia.
Qed.

(** The distance loop for the new center [i], on the weights and
   their sum. *)
Lemma init_distance_weights_from index (samples cs : VectorArray) (numCenters i : nat)
    (n : nat) (lb weight : list num) :
  n <= length weight ->
  let r := fold_left (init_distance index samples cs numCenters i) (seq 0 n)
                     (lb, weight, zero) in
  length r.1.2 = length weight /\
  (forall j, j < n ->
     let square :=
       fmul (KMEANS_DISTANCE_PROC index (VectorArrayGet samples j) (VectorArrayGet cs i))
            (KMEANS_DISTANCE_PROC index (VectorArrayGet samples j) (VectorArrayGet cs i)) in
     r.1.2 !!! j = if flt square (weight !!! j) then to_float square else weight !!! j) /\
  (forall j, n <= j -> r.1.2 !!! j = weight !!! j) /\
  r.2 = fold_left (fun sum j => fadd sum (r.1.2 !!! j)) (seq 0 n) zero.
Proof.
  intros Hroom. cbn zeta.
  induction n as [|n IH].
  - cbn [seq fold_left fst snd].
    split; [reflexivity|]. split; [intros j Hj; lia|]. split; reflexivity.
  - rewrite seq_S, !fold_left_app. cbn [fold_left Nat.add].
    destruct IH as (Hlen & Hdone & Hrest & Hsum); [lia|].
    destruct (fold_left _ (seq 0 n) _) as [[lb1 weight1] sum1]. cbn [fst snd] in *.
    unfold init_distance.
    set (square := fmul (KMEANS_DISTANCE_PROC index (VectorArrayGet samples n)
                                              (VectorArrayGet cs i))
                        (KMEANS_DISTANCE_PROC index (VectorArrayGet samples n)
                                              (VectorArrayGet cs i))).
    destruct (flt square (weight1 !!! n)) eqn:Hless; cbn [fst snd].
    + rewrite length_insert. split; [exact Hlen|].
      split; [|split].
      * intros j Hj. destruct (decide (j = n)) as [->|Hne].
        -- rewrite list_lookup_total_insert_eq by lia. fold square.
           rewrite <- (Hrest n (Nat.le_refl _)), Hless. reflexivity.
        -- rewrite list_lookup_total_insert_ne by congruence. apply Hdone. lia.
      * intros j Hj. rewrite list_lookup_total_insert_ne by lia. apply Hrest. lia.
      * rewrite Hsum. f_equal. apply fold_left_seq_ext.
        intros x j Hj. rewrite list_lookup_total_insert_ne by lia. reflexivity.
    + split; [exact Hlen|]. split; [|split].
      * intros j Hj. destruct (decide (j = n)) as [->|Hne].
        -- fold square. rewrite <- (Hrest n (Nat.le_refl _)), Hless. reflexivity.
        -- apply Hdone. lia.
      * intros j Hj. apply Hrest. lia.
      * rewrite Hsum. reflexivity.
Qed.

(** X16.  The distance loop of [InitCenters] for a new center [i], in
   any arithmetic: [weight[j]] becomes the squared distance from sample
   [j] to center [i], rounded to [float] by the store, when that square
   (a [double]) is less than the old weight, and is left as it was
   otherwise; the weights of other indices are not touched; [sum] is
   the sum of the new weights, added in sample order in [double]. *)
Theorem init_distance_weights index (samples cs : VectorArray)
    (numCenters numSamples i : nat) (lowerBound weight : list num) :
  numSamples <= length weight ->
  let r := fold_left (init_distance index samples cs numCenters i) (seq 0 numSamples)
                     (lowerBound, weight, zero) in
  let weight' := r.1.2 in
  let sum := r.2 in
  length weight' = length weight /\
  (forall j, j < numSamples ->
     let square :=
       fmul (KMEANS_DISTANCE_PROC index (VectorArrayGet samples j) (VectorArrayGet cs i))
            (KMEANS_DISTANCE_PROC index (VectorArrayGet samples j) (VectorArrayGet cs i)) in
     weight' !!! j = if flt square (weight !!! j) then to_float square else weight !!! j) /\
  (forall j, numSamples <= j -> weight' !!! j = weight !!! j) /\
  sum = fold_left (fun sum j => fadd sum (weight' !!! j)) (seq 0 numSamples) zero.
Proof.
  intros Hroom. cbn zeta.
  destruct (init_distance_weights_from index samples cs numCenters i numSamples
              lowerBound weight Hroom) as (Hlen & Hdone & Hrest & Hsum).
  repeat split; assumption.
Qed.

(** *** The dimension of the trained centers *)

Lemma normalize_if_needed_length (normproc : option (list num -> num)) (vec : list num) :
  length (normalize_if_needed normproc vec) = length vec.
Proof.
  destruct normproc as [f|]; [|reflexivity]. simpl. unfold ApplyNorm.
  destruct (flt zero (f vec)); [apply length_map|reflexivity].
Qed.

Lemma sum_samples_dims (samples : VectorArray) (numSamples numCenters dimensions : nat)
    (closest : list nat) :
  let r := sum_samples samples numSamples numCenters dimensions closest in
  length r.1 = numCenters /\ Forall (fun v => length v = dimensions) r.1.
Proof.
  cbn zeta. unfold sum_samples.
  apply (fold_left_preserves
           (fun acc : list (list num) * list Z =>
              length acc.1 = numCenters /\ Forall (fun v => length v = dimensions) acc.1)).
  - intros [sums counts] j _ (Hlen & Hall). unfold add_sample. cbn [fst snd] in *.
    rewrite length_insert. split; [exact Hlen|].
    destruct (decide (closest !!! j < length sums)) as [Hin|Hout].
    + apply Forall_insert; [exact Hall|].
      rewrite (fold_insert_length (fun k : nat => k)
                 (fun k (c : list num) =>
                    to_float (fadd (c !!! k) (VectorArrayGet samples j !!! k)))).
      apply (Forall_at _ _ _ Hall Hin).
    + rewrite list_insert_ge by lia. exact Hall.
  - cbn [fst]. rewrite length_replicate. split; [reflexivity|].
    apply Forall_replicate. apply length_replicate.
Qed.

Lemma new_centers_dims index (samples : VectorArray)
    (numSamples numCenters dimensions : nat) (closest : list nat) (w : world) :
  let ncs := (new_centers index samples numSamples numCenters dimensions closest w).1 in
  length ncs = numCenters /\ Forall (fun v => length v = dimensions) ncs.
Proof.
  cbn zeta. unfold new_centers.
  pose proof (sum_samples_dims samples numSamples numCenters dimensions closest) as Hsums.
  destruct (sum_samples _ _ _ _ _) as [sums counts]. cbn [fst] in Hsums.
  apply (fold_left_preserves
           (fun acc : list (list num) * world =>
              length acc.1 = numCenters /\ Forall (fun v => length v = dimensions) acc.1));
    [|exact Hsums].
  intros [ncs w0] j _ (Hlen & Hall). unfold finish_center. cbn [fst] in *.
  assert (length (ncs !!! j) = dimensions \/ length ncs <= j) as Hcell.
  { destruct (decide (j < length ncs)) as [Hin|Hout]; [left|right; lia].
    apply (Forall_at _ _ _ Hall Hin). }
  destruct (0 <? counts !!! j)%Z.
  - cbn [fst]. rewrite length_insert. split; [exact Hlen|].
    destruct Hcell as [Hcell|Hout]; [|rewrite list_insert_ge by lia; exact Hall].
    apply Forall_insert; [exact Hall|].
    rewrite normalize_if_needed_length, !length_map. exact Hcell.
  - rewrite random_vector_stream. cbn [fst]. rewrite length_insert. split; [exact Hlen|].
    destruct (decide (j < length ncs)) as [Hin|Hout];
      [|rewrite list_insert_ge by lia; exact Hall].
    apply Forall_insert; [exact Hall|].
    rewrite normalize_if_needed_length, length_map, length_seq. reflexivity.
Qed.

Lemma elkan_pass_dims index samples iteration st :
  va_maxlen (centers st) <= length (va_items (centers st)) ->
  forall k, k < va_maxlen (centers st) ->
    length (VectorArrayGet (centers (elkan_pass index samples iteration st).1) k)
    = va_dim (centers st).
Proof.
  intros Hroom k Hk. unfold elkan_pass, assign_phase, update_phase.
  cbn [centers fst closestCenters wld].
  match goal with |- context [new_centers ?i ?sa ?ns ?nc ?d ?cl ?w] =>
    pose proof (new_centers_dims i sa ns nc d cl w) as Hdims
  end.
  destruct (new_centers _ _ _ _ _ _ _) as [newCenters w1]. cbn [fst centers] in *.
  destruct Hdims as [Hlen Hall].
  destruct (commit_centers_spec (va_maxlen (centers st)) newCenters (centers st) Hroom)
    as (_ & _ & Hget).
  rewrite (Hget k Hk).
  apply (Forall_at _ _ _ Hall). lia.
Qed.

Lemma elkan_pass_room index samples iteration st :
  va_maxlen (centers st) <= length (va_items (centers st)) ->
  va_maxlen (centers (elkan_pass index samples iteration st).1)
  <= length (va_items (centers (elkan_pass index samples iteration st).1)).
Proof.
  intros Hroom. unfold elkan_pass, assign_phase, update_phase.
  cbn [centers fst closestCenters wld].
  destruct (new_centers _ _ _ _ _ _ _) as [newCenters w2]. cbn [fst centers].
  destruct (commit_centers_spec (va_maxlen (centers st)) newCenters (centers st) Hroom)
    as (-> & -> & _). exact Hroom.
Qed.

Lemma elkan_loop_dims index samples (n iteration : nat) (st st' : elkan_state) trace :
  0 < n ->
  va_maxlen (centers st) <= length (va_items (centers st)) ->
  elkan_loop index samples n iteration st = Ok (st', trace) ->
  va_maxlen (centers st') <= length (va_items (centers st')) /\
  forall k, k < va_maxlen (centers st) ->
    length (VectorArrayGet (centers st') k) = va_dim (centers st).
Proof.
  revert iteration st st' trace.
  induction n as [|n IH]; intros iteration st st' trace Hn Hroom; [lia|].
  cbn [elkan_loop].
  destruct (CHECK_FOR_INTERRUPTS (wld st)) as [w1|e]; cbn [bind]; [|discriminate].
  pose proof (elkan_pass_dims index samples iteration (with_world st w1) Hroom) as Hdims.
  pose proof (elkan_pass_centers index samples iteration (with_world st w1)) as Hshape.
  pose proof (elkan_pass_room index samples iteration (with_world st w1) Hroom) as Hroom1.
  destruct (elkan_pass _ _ _ _) as [st1 changes]. cbn [fst with_world centers] in *.
  destruct Hshape as (_ & Hmax & Hdim).
  destruct (_ && _).
  - intros [= <- <-]. split; [exact Hroom1|exact Hdims].
  - destruct (elkan_loop index samples n (S iteration) st1) as [[st2 tr]|e] eqn:Hloop;
      cbn [bind]; [|discriminate].
    intros [= <- <-].
    destruct n as [|n'].
    + cbn [elkan_loop] in Hloop. injection Hloop as <- <-. split; [exact Hroom1|exact Hdims].
    + destruct (IH (S iteration) st1 st2 tr ltac:(lia) Hroom1 Hloop) as [Hroom2 Hdims2].
      split; [exact Hroom2|]. intros k Hk. rewrite <- Hdim. apply Hdims2. lia.
Qed.

(** X17.  Every center [ElkanKmeans] returns has exactly [centers->dim]
   coordinates: the centers of the last pass are means or random
   vectors of that dimension, whatever the dimensions of the samples
   are. *)
Theorem ElkanKmeans_dims index (samples cs : VectorArray) (type : IvfflatType)
    (w : world) cs' w' :
  va_maxlen cs <= length (va_items cs) ->
  ElkanKmeans index samples cs type w = Ok (cs', w') ->
  forall k, k < va_maxlen cs -> length (VectorArrayGet cs' k) = va_dim cs.
Proof.
  intros Hroom. unfold ElkanKmeans, elkan_setup.
  destruct (_ >? _)%Z; [discriminate|].
  destruct (indexing_overflows _); [discriminate|].
  pose proof (InitCenters_spec index samples cs
                (replicate (va_length samples * va_maxlen cs) zero) w) as Hinit.
  rewrite length_replicate in Hinit. specialize (Hinit (Nat.le_refl _)).
  destruct (InitCenters _ _ _ _ _) as [[[cs1 lb1] w1]|e] eqn:Hseed; [|discriminate].
  cbn [bind]. destruct Hinit as (_ & Hmax & Hitems & _).
  apply InitCenters_shape in Hseed as (_ & _ & Hdim).
  destruct (initial_assignment _ _ _ _ _) as [ub cc]. cbn [bind].
  destruct (elkan_loop _ _ _ _ _) as [[st1 tr]|e] eqn:Hloop; [|discriminate].
  cbn [bind]. intros [= <- <-].
  apply elkan_loop_dims in Hloop as [_ Hdims]; cbn [centers] in *; [|lia|lia].
  intros k Hk. rewrite <- Hdim. apply Hdims. lia.
Qed.

Lemma new_centers_rng index (samples : VectorArray)
    (numSamples numCenters dimensions : nat) (closest : list nat) (w : world) :
  rng w <= rng (new_centers index samples numSamples numCenters dimensions closest w).2.
Proof.
  unfold new_centers. destruct (sum_samples _ _ _ _ _) as [sums counts].
  apply (fold_left_preserves (fun acc : list (list num) * world => rng w <= rng acc.2));
    [|cbn [snd]; lia].
  intros [ncs w0] j _ Hw0. cbn [snd] in Hw0. unfold finish_center.
  destruct (0 <? counts !!! j)%Z; [exact Hw0|].
  rewrite random_vector_stream. cbn [snd rng]. lia.
Qed.


(** *** A single center *)

(** With every sample at center 0 and no other center, Steps 2 and 3
   change nothing. *)
Lemma assign_points_single index (samples cs : VectorArray) (numSamples : nat)
    (hc sc : list num) (rjreset : bool) (a : assignment) :
  (forall j, j < numSamples -> a_closest a !!! j = 0) ->
  assign_points index samples cs numSamples 1 hc sc rjreset a = a.
Proof.
  intros Hzero. unfold assign_points.
  apply (fold_left_preserves (fun a' => a' = a)); [|reflexivity].
  intros a' j Hj ->. apply elem_of_seq in Hj. unfold step23.
  destruct (fle _ _); [reflexivity|].
  cbn [seq fold_left]. unfold step3. rewrite (Hzero j) by lia. reflexivity.
Qed.

Lemma assigned_all (closest : list nat) (n c : nat) :
  (forall j, j < n -> closest !!! j = c) -> assigned closest n c = seq 0 n.
Proof.
  intros Hall. induction n as [|n IH]; [reflexivity|].
  rewrite assigned_S, IH by (intros j Hj; apply Hall; lia).
  rewrite decide_True by (apply Hall; lia). rewrite seq_S. reflexivity.
Qed.

(** One pass with a single center: nothing is reassigned, and the
   center becomes the mean of all the samples. *)
Lemma elkan_pass_single index (samples : VectorArray) (iteration : nat)
    (st : elkan_state) :
  va_maxlen (centers st) = 1 ->
  1 <= length (va_items (centers st)) ->
  0 < va_length samples ->
  (Z.of_nat (va_length samples) < 2 ^ 31)%Z ->
  (forall j, j < va_length samples -> closestCenters st !!! j = 0) ->
  let r := elkan_pass index samples iteration st in
  r.2 = 0%Z /\
  closestCenters r.1 = closestCenters st /\
  VectorArrayGet (centers r.1) 0
  = normalize_if_needed (KMEANS_NORM_PROC index)
      (cluster_mean samples (va_dim (centers st)) (seq 0 (va_length samples))).
Proof.
  intros Hone Hroom Hsome Hbound Hzero. cbn zeta.
  unfold elkan_pass, assign_phase. rewrite Hone.
  rewrite assign_points_single by exact Hzero.
  cbn [a_lower a_upper a_closest a_changes snd fst].
  unfold update_phase. cbn [centers closestCenters wld]. rewrite Hone.
  match goal with |- context [new_centers ?i ?sa ?ns ?nc ?d ?cl ?w] =>
    pose proof (new_centers_spec i sa ns nc d cl w Hbound) as Hspec
  end.
  destruct (new_centers _ _ _ _ _ _ _) as [newCenters w1].
  cbn [fst centers closestCenters] in *.
  split; [reflexivity|]. split; [reflexivity|].
  destruct Hspec as [_ Hspec]. destruct (Hspec 0 ltac:(lia)) as [Hmean _].
  rewrite (assigned_all _ _ 0 Hzero) in Hmean.
  destruct (commit_centers_spec 1 newCenters (centers st) Hroom) as (_ & _ & Hget).
  rewrite (Hget 0) by lia. apply Hmean.
  destruct (va_length samples); [lia|discriminate].
Qed.

Lemma elkan_loop_single index (samples : VectorArray) (n : nat)
    (st st' : elkan_state) (trace : list Z) :
  2 <= n ->
  va_maxlen (centers st) = 1 ->
  1 <= length (va_items (centers st)) ->
  0 < va_length samples ->
  (Z.of_nat (va_length samples) < 2 ^ 31)%Z ->
  (forall j, j < va_length samples -> closestCenters st !!! j = 0) ->
  elkan_loop index samples n 0 st = Ok (st', trace) ->
  trace = [0%Z; 0%Z] /\
  VectorArrayGet (centers st') 0
  = normalize_if_needed (KMEANS_NORM_PROC index)
      (cluster_mean samples (va_dim (centers st)) (seq 0 (va_length samples))).
Proof.
  intros Hn Hone Hroom Hsome Hbound Hzero.
  destruct n as [|[|n]]; [lia|lia|]. cbn [elkan_loop].
  destruct (CHECK_FOR_INTERRUPTS (wld st)) as [w1|e]; cbn [bind]; [|discriminate].
  pose proof (elkan_pass_single index samples 0 (with_world st w1) Hone Hroom Hsome Hbound
                Hzero) as Hpass0.
  pose proof (elkan_pass_centers index samples 0 (with_world st w1)) as Hshape0.
  pose proof (elkan_pass_room index samples 0 (with_world st w1)) as Hroom0.
  cbv zeta in Hpass0, Hshape0.
  destruct (elkan_pass index samples 0 (with_world st w1)) as [st1 changes0].
  cbn [fst snd with_world centers closestCenters] in *.
  specialize (Hroom0 ltac:(lia)).
  destruct Hpass0 as (-> & Hclosest0 & _). destruct Hshape0 as (_ & Hmax0 & Hdim0).
  cbn [Z.eqb Nat.eqb negb andb].
  destruct (CHECK_FOR_INTERRUPTS (wld st1)) as [w2|e]; cbn [bind]; [|discriminate].
  pose proof (elkan_pass_single index samples 1 (with_world st1 w2)) as Hpass1.
  cbn [with_world centers closestCenters] in Hpass1.
  specialize (Hpass1 ltac:(congruence) ltac:(lia) Hsome Hbound
                ltac:(rewrite Hclosest0; exact Hzero)).
  cbv zeta in Hpass1.
  destruct (elkan_pass index samples 1 (with_world st1 w2)) as [st2 changes1].
  cbn [fst snd] in Hpass1. destruct Hpass1 as (-> & _ & Hmean).
  cbn [Z.eqb Nat.eqb negb andb].
  intros [= <- <-]. split; [reflexivity|]. rewrite Hmean, Hdim0. reflexivity.
Qed.

(** X19.  A single center: [ElkanKmeans] then reassigns nothing, makes
   exactly two passes (three interrupt checks with the one of the
   seeding) and returns as its center the mean of all the samples,
   normalized when the k-means norm function is configured. *)
Theorem ElkanKmeans_single_center index (samples cs : VectorArray)
    (type : IvfflatType) (w : world) cs' w' :
  va_maxlen cs = 1 ->
  1 <= length (va_items cs) ->
  0 < va_length samples ->
  (Z.of_nat (va_length samples) < 2 ^ 31)%Z ->
  ElkanKmeans index samples cs type w = Ok (cs', w') ->
  checks w' = checks w + 3 /\
  VectorArrayGet cs' 0
  = normalize_if_needed (KMEANS_NORM_PROC index)
      (cluster_mean samples (va_dim cs) (seq 0 (va_length samples))).
Proof.
  intros Hone Hroom Hsome Hbound Hrun.
  assert (exists st0 st' trace,
            elkan_setup index samples cs w = Ok st0 /\
            elkan_loop index samples 500 0 st0 = Ok (st', trace) /\
            cs' = centers st' /\ w' = wld st') as (st0 & st' & trace & Hsetup & Hloop & -> & ->).
  { unfold ElkanKmeans in Hrun.
    destruct (elkan_setup index samples cs w) as [st0|e] eqn:Hsetup; [|discriminate].
    cbn [bind] in Hrun.
    destruct (elkan_loop index samples 500 0 st0) as [[st' trace]|e] eqn:Hloop;
      [|discriminate].
    cbn [bind] in Hrun. injection Hrun as <- <-.
    exists st0, st', trace. repeat split; assumption. }
  destruct (elkan_setup_indices index samples cs w st0 ltac:(lia) ltac:(lia) Hsetup)
    as [Hmax Hvalid].
  pose proof Hvalid as (Hitems & _ & _ & Hlen & _ & _ & _ & Hall).
  rewrite Hmax, Hone in Hitems, Hall.
  assert (forall j, j < va_length samples -> closestCenters st0 !!! j = 0) as Hzero.
  { intros j Hj. pose proof (Forall_at _ _ j Hall ltac:(lia)) as H. cbn beta in H. lia. }
  assert (va_dim (centers st0) = va_dim cs /\ checks (wld st0) = checks w + 1)
    as [Hdim Hchecks].
  { revert Hsetup. unfold elkan_setup.
    destruct (_ >? _)%Z; [discriminate|].
    destruct (indexing_overflows _); [discriminate|].
    pose proof (InitCenters_checks index samples cs
                  (replicate (va_length samples * va_maxlen cs) zero) w) as Hc.
    destruct (InitCenters _ _ _ _ _) as [[[cs1 lb1] w1]|e] eqn:Hseed; [|discriminate].
    cbn [bind]. apply InitCenters_shape in Hseed as (_ & _ & Hd).
    destruct (initial_assignment _ _ _ _ _) as [ub cc]. intros [= <-].
    cbn [centers wld]. split; [exact Hd|]. rewrite Hc, Hone. reflexivity. }
  destruct (elkan_loop_single index samples 500 st0 st' trace ltac:(lia)
              ltac:(congruence) Hitems Hsome Hbound Hzero Hloop) as [Htrace Hmean].
  pose proof (elkan_loop_worlds index samples 500 0 st0) as Hworld.
  rewrite Hloop in Hworld. destruct Hworld as [Hpasses _].
  rewrite Htrace in Hpasses. cbn [length] in Hpasses.
  split; [lia|]. rewrite Hmean, Hdim. reflexivity.
Qed.

(** *** From one pass to the next *)

Lemma elkan_reaches_S index samples st0 (m : nat) st :
  elkan_reaches index samples st0 (S m) st ->
  exists st_prev w0,
    elkan_reaches index samples st0 m st_prev /\
    CHECK_FOR_INTERRUPTS (wld st_prev) = Ok w0 /\
    st = (elkan_pass index samples m (with_world st_prev w0)).1.
Proof. intros H. inversion H; subst. eauto. Qed.

Lemma elkan_reaches_dim index samples st0 iteration st :
  elkan_reaches index samples st0 iteration st ->
  va_dim (centers st) = va_dim (centers st0).
Proof.
  intros Hreach. induction Hreach as [|iteration st w1 Hreach IH Hcheck]; [reflexivity|].
  destruct (elkan_pass_centers index samples iteration (with_world st w1)) as (_ & _ & H).
  rewrite H. exact IH.
Qed.

(** After a pass, a center that has samples is their mean. *)
Lemma elkan_pass_mean index (samples : VectorArray) (iteration : nat)
    (st : elkan_state) (c : nat) :
  (Z.of_nat (va_length samples) < 2 ^ 31)%Z ->
  va_maxlen (centers st) <= length (va_items (centers st)) ->
  c < va_maxlen (centers st) ->
  assigned (closestCenters (elkan_pass index samples iteration st).1)
           (va_length samples) c <> [] ->
  VectorArrayGet (centers (elkan_pass index samples iteration st).1) c
  = normalize_if_needed (KMEANS_NORM_PROC index)
      (cluster_mean samples (va_dim (centers st))
         (assigned (closestCenters (elkan_pass index samples iteration st).1)
                   (va_length samples) c)).
Proof.
  intros Hbound Hroom Hc. unfold elkan_pass, assign_phase, update_phase.
  cbn [centers fst closestCenters wld].
  match goal with |- context [new_centers ?i ?sa ?ns ?nc ?d ?cl ?w] =>
    pose proof (new_centers_spec i sa ns nc d cl w Hbound) as Hspec
  end.
  destruct (new_centers _ _ _ _ _ _ _) as [newCenters w1].
  cbn [fst centers closestCenters] in *.
  destruct Hspec as [_ Hspec].
  destruct (commit_centers_spec (va_maxlen (centers st)) newCenters (centers st) Hroom)
    as (_ & _ & Hget).
  rewrite (Hget c Hc). apply Hspec, Hc.
Qed.

(** *** The bounds of ElkanKmeans in a run that rounds nothing *)

Lemma assignment_ok_lower {index : Relation} {samples : VectorArray} {val : num -> Q}
    {fin : num -> Prop} cs a j k x c :
  assignment_ok index samples val fin cs a ->
  j < va_length samples -> k < va_maxlen cs ->
  fin x ->
  (val x <= val (KMEANS_DISTANCE_PROC index (VectorArrayGet samples j)
                                          (VectorArrayGet cs k)))%Q ->
  assignment_ok index samples val fin cs
    (mkAssign (<[j * va_maxlen cs + k := x]> (a_lower a)) (a_upper a) (a_closest a) c).
Proof.
  intros (Hl & Hu & Hc & Hb) Hj Hk Hfin Hx. unfold assignment_ok.
  cbn [a_lower a_upper a_closest].
  rewrite length_insert. split; [exact Hl|]. split; [exact Hu|]. split; [exact Hc|].
  intros j' Hj'. destruct (Hb j' Hj') as (Hlow & Hrest).
  split; [|exact Hrest].
  intros k' Hk'. rewrite list_lookup_total_insert. case_decide as Heq; [|apply Hlow, Hk'].
  destruct Heq as [Heq _]. apply flat_index_inj in Heq as [-> ->]; [|assumption|assumption].
  split; assumption.
Qed.

Lemma assignment_ok_upper {index : Relation} {samples : VectorArray} {val : num -> Q}
    {fin : num -> Prop} cs a j k x c :
  assignment_ok index samples val fin cs a ->
  j < va_length samples -> k < va_maxlen cs ->
  fin x ->
  (val (KMEANS_DISTANCE_PROC index (VectorArrayGet samples j) (VectorArrayGet cs k))
   <= val x)%Q ->
  assignment_ok index samples val fin cs
    (mkAssign (a_lower a) (<[j := x]> (a_upper a)) (<[j := k]> (a_closest a)) c).
Proof.
  intros (Hl & Hu & Hc & Hb) Hj Hk Hfin Hx. unfold assignment_ok.
  cbn [a_lower a_upper a_closest].
  rewrite !length_insert. split; [exact Hl|]. split; [exact Hu|]. split; [exact Hc|].
  intros j' Hj'. destruct (Hb j' Hj') as (Hlow & Hcl & Hfu & Hup).
  split; [exact Hlow|].
  rewrite !list_lookup_total_insert. rewrite Hu, Hc.
  destruct (decide (j = j')) as [->|Hne].
  - rewrite !decide_True by (split; [reflexivity|assumption]).
    split; [exact Hk|]. split; assumption.
  - rewrite !decide_False by (intros [? _]; contradiction).
    split; [exact Hcl|]. split; assumption.
Qed.

Lemma assignment_ok_upper_same {index : Relation} {samples : VectorArray} {val : num -> Q}
    {fin : num -> Prop} cs a j x c :
  assignment_ok index samples val fin cs a ->
  j < va_length samples ->
  fin x ->
  (val (KMEANS_DISTANCE_PROC index (VectorArrayGet samples j)
          (VectorArrayGet cs (a_closest a !!! j))) <= val x)%Q ->
  assignment_ok index samples val fin cs
    (mkAssign (a_lower a) (<[j := x]> (a_upper a)) (a_closest a) c).
Proof.
  intros Hok Hj Hfin Hx.
  pose proof Hok as (Hl & Hu & Hc & Hb).
  destruct (Hb j Hj) as (_ & Hcl & _).
  pose proof (assignment_ok_upper cs a j (a_closest a !!! j) x c Hok Hj Hcl Hfin Hx) as H.
  rewrite (list_insert_id (a_closest a)) in H; [exact H|].
  apply list_lookup_lookup_total_lt. lia.
Qed.

(** Step 3b keeps the bounds sound, whatever [dxcx] and the table of
   the centers are. *)
Lemma step3b_ok {index : Relation} {samples : VectorArray} {val : num -> Q}
    {fin : num -> Prop} {V : Vector -> Prop}
    (Hexact : ExactOn val fin (KMEANS_DISTANCE_PROC index) V)
    cs (test : bool) j k (a1 : assignment) (dxcx : num) :
  V (VectorArrayGet samples j) -> V (VectorArrayGet cs k) ->
  assignment_ok index samples val fin cs a1 ->
  j < va_length samples -> k < va_maxlen cs ->
  assignment_ok index samples val fin cs
    (if test
     then
       let dxc := to_float (KMEANS_DISTANCE_PROC index (VectorArrayGet samples j)
                                                 (VectorArrayGet cs k)) in
       let lower2 := <[j * va_maxlen cs + k := dxc]> (a_lower a1) in
       if flt dxc dxcx
       then (mkAssign lower2 (<[j := dxc]> (a_upper a1)) (<[j := k]> (a_closest a1))
                      (int_incr (a_changes a1)), false)
       else (mkAssign lower2 (a_upper a1) (a_closest a1) (a_changes a1), false)
     else (a1, false)).1.
Proof.
  intros Hvj Hvk Hok Hj Hk.
  destruct test; [|exact Hok]. cbv zeta.
  destruct (exact_distance _ _ _ _ Hexact _ _ Hvj Hvk) as (_ & Hfin & Hd).
  pose proof (assignment_ok_lower cs a1 j k _ (a_changes a1) Hok Hj Hk Hfin
                ltac:(rewrite Hd; apply Qle_refl)) as Hlow.
  destruct (flt _ dxcx); cbn [fst]; [|exact Hlow].
  apply (assignment_ok_upper cs _ j k _ _ Hlow Hj Hk Hfin). rewrite Hd. apply Qle_refl.
Qed.

Lemma step3_ok {index : Relation} {samples : VectorArray} {val : num -> Q}
    {fin : num -> Prop} {V : Vector -> Prop}
    (Hexact : ExactOn val fin (KMEANS_DISTANCE_PROC index) V)
    cs (hc : list num) j k (a : assignment) (rj : bool) :
  V (VectorArrayGet samples j) ->
  (forall c, c < va_maxlen cs -> V (VectorArrayGet cs c)) ->
  assignment_ok index samples val fin cs a ->
  j < va_length samples -> k < va_maxlen cs ->
  assignment_ok index samples val fin cs
    (step3 index samples cs (va_maxlen cs) hc j (a, rj) k).1.
Proof.
  intros Hvj Hvc Hok Hj Hk. unfold step3.
  destruct (k =? _); [exact Hok|].
  destruct (fle _ _); [exact Hok|].
  destruct (fle _ _); [exact Hok|].
  destruct rj.
  - apply (step3b_ok Hexact); [exact Hvj|apply Hvc, Hk| |assumption|assumption].
    pose proof Hok as (_ & _ & _ & Hb). destruct (Hb j Hj) as (_ & Hcl & _).
    destruct (exact_distance _ _ _ _ Hexact _ _ Hvj (Hvc _ Hcl)) as (_ & Hfin & Hd).
    pose proof (assignment_ok_lower cs a j (a_closest a !!! j) _ (a_changes a) Hok Hj Hcl
                  Hfin ltac:(rewrite Hd; apply Qle_refl)) as Hlow.
    apply (assignment_ok_upper_same cs _ j _ _ Hlow Hj Hfin). cbn [a_closest].
    rewrite Hd. apply Qle_refl.
  - apply (step3b_ok Hexact); [exact Hvj|apply Hvc, Hk|assumption|assumption|assumption].
Qed.

Lemma assign_points_ok {index : Relation} {samples : VectorArray} {val : num -> Q}
    {fin : num -> Prop} {V : Vector -> Prop}
    (Hexact : ExactOn val fin (KMEANS_DISTANCE_PROC index) V)
    cs (hc sc : list num) (rjreset : bool) (a : assignment) :
  (forall j, j < va_length samples -> V (VectorArrayGet samples j)) ->
  (forall c, c < va_maxlen cs -> V (VectorArrayGet cs c)) ->
  assignment_ok index samples val fin cs a ->
  assignment_ok index samples val fin cs
    (assign_points index samples cs (va_length samples) (va_maxlen cs) hc sc rjreset a).
Proof.
  intros Hvs Hvc Hok. unfold assign_points.
  apply fold_left_preserves; [|exact Hok].
  intros a' j Hj Ha'. apply elem_of_seq in Hj.
  unfold step23. destruct (fle _ _); [exact Ha'|].
  apply (fold_left_preserves (fun acc => assignment_ok index samples val fin cs acc.1)).
  - intros [a2 rj] k Hk Ha2. apply elem_of_seq in Hk.
    apply (step3_ok Hexact); [apply Hvs; lia|exact Hvc|exact Ha2|lia|lia].
  - exact Ha'.
Qed.

Lemma assign_phase_ok {index : Relation} {samples : VectorArray} {val : num -> Q}
    {fin : num -> Prop} {V : Vector -> Prop}
    (Hexact : ExactOn val fin (KMEANS_DISTANCE_PROC index) V)
    iteration st :
  (forall j, j < va_length samples -> V (VectorArrayGet samples j)) ->
  elkan_ok index samples val fin V st ->
  elkan_ok index samples val fin V (assign_phase index samples iteration st).1.
Proof.
  intros Hvs (Hitems & Hshift & Hvc & Hok). unfold assign_phase, elkan_ok.
  cbn [fst centers newcdist lowerBound upperBound closestCenters].
  split; [exact Hitems|]. split; [exact Hshift|]. split; [exact Hvc|].
  pose proof (assign_points_ok Hexact (centers st)
                (step1 index (centers st) (va_maxlen (centers st)) (halfcdist st))
                (compute_s (va_maxlen (centers st))
                   (step1 index (centers st) (va_maxlen (centers st)) (halfcdist st)) (s st))
                (negb (iteration =? 0))
                (mkAssign (lowerBound st) (upperBound st) (closestCenters st) 0)
                Hvs Hvc Hok) as H.
  exact H.
Qed.

(** Steps 4 to 7 restore the bounds for the new centers, when Steps 5
   and 6 round nothing. *)
Lemma update_phase_ok {index : Relation} {samples : VectorArray} {val : num -> Q}
    {fin : num -> Prop} {V : Vector -> Prop}
    (Hexact : ExactOn val fin (KMEANS_DISTANCE_PROC index) V)
    st :
  (forall j, j < va_length samples -> V (VectorArrayGet samples j)) ->
  elkan_ok index samples val fin V st ->
  (forall k, k < va_maxlen (centers st) ->
     V (VectorArrayGet (centers (update_phase index samples st)) k)) ->
  (forall j, j < va_length samples ->
     (forall k, k < va_maxlen (centers st) ->
        let l := lowerBound st !!! (j * va_maxlen (centers st) + k) in
        let x := to_float (fsub l (newcdist (update_phase index samples st) !!! k)) in
        fin x /\ (val x == val l - val (newcdist (update_phase index samples st) !!! k))%Q) /\
     (let u := upperBound st !!! j in
      let shift := newcdist (update_phase index samples st) !!! (closestCenters st !!! j) in
      let y := to_float (fadd u shift) in
      fin y /\ (val y == val u + val shift)%Q)) ->
  elkan_ok index samples val fin V (update_phase index samples st).
Proof.
  intros Hvs (Hitems & Hshift & Hvc & Hl & Hu & Hc & Hb).
  cbn [a_lower a_upper a_closest] in *.
  unfold update_phase.
  destruct (new_centers _ _ _ _ _ _ _) as [newCenters w1].
  cbn [centers newcdist lowerBound upperBound closestCenters].
  set (numCenters := va_maxlen (centers st)) in *.
  set (numSamples := va_length samples) in *.
  destruct (commit_centers_spec numCenters newCenters (centers st) Hitems)
    as (Hmax' & Hitems' & Hget).
  destruct (center_shifts_spec index (centers st) newCenters numCenters (newcdist st)
              ltac:(lia))
    as (Hshift' & Hmoved).
  set (shifts := center_shifts index (centers st) newCenters numCenters (newcdist st)) in *.
  destruct (widen_upper_spec numSamples shifts (closestCenters st) (upperBound st) ltac:(lia))
    as (Hu' & Hup).
  destruct (widen_lower_spec numSamples numCenters shifts (lowerBound st) ltac:(lia))
    as (Hl' & Hlow & _).
  intros Hnew Hwide.
  assert (forall k, k < numCenters -> V (newCenters !!! k)) as Hvn.
  { intros k Hk. rewrite <- (Hget k Hk). apply Hnew, Hk. }
  assert (forall k, k < numCenters ->
            fin (shifts !!! k) /\
            (val (shifts !!! k)
             == val (KMEANS_DISTANCE_PROC index (VectorArrayGet (centers st) k)
                                          (newCenters !!! k)))%Q) as Hsh.
  { intros k Hk. rewrite (Hmoved k Hk).
    destruct (exact_distance _ _ _ _ Hexact _ _ (Hvc k Hk) (Hvn k Hk)) as (_ & Hf & Hd).
    split; assumption. }
  unfold elkan_ok, assignment_ok.
  cbn [centers newcdist lowerBound upperBound closestCenters a_lower a_upper a_closest].
  rewrite Hmax'. fold numCenters. fold numSamples.
  split; [lia|]. split; [lia|].
  split; [intros k Hk; rewrite (Hget k Hk); apply Hvn, Hk|].
  split; [lia|]. split; [lia|]. split; [exact Hc|].
  intros j Hj. destruct (Hb j Hj) as (Hlj & Hcj & Hfu & Huj).
  destruct (Hwide j Hj) as (Hwl & Hwu). cbv zeta in Hwl, Hwu.
  destruct (exact_zero _ _ _ _ Hexact) as [Hfz Hzero].
  split; [|split; [exact Hcj|]].
  - intros k Hk. rewrite Hlow, Hget by assumption.
    destruct (Hlj k Hk) as [_ Hljk]. destruct (Hwl k Hk) as [Hfx Hx].
    destruct (Hsh k Hk) as [_ Hs].
    pose proof (exact_nonneg _ _ _ _ Hexact _ _ (Hvs j Hj) (Hvn k Hk)) as Hnonneg.
    pose proof (exact_triangle _ _ _ _ Hexact _ _ _ (Hvs j Hj) (Hvn k Hk) (Hvc k Hk))
      as Htri.
    pose proof (exact_sym _ _ _ _ Hexact _ _ (Hvn k Hk) (Hvc k Hk)) as Hsym.
    unfold widened.
    destruct (flt _ zero); [split; [exact Hfz|lra]|split; [exact Hfx|lra]].
  - rewrite Hup, Hget by assumption.
    set (c := closestCenters st !!! j) in *.
    destruct Hwu as [Hfy Hy]. destruct (Hsh c Hcj) as [_ Hs].
    pose proof (exact_triangle _ _ _ _ Hexact _ _ _ (Hvs j Hj) (Hvc c Hcj) (Hvn c Hcj))
      as Htri.
    split; [exact Hfy|lra].
Qed.

(** The seeded centers are samples. *)
Lemma elkan_setup_seeded index (samples cs : VectorArray) (w : world) (st0 : elkan_state) :
  0 < va_length samples ->
  va_maxlen cs <= length (va_items cs) ->
  elkan_setup index samples cs w = Ok st0 ->
  forall k, k < va_maxlen cs ->
    exists j, j < va_length samples /\
      VectorArrayGet (centers st0) k = VectorArrayGet samples j.
Proof.
  intros Hsome Hroom Hsetup k Hk. unfold elkan_setup in Hsetup.
  destruct (_ >? _)%Z; [discriminate|].
  destruct (indexing_overflows _); [discriminate|].
  destruct (InitCenters _ _ _ _ _) as [[[cs1 lb1] w1]|e] eqn:Hinit; [|discriminate].
  cbn [bind] in Hsetup.
  destruct (initial_assignment _ _ _ _ _) as [ub1 cc1].
  injection Hsetup as <-. cbn [centers].
  revert Hinit. unfold InitCenters. destruct (RandomInt w) as [r w0]. intros Hloop.
  eapply (InitCenters_loop_seeds index samples (va_maxlen cs) (va_length samples)
            (va_maxlen cs) 0); [reflexivity|exact Hsome| | |exact Hloop|lia].
  - simpl. rewrite length_insert. exact Hroom.
  - intros i' Hi'. assert (i' = 0) as -> by lia.
    exists (r mod va_length samples). split; [apply Nat.mod_upper_bound; lia|].
    unfold VectorArrayGet. simpl. apply list_lookup_total_insert_eq. lia.
Qed.

(** The setup leaves sound bounds when every sample has a seeded center
   whose stored distance is below [FLT_MAX]. *)
Lemma elkan_setup_ok {index : Relation} {samples : VectorArray} {val : num -> Q}
    {fin : num -> Prop} {V : Vector -> Prop}
    (Hexact : ExactOn val fin (KMEANS_DISTANCE_PROC index) V)
    (cs : VectorArray) (w : world) (st0 : elkan_state) :
  va_maxlen cs <= length (va_items cs) ->
  0 < va_length samples ->
  (forall j, j < va_length samples -> V (VectorArrayGet samples j)) ->
  elkan_setup index samples cs w = Ok st0 ->
  (forall j, j < va_length samples -> exists k, k < va_maxlen cs /\
     flt (to_float (KMEANS_DISTANCE_PROC index (VectorArrayGet samples j)
                      (VectorArrayGet (centers st0) k))) FLT_MAX = true) ->
  va_maxlen (centers st0) = va_maxlen cs /\ elkan_ok index samples val fin V st0.
Proof.
  intros Hroom Hsome Hvs Hsetup Hnear.
  pose proof (elkan_setup_seeded index samples cs w st0 Hsome Hroom Hsetup) as Hseeds.
  destruct (elkan_setup_indices index samples cs w st0) as [Hmax Hvalid];
    [|exact Hroom|exact Hsetup|].
  { destruct (Hnear 0 Hsome) as (k & Hk & _). lia. }
  destruct Hvalid as (Hitems & Hl & Hu & Hc & _ & _ & Hn & Hall).
  split; [exact Hmax|].
  assert (forall k, k < va_maxlen cs -> V (VectorArrayGet (centers st0) k)) as Hvc.
  { intros k Hk. destruct (Hseeds k Hk) as (j & Hj & ->). apply Hvs, Hj. }
  unfold elkan_ok, assignment_ok. cbn [a_lower a_upper a_closest]. rewrite Hmax in *.
  split; [exact Hitems|]. split; [exact Hn|]. split; [exact Hvc|].
  split; [exact Hl|]. split; [exact Hu|]. split; [exact Hc|].
  intros j Hj.
  destruct (elkan_setup_rows index samples cs w st0 Hsetup j Hj) as (Hub & Hcc & Hcells).
  assert (forall k, k < va_maxlen cs ->
            fin (lowerBound st0 !!! (j * va_maxlen cs + k)) /\
            (val (lowerBound st0 !!! (j * va_maxlen cs + k)%nat)
             == val (KMEANS_DISTANCE_PROC index (VectorArrayGet samples j)
                                          (VectorArrayGet (centers st0) k)))%Q) as Hexactly.
  { intros k Hk. rewrite Hcells by assumption.
    destruct (exact_distance _ _ _ _ Hexact _ _ (Hvs j Hj) (Hvc k Hk)) as (_ & Hf & Hd).
    split; assumption. }
  rewrite Hub, Hcc.
  pose proof (initial_closest_scan (va_maxlen cs) (lowerBound st0) j (va_maxlen cs)) as Hscan.
  unfold initial_closest.
  destruct (fold_left _ (seq 0 (va_maxlen cs)) (FLT_MAX, 0)) as [m c]. cbn [fst snd].
  assert (c < va_maxlen cs /\ m = lowerBound st0 !!! (j * va_maxlen cs + c)) as [Hc' ->].
  { destruct Hscan as [H|(_ & _ & Hnone)]; [exact H|].
    exfalso. destruct (Hnear j Hj) as (k & Hk & Hlt).
    specialize (Hnone k Hk). rewrite (Hcells k Hk) in Hnone. congruence. }
  split; [|split; [exact Hc'|]].
  - intros k Hk. destruct (Hexactly k Hk) as [Hf Hd]. split; [exact Hf|].
    rewrite Hd. apply Qle_refl.
  - destruct (Hexactly c Hc') as [Hf Hd]. split; [exact Hf|]. rewrite Hd. apply Qle_refl.
Qed.

(** The bounds stay sound as long as the passes round nothing. *)
Lemma elkan_reaches_ok {index : Relation} {samples : VectorArray} {val : num -> Q}
    {fin : num -> Prop} {V : Vector -> Prop}
    (Hexact : ExactOn val fin (KMEANS_DISTANCE_PROC index) V)
    st0 (n : nat) :
  (forall j, j < va_length samples -> V (VectorArrayGet samples j)) ->
  elkan_ok index samples val fin V st0 ->
  (forall iteration st w1, iteration < n ->
     elkan_reaches index samples st0 iteration st ->
     CHECK_FOR_INTERRUPTS (wld st) = Ok w1 ->
     widening_exact index samples val fin V iteration (with_world st w1)) ->
  forall iteration st,
    elkan_reaches index samples st0 iteration st -> iteration <= n ->
    elkan_ok index samples val fin V st.
Proof.
  intros Hvs Hok0 Hwide iteration st Hreach.
  induction Hreach as [|iteration st w1 Hreach IH Hcheck]; intros Hle; [exact Hok0|].
  specialize (IH ltac:(lia)).
  specialize (Hwide iteration st w1 ltac:(lia) Hreach Hcheck).
  destruct Hwide as [Hnew Hw]. cbv zeta in Hnew, Hw.
  unfold elkan_pass.
  pose proof (assign_phase_ok Hexact iteration (with_world st w1) Hvs IH) as Hmid.
  assert (va_maxlen (centers (assign_phase index samples iteration (with_world st w1)).1)
          = va_maxlen (centers (with_world st w1))) as Hsame by reflexivity.
  destruct (assign_phase index samples iteration (with_world st w1)) as [st1 changes].
  cbn [fst] in *.
  apply (update_phase_ok Hexact); [exact Hvs|exact Hmid| |]; rewrite Hsame; assumption.
Qed.

Lemma elkan_ok_bounds_sound {index : Relation} {samples : VectorArray} {val : num -> Q}
    {fin : num -> Prop} {V : Vector -> Prop}
    (Hexact : ExactOn val fin (KMEANS_DISTANCE_PROC index) V)
    st :
  (forall j, j < va_length samples -> V (VectorArrayGet samples j)) ->
  elkan_ok index samples val fin V st -> bounds_sound index samples st.
Proof.
  intros Hvs (_ & _ & Hvc & _ & _ & _ & Hb). cbn [a_lower a_upper a_closest] in Hb.
  unfold bounds_sound. cbv zeta.
  intros j Hj. destruct (Hb j Hj) as (Hlow & Hcl & Hfu & Hup).
  split; [|split; [exact Hcl|]].
  - intros k Hk. destruct (Hlow k Hk) as [Hf Hle].
    destruct (exact_distance _ _ _ _ Hexact _ _ (Hvs j Hj) (Hvc k Hk)) as (Hfd & _).
    apply (exact_fle _ _ _ _ Hexact); assumption.
  - destruct (exact_distance _ _ _ _ Hexact _ _ (Hvs j Hj) (Hvc _ Hcl)) as (Hfd & _).
    apply (exact_fle _ _ _ _ Hexact); assumption.
Qed.

(** C1 (as amended).  Let a run of [ElkanKmeans] round nothing in its
   first [n] passes: the samples, the seeded centers and the centers
   those passes compute are vectors between which the distance function
   is a metric with values that a [float] holds exactly, and the sums
   and differences of Steps 5 and 6 are exact.  Let every sample have a
   seeded center whose stored distance is below [FLT_MAX].  Then at the
   head of each of the passes 0 to [n], and again after Steps 1 to 3 of
   that pass, [lowerBound[j * numCenters + k]] is at most the distance
   from sample [j] to center [k], and [upperBound[j]] is at least the
   distance from sample [j] to its center [closestCenters[j]]: Steps 5
   and 6 restore the bounds for the centers Step 7 installs. *)
Theorem elkan_bounds_sound index (samples cs : VectorArray) (w : world)
    (val : num -> Q) (fin : num -> Prop) (V : Vector -> Prop) (st0 : elkan_state)
    (n : nat) :
  ExactOn val fin (KMEANS_DISTANCE_PROC index) V ->
  va_maxlen cs <= length (va_items cs) ->
  (forall j, j < va_length samples -> V (VectorArrayGet samples j)) ->
  elkan_setup index samples cs w = Ok st0 ->
  (forall j, j < va_length samples -> exists k, k < va_maxlen cs /\
     flt (to_float (KMEANS_DISTANCE_PROC index (VectorArrayGet samples j)
                      (VectorArrayGet (centers st0) k))) FLT_MAX = true) ->
  (forall iteration st w1, iteration < n ->
     elkan_reaches index samples st0 iteration st ->
     CHECK_FOR_INTERRUPTS (wld st) = Ok w1 ->
     widening_exact index samples val fin V iteration (with_world st w1)) ->
  forall iteration st,
    iteration <= n ->
    elkan_reaches index samples st0 iteration st ->
    bounds_sound index samples st /\
    bounds_sound index samples (assign_phase index samples iteration st).1.
Proof.
  intros Hexact Hroom Hvs Hsetup Hnear Hwide iteration st Hle Hreach.
  destruct (Nat.eq_dec (va_length samples) 0) as [Hnone|Hsome].
  { split; intros j Hj; lia. }
  assert (elkan_ok index samples val fin V st0) as Hok0.
  { eapply proj2, (elkan_setup_ok Hexact cs w st0); try eassumption. lia. }
  assert (elkan_ok index samples val fin V st) as Hok
    by (eapply (elkan_reaches_ok Hexact st0 n); eassumption).
  split; eapply (elkan_ok_bounds_sound Hexact); try eassumption.
  apply (assign_phase_ok Hexact); assumption.
Qed.

(** *** Steps 2 and 3 find the nearest center *)

(** A center at least [2u] from the center of a sample, which is
   within [u] of the sample, is at least [u] from the sample. *)
Lemma far_center {index : Relation} {samples : VectorArray} {val : num -> Q}
    {fin : num -> Prop} {V : Vector -> Prop}
    (Hexact : ExactOn val fin (KMEANS_DISTANCE_PROC index) V)
    (cs : VectorArray) (hc : list num) (j c k : nat) (u : Q) :
  V (VectorArrayGet samples j) ->
  (forall c, c < va_maxlen cs -> V (VectorArrayGet cs c)) ->
  half_ok index cs val fin hc ->
  c < va_maxlen cs -> k < va_maxlen cs -> k <> c ->
  (sample_distance index samples cs val j c <= u)%Q ->
  (u <= val (hc !!! (c * va_maxlen cs + k)%nat))%Q ->
  (u <= sample_distance index samples cs val j k)%Q.
Proof.
  intros Hvj Hvc Hhalf Hc Hk Hne Hin Hfar. unfold sample_distance in *.
  destruct (Hhalf c k Hc Hk ltac:(congruence)) as [_ Hh].
  pose proof (exact_triangle _ _ _ _ Hexact _ _ _ (Hvc c Hc) Hvj (Hvc k Hk)) as Htri.
  pose proof (exact_sym _ _ _ _ Hexact _ _ (Hvc c Hc) Hvj) as Hsym.
  lra.
Qed.

(** Step 3b, entered with [dxcx] the distance of the sample to its
   center, which is also its upper bound. *)
Lemma step3b_scan {index : Relation} {samples : VectorArray} {val : num -> Q}
    {fin : num -> Prop} {V : Vector -> Prop}
    (Hexact : ExactOn val fin (KMEANS_DISTANCE_PROC index) V)
    (cs : VectorArray) (test : bool) (j k : nat) (a0 a1 : assignment) :
  V (VectorArrayGet samples j) -> V (VectorArrayGet cs k) ->
  j < va_length samples -> k < va_maxlen cs ->
  k <> a_closest a1 !!! j ->
  scan_inv index samples cs val fin j a0 k (a1, false) ->
  scan_inv index samples cs val fin j a0 (S k)
    (let dxcx := a_upper a1 !!! j in
     if flt (a_lower a1 !!! (j * va_maxlen cs + k)) dxcx || test
     then
       let dxc := to_float (KMEANS_DISTANCE_PROC index (VectorArrayGet samples j)
                                                 (VectorArrayGet cs k)) in
       let lower2 := <[j * va_maxlen cs + k := dxc]> (a_lower a1) in
       if flt dxc dxcx
       then (mkAssign lower2 (<[j := dxc]> (a_upper a1)) (<[j := k]> (a_closest a1))
                      (int_incr (a_changes a1)), false)
       else (mkAssign lower2 (a_upper a1) (a_closest a1) (a_changes a1), false)
     else (a1, false)).
Proof.
  intros Hvj Hvk Hj Hk Hkc (Hok & Htight & Hseen & Hframe). cbn [fst snd] in *.
  specialize (Htight eq_refl).
  pose proof (step3b_ok Hexact cs
                (flt (a_lower a1 !!! (j * va_maxlen cs + k)) (a_upper a1 !!! j) || test)
                j k a1 (a_upper a1 !!! j) Hvj Hvk Hok Hj Hk) as Hok'.
  pose proof Hok as (Hl & Hu & Hc & Hb).
  destruct (Hb j Hj) as (Hlow & Hcl & Hfu & Hup).
  destruct (exact_distance _ _ _ _ Hexact _ _ Hvj Hvk) as (_ & Hfd & Hd).
  cbv zeta in *.
  destruct (flt (a_lower a1 !!! (j * va_maxlen cs + k)) (a_upper a1 !!! j) || test)
    eqn:Hcond.
  - destruct (flt (to_float (KMEANS_DISTANCE_PROC index (VectorArrayGet samples j)
                               (VectorArrayGet cs k))) (a_upper a1 !!! j)) eqn:Hcloser;
      cbn [fst] in Hok'; unfold scan_inv; cbn [fst snd a_upper a_closest].
    + apply (exact_flt _ _ _ _ Hexact _ _ Hfd Hfu) in Hcloser.
      rewrite !list_lookup_total_insert_eq by lia.
      split; [exact Hok'|]. split; [intros _; unfold sample_distance; exact Hd|].
      split.
      * intros k' Hk' Hne. unfold sample_distance in *.
        destruct (decide (k' = a_closest a1 !!! j)) as [->|Hother]; [lra|].
        specialize (Hseen k' ltac:(lia) Hother). lra.
      * intros j' Hne. rewrite !list_lookup_total_insert_ne by congruence.
        apply Hframe, Hne.
    + assert (val (a_upper a1 !!! j)
              <= val (to_float (KMEANS_DISTANCE_PROC index (VectorArrayGet samples j)
                                  (VectorArrayGet cs k))))%Q as Hge.
      { apply Qnot_lt_le. intros H. apply (exact_flt _ _ _ _ Hexact _ _ Hfd Hfu) in H.
        congruence. }
      split; [exact Hok'|]. split; [intros _; exact Htight|].
      split; [|exact Hframe].
      intros k' Hk' Hne. unfold sample_distance in *.
      destruct (decide (k' = k)) as [->|Hother]; [lra|].
      apply Hseen; [lia|exact Hne].
  - apply orb_false_iff in Hcond as [Hcond _].
    destruct (Hlow k Hk) as [Hfl Hlk].
    assert (val (a_upper a1 !!! j) <= val (a_lower a1 !!! (j * va_maxlen cs + k)%nat))%Q
      as Hge.
    { apply Qnot_lt_le. intros H. apply (exact_flt _ _ _ _ Hexact _ _ Hfl Hfu) in H.
      congruence. }
    unfold scan_inv. cbn [fst snd].
    split; [exact Hok|]. split; [intros _; exact Htight|].
    split; [|exact Hframe].
    intros k' Hk' Hne. unfold sample_distance in *.
    destruct (decide (k' = k)) as [->|Hother]; [lra|].
    apply Hseen; [lia|exact Hne].
Qed.

(** Step 3 for one center keeps the invariant of the scan. *)
Lemma step3_scan {index : Relation} {samples : VectorArray} {val : num -> Q}
    {fin : num -> Prop} {V : Vector -> Prop}
    (Hexact : ExactOn val fin (KMEANS_DISTANCE_PROC index) V)
    (cs : VectorArray) (hc : list num) (j k : nat) (a0 : assignment)
    (acc : assignment * bool) :
  (Z.of_nat (va_maxlen cs) * Z.of_nat (va_maxlen cs) <= INT_MAX)%Z ->
  va_maxlen cs * va_maxlen cs <= length hc ->
  V (VectorArrayGet samples j) ->
  (forall c, c < va_maxlen cs -> V (VectorArrayGet cs c)) ->
  half_ok index cs val fin hc ->
  j < va_length samples -> k < va_maxlen cs ->
  scan_inv index samples cs val fin j a0 k acc ->
  scan_inv index samples cs val fin j a0 (S k)
    (step3 index samples cs (va_maxlen cs) hc j acc k).
Proof.
  intros Hsmall Hroom Hvj Hvc Hhalf Hj Hk Hinv. destruct acc as [a rj].
  pose proof Hinv as (Hok & Htight & Hseen & Hframe). cbn [fst snd] in *.
  pose proof Hok as (Hl & Hu & Hc & Hb).
  destruct (Hb j Hj) as (Hlow & Hcl & Hfu & Hup).
  unfold step3.
  destruct (k =? a_closest a !!! j) eqn:Hsame.
  { apply Nat.eqb_eq in Hsame. split; [exact Hok|]. split; [exact Htight|].
    split; [|exact Hframe]. cbn [fst].
    intros k' Hk' Hne. apply Hseen; [|exact Hne]. lia. }
  apply Nat.eqb_neq in Hsame.
  destruct (Hlow k Hk) as [Hfl Hlk].
  destruct (fle (a_upper a !!! j) (a_lower a !!! (j * va_maxlen cs + k))) eqn:Hskip1.
  { apply (exact_fle _ _ _ _ Hexact _ _ Hfu Hfl) in Hskip1.
    split; [exact Hok|]. split; [exact Htight|]. split; [|exact Hframe]. cbn [fst].
    intros k' Hk' Hne. destruct (decide (k' = k)) as [->|Hother].
    - unfold sample_distance. lra.
    - apply Hseen; [lia|exact Hne]. }
  rewrite (float_at_halfcdist hc (a_closest a !!! j) (va_maxlen cs) k Hcl Hk Hsmall Hroom).
  destruct (Hhalf (a_closest a !!! j) k Hcl Hk ltac:(congruence)) as [Hfh _].
  destruct (fle (a_upper a !!! j) (hc !!! (a_closest a !!! j * va_maxlen cs + k)))
    eqn:Hskip2.
  { apply (exact_fle _ _ _ _ Hexact _ _ Hfu Hfh) in Hskip2.
    split; [exact Hok|]. split; [exact Htight|]. split; [|exact Hframe]. cbn [fst].
    intros k' Hk' Hne. destruct (decide (k' = k)) as [->|Hother].
    - apply (far_center Hexact cs hc j (a_closest a !!! j) k); try assumption.
    - apply Hseen; [lia|exact Hne]. }
  destruct rj.
  - (* Step 3a computes the distance to the current center *)
    destruct (exact_distance _ _ _ _ Hexact _ _ Hvj (Hvc _ Hcl)) as (_ & Hfd & Hd).
    set (dxcx := to_float (KMEANS_DISTANCE_PROC index (VectorArrayGet samples j)
                             (VectorArrayGet cs (a_closest a !!! j)))) in *.
    set (a1 := mkAssign (<[j * va_maxlen cs + a_closest a !!! j := dxcx]> (a_lower a))
                        (<[j := dxcx]> (a_upper a)) (a_closest a) (a_changes a)).
    assert (a_upper a1 !!! j = dxcx) as Hu1
      by (unfold a1; cbn [a_upper]; apply list_lookup_total_insert_eq; lia).
    assert (scan_inv index samples cs val fin j a0 k (a1, false)) as Hinv1.
    { unfold scan_inv. cbn [fst snd]. rewrite Hu1. split.
      - pose proof (assignment_ok_lower cs a j (a_closest a !!! j) dxcx (a_changes a)
                      Hok Hj Hcl Hfd ltac:(rewrite Hd; apply Qle_refl)) as Hlow1.
        apply (assignment_ok_upper_same cs _ j dxcx _ Hlow1 Hj Hfd). cbn [a_closest].
        rewrite Hd. apply Qle_refl.
      - split; [intros _; exact Hd|]. split.
        + intros k' Hk' Hne. cbn [a1 a_closest] in Hne.
          specialize (Hseen k' Hk' Hne). unfold sample_distance in *. lra.
        + intros j' Hne. cbn [a1 a_closest a_upper].
          rewrite list_lookup_total_insert_ne by congruence. apply Hframe, Hne. }
    pose proof (step3b_scan Hexact cs
                  (flt (float_at hc (halfcdist_index (a_closest a1 !!! j) (va_maxlen cs) k))
                       dxcx)
                  j k a0 a1 Hvj (Hvc k Hk) Hj Hk Hsame Hinv1) as Hstep.
    cbv zeta in Hstep. rewrite Hu1 in Hstep. exact Hstep.
  - apply (step3b_scan Hexact cs _ j k a0 a Hvj (Hvc k Hk) Hj Hk Hsame).
    split; [exact Hok|]. split; [exact Htight|]. split; assumption.
Qed.

(** Steps 2 and 3 for sample [j]: the sample ends at a nearest center,
   and the other samples are not touched. *)
Lemma step23_nearest {index : Relation} {samples : VectorArray} {val : num -> Q}
    {fin : num -> Prop} {V : Vector -> Prop}
    (Hexact : ExactOn val fin (KMEANS_DISTANCE_PROC index) V)
    (cs : VectorArray) (hc sc : list num) (rjreset : bool) (a : assignment) (j : nat) :
  (Z.of_nat (va_maxlen cs) * Z.of_nat (va_maxlen cs) <= INT_MAX)%Z ->
  va_maxlen cs * va_maxlen cs <= length hc ->
  V (VectorArrayGet samples j) ->
  (forall c, c < va_maxlen cs -> V (VectorArrayGet cs c)) ->
  half_ok index cs val fin hc ->
  (forall c, c < va_maxlen cs ->
     fin (sc !!! c) /\
     forall k, k < va_maxlen cs -> k <> c ->
       (val (sc !!! c) <= val (hc !!! (c * va_maxlen cs + k)%nat))%Q) ->
  j < va_length samples ->
  assignment_ok index samples val fin cs a ->
  (rjreset = false ->
   (val (a_upper a !!! j) == sample_distance index samples cs val j (a_closest a !!! j))%Q) ->
  let a' := step23 index samples cs (va_maxlen cs) hc sc rjreset a j in
  assignment_ok index samples val fin cs a' /\
  nearest index samples cs val j (a_closest a' !!! j) /\
  (forall j', j' <> j ->
     a_closest a' !!! j' = a_closest a !!! j' /\ a_upper a' !!! j' = a_upper a !!! j').
Proof.
  intros Hsmall Hroom Hvj Hvc Hhalf Hs Hj Hok Htight. cbn zeta. unfold step23.
  pose proof Hok as (Hl & Hu & Hc & Hb).
  destruct (Hb j Hj) as (Hlow & Hcl & Hfu & Hup).
  destruct (Hs _ Hcl) as [Hfs Hsmin].
  destruct (fle (a_upper a !!! j) (sc !!! (a_closest a !!! j))) eqn:Hskip.
  - apply (exact_fle _ _ _ _ Hexact _ _ Hfu Hfs) in Hskip.
    split; [exact Hok|]. split; [|intros j' _; split; reflexivity].
    intros k Hk. destruct (decide (k = a_closest a !!! j)) as [->|Hne]; [apply Qle_refl|].
    pose proof (far_center Hexact cs hc j (a_closest a !!! j) k (val (a_upper a !!! j))
                  Hvj Hvc Hhalf Hcl Hk Hne Hup) as Hfar.
    specialize (Hsmin k Hk Hne).
    unfold sample_distance in *. lra.
  - assert (scan_inv index samples cs val fin j a (va_maxlen cs)
              (fold_left (step3 index samples cs (va_maxlen cs) hc j)
                         (seq 0 (va_maxlen cs)) (a, rjreset))) as Hscan.
    { apply (fold_left_seq_ind (scan_inv index samples cs val fin j a)).
      - split; [exact Hok|]. split; [exact Htight|].
        split; [intros k' Hk'; lia|intros j' _; split; reflexivity].
      - intros k acc Hk Hinv. apply (step3_scan Hexact); assumption. }
    destruct (fold_left _ _ _) as [a' rj']. cbn [fst snd] in *.
    destruct Hscan as (Hok' & _ & Hseen & Hframe). cbn [fst snd] in *.
    split; [exact Hok'|]. split; [|exact Hframe].
    destruct Hok' as (_ & _ & _ & Hb'). destruct (Hb' j Hj) as (_ & _ & _ & Hup').
    intros k Hk.
    destruct (decide (k = a_closest a' !!! j)) as [->|Hne]; [apply Qle_refl|].
    specialize (Hseen k Hk Hne). unfold sample_distance in *. lra.
Qed.

Lemma assign_points_nearest {index : Relation} {samples : VectorArray} {val : num -> Q}
    {fin : num -> Prop} {V : Vector -> Prop}
    (Hexact : ExactOn val fin (KMEANS_DISTANCE_PROC index) V)
    (cs : VectorArray) (hc sc : list num) (rjreset : bool) (a : assignment) :
  (Z.of_nat (va_maxlen cs) * Z.of_nat (va_maxlen cs) <= INT_MAX)%Z ->
  va_maxlen cs * va_maxlen cs <= length hc ->
  (forall j, j < va_length samples -> V (VectorArrayGet samples j)) ->
  (forall c, c < va_maxlen cs -> V (VectorArrayGet cs c)) ->
  half_ok index cs val fin hc ->
  (forall c, c < va_maxlen cs ->
     fin (sc !!! c) /\
     forall k, k < va_maxlen cs -> k <> c ->
       (val (sc !!! c) <= val (hc !!! (c * va_maxlen cs + k)%nat))%Q) ->
  assignment_ok index samples val fin cs a ->
  (rjreset = false -> forall j, j < va_length samples ->
   (val (a_upper a !!! j) == sample_distance index samples cs val j (a_closest a !!! j))%Q) ->
  let a' := assign_points index samples cs (va_length samples) (va_maxlen cs) hc sc
              rjreset a in
  forall j, j < va_length samples -> nearest index samples cs val j (a_closest a' !!! j).
Proof.
  intros Hsmall Hroom Hvs Hvc Hhalf Hs Hok Htight. cbn zeta. unfold assign_points.
  assert (let a' := fold_left (step23 index samples cs (va_maxlen cs) hc sc rjreset)
                              (seq 0 (va_length samples)) a in
          assignment_ok index samples val fin cs a' /\
          (forall j, j < va_length samples ->
             nearest index samples cs val j (a_closest a' !!! j)) /\
          (forall j, va_length samples <= j ->
             a_closest a' !!! j = a_closest a !!! j /\ a_upper a' !!! j = a_upper a !!! j))
    as (_ & Hall & _); [|exact Hall].
  apply (fold_left_seq_ind
           (fun i a' =>
              assignment_ok index samples val fin cs a' /\
              (forall j, j < i -> nearest index samples cs val j (a_closest a' !!! j)) /\
              (forall j, i <= j ->
                 a_closest a' !!! j = a_closest a !!! j /\
                 a_upper a' !!! j = a_upper a !!! j))).
  - split; [exact Hok|]. split; [intros j Hj; lia|intros j _; split; reflexivity].
  - intros i a1 Hi (Hok1 & Hdone & Hrest).
    destruct (step23_nearest Hexact cs hc sc rjreset a1 i Hsmall Hroom (Hvs i Hi) Hvc
                Hhalf Hs Hi Hok1)
      as (Hok2 & Hnear & Hframe).
    { intros Hr. destruct (Hrest i (Nat.le_refl _)) as [-> ->]. apply Htight; assumption. }
    split; [exact Hok2|]. split.
    + intros j Hj. destruct (decide (j = i)) as [->|Hne]; [exact Hnear|].
      destruct (Hframe j Hne) as [-> _]. apply Hdone. lia.
    + intros j Hj. destruct (Hframe j ltac:(lia)) as [-> ->]. apply Hrest. lia.
Qed.

Lemma step1_half_ok {index : Relation} {val : num -> Q}
    {fin : num -> Prop} {V : Vector -> Prop}
    (Hexact : ExactOn val fin (KMEANS_DISTANCE_PROC index) V)
    (Hhalves : halves_exact val fin (KMEANS_DISTANCE_PROC index) V)
    (cs : VectorArray) (h : list num) :
  (forall c, c < va_maxlen cs -> V (VectorArrayGet cs c)) ->
  va_maxlen cs * va_maxlen cs <= length h ->
  half_ok index cs val fin (step1 index cs (va_maxlen cs) h).
Proof.
  intros Hvc Hroom a b Ha Hb Hne.
  destruct (step1_table index cs (va_maxlen cs) h Hroom) as (_ & Hin & _).
  destruct Hhalves as [_ Hhalves].
  destruct (decide (a < b)) as [Hlt|Hge].
  - destruct (Hin a b Hlt Hb I) as [-> _].
    apply (Hhalves _ _ (Hvc a Ha) (Hvc b Hb)).
  - destruct (Hin b a ltac:(lia) Ha I) as [_ ->].
    destruct (Hhalves _ _ (Hvc b Hb) (Hvc a Ha)) as [Hf Hv]. cbv zeta in Hf, Hv.
    split; [exact Hf|]. rewrite Hv.
    rewrite (exact_sym _ _ _ _ Hexact _ _ (Hvc b Hb) (Hvc a Ha)). reflexivity.
Qed.

(** [s(c)] is a scalar of [fin] below every half distance of row [c]. *)
Lemma closest_other_below {index : Relation} {val : num -> Q}
    {fin : num -> Prop} {V : Vector -> Prop}
    (Hexact : ExactOn val fin (KMEANS_DISTANCE_PROC index) V)
    (cs : VectorArray) (h : list num) (c : nat) :
  fin FLT_MAX ->
  half_ok index cs val fin h ->
  c < va_maxlen cs ->
  fin (closest_other (va_maxlen cs) h c) /\
  forall k, k < va_maxlen cs -> k <> c ->
    (val (closest_other (va_maxlen cs) h c) <= val (h !!! (c * va_maxlen cs + k)%nat))%Q.
Proof.
  intros Hfmax Hhalf Hc. unfold closest_other.
  apply (fold_left_seq_ind
           (fun i m =>
              fin m /\
              forall k, k < i -> k <> c ->
                (val m <= val (h !!! (c * va_maxlen cs + k)%nat))%Q)).
  - split; [exact Hfmax|]. intros k Hk. lia.
  - intros i m Hi (Hfm & Hmin).
    destruct (c =? i) eqn:Hci.
    + apply Nat.eqb_eq in Hci. subst i.
      split; [exact Hfm|]. intros k Hk Hne. apply Hmin; [lia|exact Hne].
    + apply Nat.eqb_neq in Hci.
      destruct (Hhalf c i Hc Hi Hci) as [Hfh _].
      destruct (flt (h !!! (c * va_maxlen cs + i)) m) eqn:Hlt.
      * apply (exact_flt _ _ _ _ Hexact _ _ Hfh Hfm) in Hlt.
        split; [exact Hfh|].
        intros k Hk Hne. destruct (decide (k = i)) as [->|Hki]; [apply Qle_refl|].
        specialize (Hmin k ltac:(lia) Hne). lra.
      * assert (val m <= val (h !!! (c * va_maxlen cs + i)%nat))%Q as Hge.
        { apply Qnot_lt_le. intros H. apply (exact_flt _ _ _ _ Hexact _ _ Hfh Hfm) in H.
          congruence. }
        split; [exact Hfm|].
        intros k Hk Hne. destruct (decide (k = i)) as [->|Hki]; [exact Hge|].
        apply Hmin; [lia|exact Hne].
Qed.

Lemma assign_phase_nearest {index : Relation} {samples : VectorArray} {val : num -> Q}
    {fin : num -> Prop} {V : Vector -> Prop}
    (Hexact : ExactOn val fin (KMEANS_DISTANCE_PROC index) V)
    (Hhalves : halves_exact val fin (KMEANS_DISTANCE_PROC index) V)
    (iteration : nat) (st : elkan_state) :
  (Z.of_nat (va_maxlen (centers st)) * Z.of_nat (va_maxlen (centers st)) <= INT_MAX)%Z ->
  (forall j, j < va_length samples -> V (VectorArrayGet samples j)) ->
  elkan_ok index samples val fin V st ->
  indices_valid samples st ->
  (iteration = 0 -> forall j, j < va_length samples ->
   (val (upperBound st !!! j)
    == sample_distance index samples (centers st) val j (closestCenters st !!! j))%Q) ->
  forall j, j < va_length samples ->
    nearest index samples (centers st) val j
      (closestCenters (assign_phase index samples iteration st).1 !!! j).
Proof.
  intros Hsmall Hvs (_ & _ & Hvc & Hok) (_ & _ & _ & _ & Hh & Hs & _) Htight.
  unfold assign_phase. cbn [fst closestCenters].
  assert (half_ok index (centers st) val fin
            (step1 index (centers st) (va_maxlen (centers st)) (halfcdist st))) as Hhalf
    by (apply (step1_half_ok Hexact Hhalves); [exact Hvc|lia]).
  apply (assign_points_nearest Hexact); try assumption.
  - rewrite step1_length. lia.
  - intros c Hc. rewrite compute_s_lookup by lia.
    apply (closest_other_below Hexact); [apply Hhalves|exact Hhalf|exact Hc].
  - intros Hfirst. apply Htight.
    apply negb_false_iff, Nat.eqb_eq in Hfirst. exact Hfirst.
Qed.

(** After the setup the upper bound of a sample is its distance to its
   center. *)
Lemma elkan_setup_tight {index : Relation} {samples : VectorArray} {val : num -> Q}
    {fin : num -> Prop} {V : Vector -> Prop}
    (Hexact : ExactOn val fin (KMEANS_DISTANCE_PROC index) V)
    (cs : VectorArray) (w : world) (st0 : elkan_state) :
  (forall j, j < va_length samples -> V (VectorArrayGet samples j)) ->
  (forall k, k < va_maxlen cs -> V (VectorArrayGet (centers st0) k)) ->
  elkan_setup index samples cs w = Ok st0 ->
  (forall j, j < va_length samples -> exists k, k < va_maxlen cs /\
     flt (to_float (KMEANS_DISTANCE_PROC index (VectorArrayGet samples j)
                      (VectorArrayGet (centers st0) k))) FLT_MAX = true) ->
  forall j, j < va_length samples ->
    (val (upperBound st0 !!! j)
     == val (KMEANS_DISTANCE_PROC index (VectorArrayGet samples j)
               (VectorArrayGet (centers st0) (closestCenters st0 !!! j))))%Q.
Proof.
  intros Hvs Hvc Hsetup Hnear j Hj.
  destruct (elkan_setup_rows index samples cs w st0 Hsetup j Hj) as (-> & -> & Hcells).
  pose proof (initial_closest_scan (va_maxlen cs) (lowerBound st0) j (va_maxlen cs)) as Hscan.
  unfold initial_closest.
  destruct (fold_left _ (seq 0 (va_maxlen cs)) (FLT_MAX, 0)) as [m c]. cbn [fst snd].
  destruct Hscan as [[Hc ->]|(_ & _ & Hnone)].
  - rewrite (Hcells c Hc).
    apply (exact_distance _ _ _ _ Hexact _ _ (Hvs j Hj) (Hvc c Hc)).
  - exfalso. destruct (Hnear j Hj) as (k & Hk & Hlt).
    specialize (Hnone k Hk). rewrite (Hcells k Hk) in Hnone. congruence.
Qed.

(** X14.  Steps 1 to 3 assign every sample to a nearest center, as the
   plain algorithm would, although they skip most distance
   computations.  This holds in a run that rounds nothing in its first
   [n] passes (as for the bounds, and with halved distances that a
   [float] holds exactly), with [numCenters * numCenters <= INT_MAX],
   below which the [int] index into [halfcdist] cannot wrap: after
   Steps 1 to 3 of each of the passes 0 to [n] no center is closer to a
   sample than the center the sample is assigned to. *)
Theorem elkan_assigns_nearest index (samples cs : VectorArray) (w : world)
    (val : num -> Q) (fin : num -> Prop) (V : Vector -> Prop) (st0 : elkan_state)
    (n : nat) :
  ExactOn val fin (KMEANS_DISTANCE_PROC index) V ->
  halves_exact val fin (KMEANS_DISTANCE_PROC index) V ->
  (Z.of_nat (va_maxlen cs) * Z.of_nat (va_maxlen cs) <= INT_MAX)%Z ->
  va_maxlen cs <= length (va_items cs) ->
  (forall j, j < va_length samples -> V (VectorArrayGet samples j)) ->
  elkan_setup index samples cs w = Ok st0 ->
  (forall j, j < va_length samples -> exists k, k < va_maxlen cs /\
     flt (to_float (KMEANS_DISTANCE_PROC index (VectorArrayGet samples j)
                      (VectorArrayGet (centers st0) k))) FLT_MAX = true) ->
  (forall iteration st w1, iteration < n ->
     elkan_reaches index samples st0 iteration st ->
     CHECK_FOR_INTERRUPTS (wld st) = Ok w1 ->
     widening_exact index samples val fin V iteration (with_world st w1)) ->
  forall iteration st,
    iteration <= n ->
    elkan_reaches index samples st0 iteration st ->
    forall j, j < va_length samples ->
      nearest index samples (centers st) val j
        (closestCenters (assign_phase index samples iteration st).1 !!! j).
Proof.
  intros Hexact Hhalves Hsmall Hroom Hvs Hsetup Hnear Hwide iteration st Hle Hreach j Hj.
  assert (0 < va_length samples) as Hsome by lia.
  assert (0 < va_maxlen cs) as Hpos by (destruct (Hnear 0 Hsome) as (k & Hk & _); lia).
  destruct (elkan_setup_ok Hexact cs w st0 Hroom Hsome Hvs Hsetup Hnear) as [Hmax0 Hok0].
  pose proof (elkan_reaches_ok Hexact st0 n Hvs Hok0 Hwide iteration st Hreach Hle) as Hok.
  destruct (elkan_reaches_indices index samples cs w st0 Hpos Hroom Hsetup iteration st
              Hreach) as (Hmax & Hvalid).
  apply (assign_phase_nearest Hexact Hhalves); try assumption.
  - rewrite Hmax. exact Hsmall.
  - intros -> j' Hj'. apply elkan_reaches_0 in Hreach. subst st.
    destruct Hok0 as (_ & _ & Hvc & _). rewrite Hmax0 in Hvc.
    apply (elkan_setup_tight Hexact cs w st0 Hvs Hvc Hsetup Hnear j' Hj').
Qed.

(** *** A loop that stopped early returns a fixed point *)

(** Nearness is read off the first [maxlen] centers only. *)
Lemma nearest_ext index (samples cs cs' : VectorArray) (val : num -> Q) (j c : nat) :
  va_maxlen cs' = va_maxlen cs ->
  (forall k, k < va_maxlen cs -> VectorArrayGet cs' k = VectorArrayGet cs k) ->
  c < va_maxlen cs ->
  nearest index samples cs val j c -> nearest index samples cs' val j c.
Proof.
  intros Hmax Hsame Hc Hnear k Hk. rewrite Hmax in Hk. specialize (Hnear k Hk).
  unfold sample_distance in *. rewrite (Hsame c Hc), (Hsame k Hk). exact Hnear.
Qed.

(** X20.  A loop that stopped early returns a fixed point of k-means,
   when the passes before its last one round nothing: if no center is
   left without a sample, every center returned is the mean of the
   samples assigned to it, and every sample is assigned to a center
   that is as close to it as any center returned.  The preconditions
   are those of the nearest centers, and
   [numSamples * numCenters < 2^31] for the counter [changes]. *)
Theorem elkan_converged_fixpoint index (samples cs : VectorArray) (w : world)
    (val : num -> Q) (fin : num -> Prop) (V : Vector -> Prop)
    (st0 st' : elkan_state) (trace : list Z) :
  ExactOn val fin (KMEANS_DISTANCE_PROC index) V ->
  halves_exact val fin (KMEANS_DISTANCE_PROC index) V ->
  (Z.of_nat (va_maxlen cs) * Z.of_nat (va_maxlen cs) <= INT_MAX)%Z ->
  va_maxlen cs <= length (va_items cs) ->
  (Z.of_nat (va_length samples * va_maxlen cs) < 2 ^ 31)%Z ->
  (forall j, j < va_length samples -> V (VectorArrayGet samples j)) ->
  elkan_setup index samples cs w = Ok st0 ->
  (forall j, j < va_length samples -> exists k, k < va_maxlen cs /\
     flt (to_float (KMEANS_DISTANCE_PROC index (VectorArrayGet samples j)
                      (VectorArrayGet (centers st0) k))) FLT_MAX = true) ->
  elkan_loop index samples 500 0 st0 = Ok (st', trace) ->
  length trace < 500 ->
  (forall iteration st w1, iteration < length trace - 1 ->
     elkan_reaches index samples st0 iteration st ->
     CHECK_FOR_INTERRUPTS (wld st) = Ok w1 ->
     widening_exact index samples val fin V iteration (with_world st w1)) ->
  (forall c, c < va_maxlen cs ->
     assigned (closestCenters st') (va_length samples) c <> []) ->
  (forall j, j < va_length samples ->
     nearest index samples (centers st') val j (closestCenters st' !!! j)) /\
  (forall c, c < va_maxlen cs ->
     VectorArrayGet (centers st') c
     = normalize_if_needed (KMEANS_NORM_PROC index)
         (cluster_mean samples (va_dim cs)
            (assigned (closestCenters st') (va_length samples) c))).
Proof.
  intros Hexact Hhalves Hsmall Hroom Hbound Hvs Hsetup Hnear Hloop Hearly Hwide Hfull.
  destruct (Nat.eq_dec (va_maxlen cs) 0) as [Hnone|Hsomec].
  { split; [|intros c Hc; lia].
    intros j Hj. destruct (Hnear j Hj) as (k & Hk & _). lia. }
  assert (0 < va_maxlen cs) as Hpos by lia.
  destruct (elkan_setup_indices index samples cs w st0 Hpos Hroom Hsetup)
    as [Hmax0 Hvalid0].
  assert (va_dim (centers st0) = va_dim cs) as Hdim0.
  { revert Hsetup. unfold elkan_setup.
    destruct (_ >? _)%Z; [discriminate|].
    destruct (indexing_overflows _); [discriminate|].
    destruct (InitCenters _ _ _ _ _) as [[[cs1 lb1] w1]|e] eqn:Hseed; [|discriminate].
    cbn [bind]. apply InitCenters_shape in Hseed as (_ & _ & Hd).
    destruct (initial_assignment _ _ _ _ _) as [ub cc]. intros [= <-]. exact Hd. }
  assert (Z.of_nat (va_length samples) < 2 ^ 31)%Z as Hcount by nia.
  (* the last pass and the one before it *)
  destruct (elkan_loop_last index samples st0 500 0 st0 st' trace
              (reaches_start index samples st0) Hloop ltac:(lia))
    as (st_last & w1 & Hreach & Hcheck & Hst & Hzero).
  cbn [Nat.add] in *. specialize (Hzero Hearly).
  assert (2 <= length trace) as Hpasses.
  { pose proof (elkan_loop_trace index samples 500 0 st0) as Htr. rewrite Hloop in Htr.
    destruct Htr as (_ & Hp & Hstep). specialize (Hp ltac:(lia)).
    destruct trace as [|c0 trace]; [simpl in Hp; lia|].
    specialize (Hstep 0 c0 eq_refl). cbn [length] in *.
    assert (1 < S (length trace)); [|lia].
    apply Hstep. split; [intros [_ ?]; lia|lia]. }
  destruct (length trace - 1) as [|m] eqn:Hm; [lia|].
  destruct (elkan_reaches_S index samples st0 m st_last Hreach)
    as (st_prev & w0 & Hreach_prev & Hcheck_prev & Hlast).
  (* what is known of the states involved *)
  destruct (elkan_reaches_indices index samples cs w st0 Hpos Hroom Hsetup _ _ Hreach)
    as [Hmax_last Hvalid_last].
  destruct (elkan_reaches_indices index samples cs w st0 Hpos Hroom Hsetup _ _
              Hreach_prev) as [Hmax_prev Hvalid_prev].
  pose proof (elkan_reaches_dim index samples st0 _ _ Hreach) as Hdim_last.
  pose proof (elkan_reaches_dim index samples st0 _ _ Hreach_prev) as Hdim_prev.
  (* the last pass changed no assignment *)
  destruct (elkan_pass_closest index samples (S m) (with_world st_last w1))
    as [Hclosest Hchanges].
  rewrite Hchanges in Hzero.
  destruct (assign_phase_changes index samples (S m) (with_world st_last w1)) as [_ Hsame].
  { cbn [with_world centers]. rewrite Hmax_last. exact Hbound. }
  specialize (Hsame Hzero). cbn [with_world closestCenters] in Hsame.
  assert (closestCenters st' = closestCenters st_last) as Hkeep
    by (rewrite Hst, Hclosest; exact Hsame).
  (* so the centers did not move *)
  assert (forall c, c < va_maxlen cs ->
            VectorArrayGet (centers st') c
            = normalize_if_needed (KMEANS_NORM_PROC index)
                (cluster_mean samples (va_dim cs)
                   (assigned (closestCenters st') (va_length samples) c))) as Hmeans.
  { intros c Hc. rewrite Hst.
    rewrite (elkan_pass_mean index samples (S m) (with_world st_last w1) c Hcount).
    - cbn [with_world centers]. rewrite Hdim_last, Hdim0, <- Hst. reflexivity.
    - destruct Hvalid_last as [Hr _]. exact Hr.
    - cbn [with_world centers]. lia.
    - rewrite <- Hst. apply Hfull, Hc. }
  assert (forall c, c < va_maxlen cs ->
            VectorArrayGet (centers st_last) c
            = normalize_if_needed (KMEANS_NORM_PROC index)
                (cluster_mean samples (va_dim cs)
                   (assigned (closestCenters st') (va_length samples) c))) as Hmeans_last.
  { intros c Hc. rewrite Hkeep, Hlast.
    rewrite (elkan_pass_mean index samples m (with_world st_prev w0) c Hcount).
    - cbn [with_world centers]. rewrite Hdim_prev, Hdim0. reflexivity.
    - destruct Hvalid_prev as [Hr _]. exact Hr.
    - cbn [with_world centers]. lia.
    - rewrite <- Hlast, <- Hkeep. apply Hfull, Hc. }
  split; [|exact Hmeans].
  intros j Hj.
  assert (0 < va_length samples) as Hsome by lia.
  destruct (elkan_setup_ok Hexact cs w st0 Hroom Hsome Hvs Hsetup Hnear) as [_ Hok0].
  pose proof (elkan_reaches_ok Hexact st0 (S m) Hvs Hok0 Hwide (S m) st_last Hreach
                (Nat.le_refl _)) as Hok_last.
  assert (nearest index samples (centers st_last) val j
            (closestCenters (assign_phase index samples (S m)
                               (with_world st_last w1)).1 !!! j)) as Hnearest.
  { apply (assign_phase_nearest Hexact Hhalves (S m) (with_world st_last w1));
      try assumption.
    - cbn [with_world centers]. rewrite Hmax_last. exact Hsmall.
    - intros H. discriminate H. }
  rewrite Hsame, <- Hkeep in Hnearest.
  apply (nearest_ext index samples (centers st_last) (centers st') val).
  - rewrite Hst.
    destruct (elkan_pass_centers index samples (S m) (with_world st_last w1)) as (_ & H & _).
    exact H.
  - intros k Hk. rewrite Hmax_last in Hk. rewrite Hmeans, Hmeans_last by exact Hk.
    reflexivity.
  - rewrite Hkeep. destruct Hvalid_last as (_ & _ & _ & Hlen & _ & _ & _ & Hall).
    apply (Forall_at _ _ j Hall). lia.
  - exact Hnearest.
Qed.

End Properties.

(** ** The comparisons of IEEE 754 *)

(** On zeros and [double]s in canonical form, [SFcompare] is the order
   of the rationals they stand for. *)
Section IEEEOrder.

Local Open Scope Q_scope.

Lemma digits2_pos_size (m : positive) : digits2_pos m = Pos.size m.
Proof. induction m as [m IH|m IH|]; simpl; congruence. Qed.

Lemma digits2_pos_bounds (m : positive) :
  (2 ^ (Zpos (digits2_pos m) - 1) <= Zpos m < 2 ^ Zpos (digits2_pos m))%Z.
Proof.
  rewrite digits2_pos_size.
  pose proof (Pos.size_gt m) as Hgt. pose proof (Pos.size_le m) as Hle.
  apply Pos2Z.pos_lt_pos in Hgt. apply Pos2Z.pos_le_pos in Hle.
  rewrite Pos2Z.inj_pow in Hgt, Hle.
  change (Z.pos m~0) with (2 * Z.pos m)%Z in Hle.
  replace (Z.pos (Pos.size m)) with (Z.succ (Z.pos (Pos.size m) - 1)) in Hle by lia.
  rewrite Z.pow_succ_r in Hle by lia. lia.
Qed.

Lemma magnitude_pos (m : positive) (e : Z) : 0 < inject_Z (Zpos m) * 2 ^ e.
Proof.
  apply Qmult_lt_0_compat; [|apply Qpower_0_lt; reflexivity].
  change 0 with (inject_Z 0). rewrite <- Zlt_Qlt. lia.
Qed.

(** Between canonical [double]s, the lower exponent is the lower
   magnitude. *)
Lemma magnitude_lt (m1 m2 : positive) (e1 e2 : Z) :
  bounded IEEE754.prec64 IEEE754.emax64 m1 e1 = true ->
  bounded IEEE754.prec64 IEEE754.emax64 m2 e2 = true ->
  (e1 < e2)%Z ->
  inject_Z (Zpos m1) * 2 ^ e1 < inject_Z (Zpos m2) * 2 ^ e2.
Proof.
  unfold bounded, canonical_mantissa, fexp, emin, IEEE754.prec64, IEEE754.emax64.
  intros H1 H2 He.
  apply andb_prop in H1 as [H1 _]. apply andb_prop in H2 as [H2 _].
  apply Z.eqb_eq in H1, H2.
  pose proof (digits2_pos_bounds m1) as [_ B1].
  pose proof (digits2_pos_bounds m2) as [B2 _].
  assert (Zpos (digits2_pos m1) <= 53)%Z as D1 by lia.
  assert (Zpos (digits2_pos m2) = 53)%Z as D2 by lia.
  rewrite D2 in B2.
  assert (Zpos m1 < 2 ^ 53)%Z as M1.
  { eapply Z.lt_le_trans; [exact B1|]. apply Z.pow_le_mono_r; lia. }
  replace e2 with (e1 + (e2 - e1))%Z by lia.
  rewrite Qpower_plus by discriminate.
  rewrite <- (Zpower_Qpower 2 (e2 - e1)) by lia.
  rewrite (Qmult_comm (2 ^ e1)), Qmult_assoc, <- inject_Z_mult.
  apply Qmult_lt_compat_r; [apply Qpower_0_lt; reflexivity|].
  rewrite <- Zlt_Qlt.
  assert (2 ^ 1 <= 2 ^ (e2 - e1))%Z by (apply Z.pow_le_mono_r; lia).
  change (2 ^ (53 - 1))%Z with 4503599627370496%Z in B2.
  change (2 ^ 53)%Z with 9007199254740992%Z in M1.
  change (2 ^ 1)%Z with 2%Z in H. nia.
Qed.

Lemma magnitude_compare (m1 m2 : positive) (e1 e2 : Z) :
  bounded IEEE754.prec64 IEEE754.emax64 m1 e1 = true ->
  bounded IEEE754.prec64 IEEE754.emax64 m2 e2 = true ->
  (inject_Z (Zpos m1) * 2 ^ e1 ?= inject_Z (Zpos m2) * 2 ^ e2)
  = match (e1 ?= e2)%Z with
    | Lt => Lt
    | Gt => Gt
    | Eq => Pos.compare_cont Eq m1 m2
    end.
Proof.
  intros H1 H2. destruct (Z.compare_spec e1 e2) as [->|He|He].
  - change (Pos.compare_cont Eq m1 m2) with (Z.pos m1 ?= Z.pos m2)%Z.
    assert (0 < 2 ^ e2) as Hp by (apply Qpower_0_lt; reflexivity).
    destruct (Z.compare_spec (Z.pos m1) (Z.pos m2)) as [Hm|Hm|Hm].
    + apply Qeq_alt. rewrite Hm. reflexivity.
    + apply Qlt_alt. apply Qmult_lt_compat_r; [exact Hp|]. rewrite <- Zlt_Qlt. exact Hm.
    + apply Qgt_alt. apply Qmult_lt_compat_r; [exact Hp|]. rewrite <- Zlt_Qlt. exact Hm.
  - apply Qlt_alt. apply magnitude_lt; assumption.
  - apply Qgt_alt. apply magnitude_lt; assumption.
Qed.

(** The value of a finite scalar is its magnitude with its sign. *)
Lemma IEEE754_value_finite (s : bool) (m : positive) (e : Z) :
  IEEE754.value (S754_finite s m e)
  == if s then - (inject_Z (Zpos m) * 2 ^ e) else inject_Z (Zpos m) * 2 ^ e.
Proof.
  destruct s; simpl; [|reflexivity].
  change (Z.neg m) with (- Z.pos m)%Z. rewrite inject_Z_opp. ring.
Qed.

Lemma IEEE754_compare_value (x y : spec_float) :
  IEEE754.finite x = true -> IEEE754.finite y = true ->
  SFcompare x y = Some (IEEE754.value x ?= IEEE754.value y).
Proof.
  destruct x as [sx|sx| |sx mx ex], y as [sy|sy| |sy my ey]; try discriminate;
    intros Hx Hy; cbn [IEEE754.finite] in Hx, Hy.
  - reflexivity.
  - cbn [SFcompare]. f_equal. symmetry.
    pose proof (magnitude_pos my ey) as Hp. pose proof (IEEE754_value_finite sy my ey) as Hv.
    revert Hp Hv. generalize (inject_Z (Z.pos my) * 2 ^ ey). intros M Hp Hv.
    change (IEEE754.value (S754_zero sx)) with 0.
    destruct sy; cbv iota in Hv;
      [apply (proj1 (Qgt_alt _ _))|apply (proj1 (Qlt_alt _ _))]; lra.
  - cbn [SFcompare]. f_equal. symmetry.
    pose proof (magnitude_pos mx ex) as Hp. pose proof (IEEE754_value_finite sx mx ex) as Hv.
    revert Hp Hv. generalize (inject_Z (Z.pos mx) * 2 ^ ex). intros M Hp Hv.
    change (IEEE754.value (S754_zero sy)) with 0.
    destruct sx; cbv iota in Hv;
      [apply (proj1 (Qlt_alt _ _))|apply (proj1 (Qgt_alt _ _))]; lra.
  - cbn [SFcompare]. f_equal. symmetry.
    pose proof (magnitude_pos mx ex) as Hpx. pose proof (magnitude_pos my ey) as Hpy.
    pose proof (magnitude_compare mx my ex ey Hx Hy) as Hc.
    pose proof (IEEE754_value_finite sx mx ex) as Hvx.
    pose proof (IEEE754_value_finite sy my ey) as Hvy.
    revert Hpx Hpy Hc Hvx Hvy.
    generalize (inject_Z (Z.pos mx) * 2 ^ ex), (inject_Z (Z.pos my) * 2 ^ ey).
    intros X Y Hpx Hpy Hc Hvx Hvy.
    destruct sx, sy; cbv iota in Hvx, Hvy.
    + transitivity (CompOpp (X ?= Y));
        [|rewrite Hc; destruct (ex ?= ey)%Z; reflexivity].
      clear Hc. destruct (X ?= Y) eqn:H; cbn [CompOpp];
        [apply Qeq_alt in H; apply (proj1 (Qeq_alt _ _))
        |apply Qlt_alt in H; apply (proj1 (Qgt_alt _ _))
        |apply Qgt_alt in H; apply (proj1 (Qlt_alt _ _))]; lra.
    + apply (proj1 (Qlt_alt _ _)). lra.
    + apply (proj1 (Qgt_alt _ _)). lra.
    + rewrite <- Hc. destruct (X ?= Y) eqn:H;
        [apply Qeq_alt in H; apply (proj1 (Qeq_alt _ _))
        |apply Qlt_alt in H; apply (proj1 (Qlt_alt _ _))
        |apply Qgt_alt in H; apply (proj1 (Qgt_alt _ _))]; lra.
Qed.

(** So are [<] and [<=]. *)
Lemma IEEE754_flt_value (x y : spec_float) :
  IEEE754.finite x = true -> IEEE754.finite y = true ->
  (SFltb x y = true <-> IEEE754.value x < IEEE754.value y).
Proof.
  intros Hx Hy. unfold SFltb. rewrite (IEEE754_compare_value x y Hx Hy), Qlt_alt.
  destruct (IEEE754.value x ?= IEEE754.value y); split; congruence.
Qed.

Lemma IEEE754_fle_value (x y : spec_float) :
  IEEE754.finite x = true -> IEEE754.finite y = true ->
  (SFleb x y = true <-> IEEE754.value x <= IEEE754.value y).
Proof.
  intros Hx Hy. unfold SFleb. rewrite (IEEE754_compare_value x y Hx Hy), Qle_alt.
  destruct (IEEE754.value x ?= IEEE754.value y); split; congruence.
Qed.

End IEEEOrder.

(** On every scalar, NaN and the infinities included, [<] is
   irreflexive and transitive, and [x <= y < z] gives [x < z]. *)
Ltac order_cases :=
  repeat match goal with
  | |- context [Pos.compare_cont Eq ?a ?b] =>
      change (Pos.compare_cont Eq a b) with (Pos.compare a b)
  | H : context [Pos.compare_cont Eq ?a ?b] |- _ =>
      change (Pos.compare_cont Eq a b) with (Pos.compare a b) in H
  end;
  repeat match goal with
  | H : context [(?a ?= ?b)%Z] |- _ => destruct (Z.compare_spec a b); try discriminate H
  | H : context [(?a ?= ?b)%positive] |- _ => destruct (Pos.compare_spec a b); try discriminate H
  | |- context [(?a ?= ?b)%Z] => destruct (Z.compare_spec a b)
  | |- context [(?a ?= ?b)%positive] => destruct (Pos.compare_spec a b)
  end;
  subst; cbn [CompOpp] in *; try discriminate; try reflexivity; try lia.

Lemma IEEE754_flt_trans (x y z : spec_float) :
  SFltb x y = true -> SFltb y z = true -> SFltb x z = true.
Proof.
  unfold SFltb.
  destruct x as [sx|sx| |sx mx ex], y as [sy|sy| |sy my ey], z as [sz|sz| |sz mz ez];
    cbn [SFcompare]; try discriminate; try reflexivity;
    repeat match goal with s : bool |- _ => destruct s end;
    try discriminate; try reflexivity; intros H1 H2; order_cases.
Qed.

Lemma IEEE754_fle_flt_trans (x y z : spec_float) :
  SFleb x y = true -> SFltb y z = true -> SFltb x z = true.
Proof.
  unfold SFleb, SFltb.
  destruct x as [sx|sx| |sx mx ex], y as [sy|sy| |sy my ey], z as [sz|sz| |sz mz ez];
    cbn [SFcompare]; try discriminate; try reflexivity;
    repeat match goal with s : bool |- _ => destruct s end;
    try discriminate; try reflexivity; intros H1 H2; order_cases.
Qed.

Lemma IEEE754_flt_irrefl (x : spec_float) : SFltb x x = false.
Proof.
  unfold SFltb. destruct x as [s|s| |s m e]; cbn [SFcompare]; try reflexivity.
  - destruct s; reflexivity.
  - destruct s; rewrite Z.compare_refl;
      change (Pos.compare_cont Eq m m) with (m ?= m)%positive;
      rewrite Pos.compare_refl; reflexivity.
Qed.

Lemma IEEE754_OrderLaws : @OrderLaws IEEE754.ops.
Proof.
  split.
  - exact IEEE754_flt_irrefl.
  - exact IEEE754_flt_trans.
  - exact IEEE754_fle_flt_trans.
Qed.

(** ** A run in IEEE arithmetic that rounds nothing *)

(** The samples 0, 1 and 10 with two centers: the distances and their
   halves, the shifts of the centers and the widened bounds are all
   [float]s, in the setup and in the passes 0 and 1. *)

Ltac in_vectors :=
  repeat match goal with
  | H : In _ (_ :: _) |- _ => destruct H as [<-|H]
  | H : In _ [] |- _ => destruct H
  end.

Lemma IEEERun_exact :
  @ExactOn IEEE754.ops IEEE754.value IEEERun.fin IEEERun.distance
           (fun v => In v IEEERun.vectors).
Proof.
  split.
  - split; reflexivity.
  - intros x y Hx Hy. apply IEEE754_flt_value; assumption.
  - intros x y Hx Hy. apply IEEE754_fle_value; assumption.
  - intros a b Ha Hb. unfold IEEERun.vectors in Ha, Hb. in_vectors;
      (split; [reflexivity|split; [reflexivity|vm_compute; reflexivity]]).
  - intros a b Ha Hb. unfold IEEERun.vectors in Ha, Hb. in_vectors;
      apply Qle_bool_iff; vm_compute; reflexivity.
  - intros a b Ha Hb. unfold IEEERun.vectors in Ha, Hb. in_vectors; vm_compute; reflexivity.
  - intros a b c Ha Hb Hc. unfold IEEERun.vectors in Ha, Hb, Hc. in_vectors;
      apply Qle_bool_iff; vm_compute; reflexivity.
Qed.

(** The setup and the first two passes. *)
Lemma IEEERun_setup :
  @elkan_setup IEEE754.ops IEEERun.outside IEEERun.index IEEERun.points IEEERun.two_centers
               IEEERun.world0 = Ok IEEERun.grouped.
Proof. vm_cast_no_check (eq_refl (Ok IEEERun.grouped)). Qed.

Lemma IEEERun_pass_0 :
  (@elkan_pass IEEE754.ops IEEERun.outside IEEERun.index IEEERun.points 0
     (with_world IEEERun.grouped (mkWorld 2 3))).1 = IEEERun.after_pass_0.
Proof. vm_cast_no_check (eq_refl IEEERun.after_pass_0). Qed.

Lemma IEEERun_pass_1 :
  (@elkan_pass IEEE754.ops IEEERun.outside IEEERun.index IEEERun.points 1
     (with_world IEEERun.after_pass_0 (mkWorld 2 4))).1 = IEEERun.after_pass_1.
Proof. vm_cast_no_check (eq_refl IEEERun.after_pass_1). Qed.

Lemma IEEERun_reaches_1 :
  @elkan_reaches IEEE754.ops IEEERun.outside IEEERun.index IEEERun.points IEEERun.grouped 1
                 IEEERun.after_pass_0.
Proof.
  rewrite <- IEEERun_pass_0.
  apply (@reaches_pass IEEE754.ops IEEERun.outside IEEERun.index IEEERun.points IEEERun.grouped 0
           IEEERun.grouped (mkWorld 2 3)); [apply reaches_start|reflexivity].
Qed.

Lemma IEEERun_reaches_2 :
  @elkan_reaches IEEE754.ops IEEERun.outside IEEERun.index IEEERun.points IEEERun.grouped 2
                 IEEERun.after_pass_1.
Proof.
  rewrite <- IEEERun_pass_1.
  apply (@reaches_pass IEEE754.ops IEEERun.outside IEEERun.index IEEERun.points IEEERun.grouped 1
           IEEERun.after_pass_0 (mkWorld 2 4)); [exact IEEERun_reaches_1|reflexivity].
Qed.

(** Steps 5 and 6 of the passes 0 and 1 round nothing. *)
Ltac widening_cases :=
  split;
  [intros k Hk; cbn in Hk; destruct k as [|[|k]]; [| |lia]; vm_compute; auto 6
  |intros j Hj; cbn in Hj; destruct j as [|[|[|j]]]; [| | |lia];
   (split;
    [intros k Hk; cbn in Hk; destruct k as [|[|k]]; [| |lia];
     (split; [vm_compute; reflexivity|vm_compute; reflexivity])
    |split; [vm_compute; reflexivity|vm_compute; reflexivity]])].

Lemma IEEERun_widening_0 :
  @widening_exact IEEE754.ops IEEERun.outside IEEERun.index IEEERun.points IEEE754.value
    IEEERun.fin
    (fun v => In v IEEERun.vectors) 0 (with_world IEEERun.grouped (mkWorld 2 3)).
Proof. unfold widening_exact. cbv zeta. widening_cases. Qed.

Lemma IEEERun_widening_1 :
  @widening_exact IEEE754.ops IEEERun.outside IEEERun.index IEEERun.points IEEE754.value
    IEEERun.fin
    (fun v => In v IEEERun.vectors) 1 (with_world IEEERun.after_pass_0 (mkWorld 2 4)).
Proof. unfold widening_exact. cbv zeta. widening_cases. Qed.

Lemma IEEERun_widening (iteration : nat) (st : @elkan_state IEEE754.ops) (w1 : world) :
  iteration < 2 ->
  @elkan_reaches IEEE754.ops IEEERun.outside IEEERun.index IEEERun.points IEEERun.grouped
                 iteration st ->
  @CHECK_FOR_INTERRUPTS IEEE754.ops IEEERun.outside (wld st) = Ok w1 ->
  @widening_exact IEEE754.ops IEEERun.outside IEEERun.index IEEERun.points IEEE754.value
    IEEERun.fin
    (fun v => In v IEEERun.vectors) iteration (with_world st w1).
Proof.
  intros Hlt Hreach Hcheck.
  destruct iteration as [|[|iteration]]; [| |lia].
  - apply elkan_reaches_0 in Hreach. subst st. injection Hcheck as <-.
    exact IEEERun_widening_0.
  - apply elkan_reaches_S in Hreach as (st_prev & w0 & Hprev & Hc0 & ->).
    apply elkan_reaches_0 in Hprev. subst st_prev. injection Hc0 as <-.
    change (mkWorld (rng (wld IEEERun.grouped)) (S (checks (wld IEEERun.grouped))))
      with (mkWorld 2 3) in *.
    rewrite IEEERun_pass_0 in *. injection Hcheck as <-. exact IEEERun_widening_1.
Qed.

(** The halved distances are exact too. *)
Lemma IEEERun_halves :
  @halves_exact IEEE754.ops IEEE754.value IEEERun.fin IEEERun.distance
                (fun v => In v IEEERun.vectors).
Proof.
  split; [reflexivity|].
  intros a b Ha Hb. unfold IEEERun.vectors in Ha, Hb. in_vectors;
    (split; [reflexivity|vm_compute; reflexivity]).
Qed.

(** Every sample has a seeded center below [FLT_MAX]. *)
Lemma IEEERun_near (j : nat) :
  j < va_length IEEERun.points ->
  exists k, k < va_maxlen IEEERun.two_centers /\
    SFltb (IEEE754.narrow
             (IEEERun.distance (VectorArrayGet IEEERun.points j)
                               (VectorArrayGet (centers IEEERun.grouped) k)))
          IEEE754.flt_max = true.
Proof.
  intros Hj. cbn in Hj. exists 0. split; [cbn; lia|].
  destruct j as [|[|[|j]]]; [| | |lia]; vm_cast_no_check (eq_refl true).
Qed.

(** The samples are vectors of the run. *)
Lemma IEEERun_points (j : nat) :
  j < va_length IEEERun.points -> In (VectorArrayGet IEEERun.points j) IEEERun.vectors.
Proof.
  intros Hj. cbn in Hj. destruct j as [|[|[|j]]]; [| | |lia]; vm_compute; auto 6.
Qed.

(** The loop stops after its second pass. *)
Lemma IEEERun_loop :
  @elkan_loop IEEE754.ops IEEERun.outside IEEERun.index IEEERun.points 500 0
              IEEERun.grouped = Ok IEEERun.trained.
Proof. vm_cast_no_check (eq_refl (Ok IEEERun.trained)). Qed.

(** ** The statements on concrete runs *)

(** The samples theorem on the quick run, two samples for three
   centers: the call returns [ExactRun.quick_result]. *)
Lemma IvfflatKmeans_samples_witness :
  @IvfflatKmeans ExactQ.ops ExactRun.outside ExactRun.index ExactRun.few_samples
                 ExactRun.three_centers IVFFLAT_TYPE_VECTOR ExactRun.world0
  = Ok ExactRun.quick_result /\
  (va_maxlen ExactRun.three_centers < va_length ExactRun.few_samples ->
   ExactRun.quick_result.1.1 = ExactRun.few_samples) /\
  (va_length ExactRun.few_samples <= va_maxlen ExactRun.three_centers ->
   ExactRun.quick_result.1.1
   = if 0 <? va_length ExactRun.few_samples
     then @qsort_array ExactQ.ops ExactRun.outside ExactRun.few_samples
     else ExactRun.few_samples) /\
  Permutation (va_items ExactRun.quick_result.1.1) (va_items ExactRun.few_samples) /\
  va_length ExactRun.quick_result.1.1 = va_length ExactRun.few_samples.
Proof.
  split; [vm_compute; reflexivity|].
  apply (@IvfflatKmeans_samples ExactQ.ops ExactRun.outside
           (quiet_world_QsortSpec _ _) ExactRun.index ExactRun.few_samples
           ExactRun.three_centers IVFFLAT_TYPE_VECTOR ExactRun.world0
           ExactRun.quick_result.1.1 ExactRun.quick_result.1.2 ExactRun.quick_result.2).
  vm_compute. reflexivity.
Defined.

(** The InitCenters theorem on the three samples and two centers, with
   a bounds array of six cells. *)
Lemma InitCenters_lowerBound_witness :
  va_length ExactRun.samples * va_maxlen ExactRun.two_centers
  <= length (replicate 6 0%Q) /\
  match @InitCenters ExactQ.ops ExactRun.outside ExactRun.index ExactRun.samples
                     ExactRun.two_centers (replicate 6 0%Q) ExactRun.world0 with
  | Ok (cs', lowerBound', w') =>
      forall j i, j < va_length ExactRun.samples -> i < va_maxlen ExactRun.two_centers ->
        lowerBound' !! (j * va_maxlen ExactRun.two_centers + i)
        = Some (to_float (KMEANS_DISTANCE_PROC ExactRun.index
                            (VectorArrayGet ExactRun.samples j) (VectorArrayGet cs' i)))
  | Err e => e = Cancelled /\ exists k, @interrupt_pending ExactQ.ops ExactRun.outside k = true
  end.
Proof.
  split; [simpl; lia|].
  apply (@InitCenters_lowerBound ExactQ.ops ExactRun.outside ExactRun.index
           ExactRun.samples ExactRun.two_centers (replicate 6 0%Q) ExactRun.world0).
  simpl. lia.
Defined.

(** The bounds theorem on the run of the samples 0, 1 and 10 in IEEE
   arithmetic, with its first two passes exact: the bounds are sound at
   the head of pass 2 and after its Steps 1 to 3. *)
Lemma elkan_bounds_sound_witness :
  @elkan_setup IEEE754.ops IEEERun.outside IEEERun.index IEEERun.points
               IEEERun.two_centers IEEERun.world0 = Ok IEEERun.grouped /\
  @bounds_sound IEEE754.ops IEEERun.index IEEERun.points IEEERun.after_pass_1 /\
  @bounds_sound IEEE754.ops IEEERun.index IEEERun.points
    (@assign_phase IEEE754.ops IEEERun.outside IEEERun.index IEEERun.points 2
                   IEEERun.after_pass_1).1.
Proof.
  split; [exact IEEERun_setup|].
  apply (@elkan_bounds_sound IEEE754.ops IEEERun.outside IEEERun.index IEEERun.points
           IEEERun.two_centers IEEERun.world0 IEEE754.value IEEERun.fin
           (fun v => In v IEEERun.vectors) IEEERun.grouped 2 IEEERun_exact).
  - cbn. lia.
  - exact IEEERun_points.
  - exact IEEERun_setup.
  - exact IEEERun_near.
  - exact IEEERun_widening.
  - lia.
  - exact IEEERun_reaches_2.
Defined.

(** In exact arithmetic, with two samples [2 * FLT_MAX] apart and one
   center, the scan for the closest initial center starts from
   [FLT_MAX], never finds less, and leaves [upperBound[1] = FLT_MAX],
   below the distance from sample 1 to its center. *)
Lemma far_samples_unsound :
  @elkan_setup ExactQ.ops ExactRun.outside ExactRun.index ExactRun.far_samples
               ExactRun.one_center ExactRun.world0 = Ok ExactRun.far_seeded /\
  ~ @bounds_sound ExactQ.ops ExactRun.index ExactRun.far_samples ExactRun.far_seeded.
Proof.
  split; [vm_compute; reflexivity|].
  intros H. destruct (H 1) as (_ & _ & Hup); [vm_compute; lia|].
  vm_compute in Hup. discriminate.
Qed.

(** In IEEE arithmetic the store of a distance into [lowerBound] rounds
   it to a [float], here upwards: after the setup [lowerBound[1]] is
   [1 + 2^-23], above the distance [1 + 2^-24 + 2^-40] from sample 1 to
   center 0. *)
Lemma rounded_bound_unsound :
  @elkan_setup IEEE754.ops IEEERun.outside IEEERun.index IEEERun.samples
               IEEERun.one_center IEEERun.world0 = Ok IEEERun.seeded /\
  ~ @bounds_sound IEEE754.ops IEEERun.index IEEERun.samples IEEERun.seeded.
Proof.
  split; [vm_cast_no_check (eq_refl (Ok IEEERun.seeded))|].
  intros H. destruct (H 1) as (Hlow & _ & _); [cbv; lia|].
  assert (0 < va_maxlen (centers IEEERun.seeded)) as Hpos by (cbv; lia).
  specialize (Hlow 0 Hpos).
  assert (fle (lowerBound IEEERun.seeded !!! (1 * va_maxlen (centers IEEERun.seeded) + 0))
              (KMEANS_DISTANCE_PROC IEEERun.index (VectorArrayGet IEEERun.samples 1)
                                    (VectorArrayGet (centers IEEERun.seeded) 0))
          = false) as Hfalse by (vm_cast_no_check (eq_refl false)).
  congruence.
Qed.

(** C1, the claim as stated: the bounds are not sound at the head of
   pass 0, in IEEE arithmetic because a stored lower bound was rounded
   up, and in exact arithmetic because an upper bound was capped at
   [FLT_MAX]. *)
Lemma elkan_bounds_unsound :
  (@elkan_reaches IEEE754.ops IEEERun.outside IEEERun.index IEEERun.samples
                  IEEERun.seeded 0 IEEERun.seeded /\
   @elkan_setup IEEE754.ops IEEERun.outside IEEERun.index IEEERun.samples
                IEEERun.one_center IEEERun.world0 = Ok IEEERun.seeded /\
   ~ @bounds_sound IEEE754.ops IEEERun.index IEEERun.samples IEEERun.seeded) /\
  (@elkan_reaches ExactQ.ops ExactRun.outside ExactRun.index ExactRun.far_samples
                  ExactRun.far_seeded 0 ExactRun.far_seeded /\
   @elkan_setup ExactQ.ops ExactRun.outside ExactRun.index ExactRun.far_samples
                ExactRun.one_center ExactRun.world0 = Ok ExactRun.far_seeded /\
   ~ @bounds_sound ExactQ.ops ExactRun.index ExactRun.far_samples ExactRun.far_seeded).
Proof.
  split; (split; [apply reaches_start|]).
  - apply rounded_bound_unsound.
  - apply far_samples_unsound.
Qed.

(** C2, the claim as stated: on the quick path the samples come back in
   another order than they went in. *)
Lemma IvfflatKmeans_reorders_samples :
  exists samples' cs' w',
    @IvfflatKmeans IEEE754.ops IEEERun.outside IEEERun.index IEEERun.few_samples
                   IEEERun.three_centers IVFFLAT_TYPE_VECTOR IEEERun.world0
    = Ok (samples', cs', w') /\
    va_items IEEERun.few_samples = [[IEEERun.one]; [S754_zero false]] /\
    va_items samples' = [[S754_zero false]; [IEEERun.one]] /\
    samples' <> IEEERun.few_samples.
Proof.
  exists IEEERun.quick_result.1.1, IEEERun.quick_result.1.2, IEEERun.quick_result.2.
  split; [vm_cast_no_check (eq_refl (Ok IEEERun.quick_result))|].
  split; [reflexivity|]. split; [reflexivity|].
  intros Heq.
  assert (va_items IEEERun.quick_result.1.1 = va_items IEEERun.few_samples) as Hitems
    by (rewrite Heq; reflexivity).
  discriminate Hitems.
Qed.

(** C8, the claim as stated: three distinct finite centers, in an array
   that is full, with no index-level norm function, and [CheckCenters]
   fails all the same, because the element type is not the vector type. *)
Lemma CheckCenters_unsupported_type :
  @CheckCenters IEEE754.ops IEEERun.outside IEEERun.index IEEERun.good_centers
                IVFFLAT_TYPE_OTHER = Err UnsupportedType /\
  va_length IEEERun.good_centers = va_maxlen IEEERun.good_centers /\
  ~ has_nan (va_elems IEEERun.good_centers) /\
  ~ has_inf (va_elems IEEERun.good_centers) /\
  ~ adjacent_equal
      (va_elems (@qsort_array IEEE754.ops IEEERun.outside IEEERun.good_centers)) /\
  NORM_PROC IEEERun.index = None.
Proof.
  split; [reflexivity|]. split; [reflexivity|].
  assert (~ (has_nan (va_elems IEEERun.good_centers)
             \/ has_inf (va_elems IEEERun.good_centers))) as Hclean.
  { intros H. apply check_values_Err in H as [e He]. vm_compute in He. discriminate. }
  split; [tauto|]. split; [tauto|]. split; [|reflexivity].
  intros H. apply has_adjacent_duplicate_spec in H. vm_compute in H. discriminate.
Qed.

(** C4, the claim as stated: the cell holds the distance as the store
   rounded it to a [float], not the distance.  With the samples [1] and
   [-(2^-24 + 2^-40)] and one center, which is sample 0, the distance
   from sample 1 to the center is [1 + 2^-24 + 2^-40] and the cell of
   sample 1 holds [1 + 2^-23], which is more. *)
Lemma InitCenters_lowerBound_rounded :
  exists cs' lowerBound' w',
    @InitCenters IEEE754.ops IEEERun.outside IEEERun.index IEEERun.samples
                 IEEERun.one_center (replicate 2 (S754_zero false)) IEEERun.world0
    = Ok (cs', lowerBound', w') /\
    let cell := lowerBound' !!! (1 * va_maxlen IEEERun.one_center + 0) in
    let d := @KMEANS_DISTANCE_PROC IEEE754.ops IEEERun.index
               (VectorArrayGet IEEERun.samples 1) (VectorArrayGet cs' 0) in
    cell <> d /\
    SFltb d cell = true /\
    (IEEE754.value d == 1099511693313 # 1099511627776)%Q /\
    (IEEE754.value cell == 8388609 # 8388608)%Q.
Proof.
  exists (centers IEEERun.seeded), (lowerBound IEEERun.seeded), (mkWorld 1 1).
  split; [vm_cast_no_check
            (eq_refl (@Ok (@VectorArray IEEE754.ops * list spec_float * world)
                          (centers IEEERun.seeded, lowerBound IEEERun.seeded,
                           mkWorld 1 1)))|].
  cbv zeta. split; [intros H; vm_compute in H; discriminate H|].
  split; [vm_cast_no_check (eq_refl true)|].
  split; vm_compute; reflexivity.
Qed.




(** The theorem of the sorted centers on the quick run in IEEE
   arithmetic, two samples for three centers. *)
Lemma IvfflatKmeans_sorted_witness :
  @IvfflatKmeans IEEE754.ops IEEERun.outside IEEERun.index IEEERun.few_samples
                 IEEERun.three_centers IVFFLAT_TYPE_VECTOR IEEERun.world0
  = Ok IEEERun.quick_result /\
  exists trained,
    (if va_length IEEERun.few_samples <=? va_maxlen IEEERun.three_centers
     then @QuickCenters IEEE754.ops IEEERun.outside IEEERun.index IEEERun.few_samples
                        IEEERun.three_centers IVFFLAT_TYPE_VECTOR IEEERun.world0
          = Ok (IEEERun.quick_result.1.1, trained, IEEERun.quick_result.2)
     else @ElkanKmeans IEEE754.ops IEEERun.outside IEEERun.index IEEERun.few_samples
                       IEEERun.three_centers IVFFLAT_TYPE_VECTOR IEEERun.world0
          = Ok (trained, IEEERun.quick_result.2)
          /\ IEEERun.quick_result.1.1 = IEEERun.few_samples) /\
    IEEERun.quick_result.1.2 = @qsort_array IEEE754.ops IEEERun.outside trained /\
    va_length IEEERun.quick_result.1.2 = va_length trained /\
    va_length IEEERun.quick_result.1.2 = va_maxlen IEEERun.quick_result.1.2 /\
    Permutation (take (va_length IEEERun.quick_result.1.2)
                      (va_items IEEERun.quick_result.1.2))
                (take (va_length trained) (va_items trained)) /\
    Sorted (@vector_le IEEE754.ops)
           (take (va_length IEEERun.quick_result.1.2) (va_items IEEERun.quick_result.1.2)).
Proof.
  split; [vm_cast_no_check (eq_refl (Ok IEEERun.quick_result))|].
  apply (@IvfflatKmeans_sorted IEEE754.ops IEEERun.outside (quiet_world_QsortSpec _ _)
           IEEERun.index IEEERun.few_samples IEEERun.three_centers IVFFLAT_TYPE_VECTOR
           IEEERun.world0 IEEERun.quick_result.1.1 IEEERun.quick_result.1.2
           IEEERun.quick_result.2).
  vm_cast_no_check (eq_refl (Ok IEEERun.quick_result)).
Defined.


(** ** The further properties on concrete runs *)

Lemma ExactRun_setup :
  @elkan_setup ExactQ.ops ExactRun.outside ExactRun.index ExactRun.samples ExactRun.two_centers
      ExactRun.world0 = Ok ExactRun.seeded.
Proof. vm_compute. reflexivity. Qed.

Lemma ExactRun_reaches_1 :
  @elkan_reaches ExactQ.ops ExactRun.outside ExactRun.index ExactRun.samples ExactRun.seeded 1
      ExactRun.after_pass_0.
Proof.
  apply (@reaches_pass ExactQ.ops ExactRun.outside ExactRun.index ExactRun.samples
      ExactRun.seeded 0 ExactRun.seeded (mkWorld 2 3)).
  - apply reaches_start.
  - reflexivity.
Qed.

Lemma InitCenters_seeds_witness :
  @InitCenters ExactQ.ops ExactRun.outside ExactRun.index ExactRun.samples ExactRun.two_centers
      (replicate 6 0%Q) ExactRun.world0
  = Ok ExactRun.seeding /\
  va_length ExactRun.seeding.1.1 = va_length ExactRun.two_centers + va_maxlen
      ExactRun.two_centers /\
  va_maxlen ExactRun.seeding.1.1 = va_maxlen ExactRun.two_centers /\
  va_dim ExactRun.seeding.1.1 = va_dim ExactRun.two_centers /\
  forall i, i < va_maxlen ExactRun.two_centers ->
    exists j, j < va_length ExactRun.samples /\
      VectorArrayGet ExactRun.seeding.1.1 i = VectorArrayGet ExactRun.samples j.
Proof.
  split; [vm_compute; reflexivity|].
  apply (@InitCenters_seeds ExactQ.ops ExactRun.outside ExactRun.index ExactRun.samples
      ExactRun.two_centers (replicate 6 0%Q)
           ExactRun.world0 ExactRun.seeding.1.1 ExactRun.seeding.1.2 ExactRun.seeding.2).
  - simpl. lia.
  - simpl. lia.
  - simpl. lia.
  - vm_compute. reflexivity.
Defined.

Lemma CheckCenters_postcondition_witness :
  @CheckCenters ExactQ.ops ExactRun.outside ExactRun.index ExactRun.full_centers
      IVFFLAT_TYPE_VECTOR
  = Ok ExactRun.checked_centers /\
  va_length ExactRun.checked_centers = va_maxlen ExactRun.checked_centers /\
  va_length ExactRun.checked_centers = va_length ExactRun.full_centers /\
  va_maxlen ExactRun.checked_centers = va_maxlen ExactRun.full_centers /\
  va_dim ExactRun.checked_centers = va_dim ExactRun.full_centers /\
  Permutation (va_elems ExactRun.checked_centers) (va_elems ExactRun.full_centers) /\
  Forall (Forall (fun x => nonfinite x = false)) (va_elems ExactRun.checked_centers) /\
  ~ adjacent_equal (va_elems ExactRun.checked_centers) /\
  (forall normproc, NORM_PROC ExactRun.index = Some normproc ->
     Forall (fun v => feq (normproc v) zero = false) (va_elems ExactRun.checked_centers)).
Proof.
  split; [vm_compute; reflexivity|].
  apply (@CheckCenters_postcondition ExactQ.ops ExactRun.outside (quiet_world_QsortSpec _ _)
      ExactRun.index
           ExactRun.full_centers ExactRun.checked_centers IVFFLAT_TYPE_VECTOR).
  vm_compute. reflexivity.
Defined.

Lemma IvfflatKmeans_outcome_witness :
  (va_length ExactRun.three_centers = 0 /\ 0 < va_maxlen ExactRun.three_centers) /\
  match @IvfflatKmeans ExactQ.ops ExactRun.outside ExactRun.index ExactRun.few_samples
      ExactRun.three_centers
                       IVFFLAT_TYPE_VECTOR ExactRun.world0 with
  | Ok (samples', cs', w') =>
      IVFFLAT_TYPE_VECTOR = IVFFLAT_TYPE_VECTOR /\
      va_length cs' = va_maxlen ExactRun.three_centers /\
      va_maxlen cs' = va_maxlen ExactRun.three_centers /\
      va_dim cs' = va_dim ExactRun.three_centers
  | Err NotEnoughCenters => False
  | Err IndexingOverflow => False
  | Err (BudgetExceeded _ _) => va_maxlen ExactRun.three_centers < va_length
      ExactRun.few_samples
  | Err Cancelled => va_maxlen ExactRun.three_centers < va_length ExactRun.few_samples
  | Err UnsupportedType => IVFFLAT_TYPE_VECTOR = IVFFLAT_TYPE_OTHER
  | Err NaNDetected =>
      IVFFLAT_TYPE_VECTOR = IVFFLAT_TYPE_VECTOR \/
      va_maxlen ExactRun.three_centers < va_length ExactRun.few_samples
  | Err InfiniteDetected =>
      IVFFLAT_TYPE_VECTOR = IVFFLAT_TYPE_VECTOR \/
      va_maxlen ExactRun.three_centers < va_length ExactRun.few_samples
  | Err DuplicateCenters => IVFFLAT_TYPE_VECTOR = IVFFLAT_TYPE_VECTOR
  | Err ZeroNormDetected =>
      IVFFLAT_TYPE_VECTOR = IVFFLAT_TYPE_VECTOR /\ NORM_PROC ExactRun.index <> None
  end.
Proof.
  split; [split; [reflexivity|simpl; lia]|].
  apply (@IvfflatKmeans_outcome ExactQ.ops ExactRun.outside ExactRun.index ExactRun.few_samples
      ExactRun.three_centers
           IVFFLAT_TYPE_VECTOR ExactRun.world0).
  - reflexivity.
  - simpl. lia.
Defined.

Lemma elkan_loop_converged_witness :
  @elkan_loop ExactQ.ops ExactRun.outside ExactRun.index ExactRun.samples 500 0 ExactRun.seeded
      = Ok ExactRun.trained /\
  length ExactRun.trained.2 < 500 /\
  exists st w1,
    @elkan_reaches ExactQ.ops ExactRun.outside ExactRun.index ExactRun.samples ExactRun.seeded
        (length ExactRun.trained.2 - 1) st /\
    @CHECK_FOR_INTERRUPTS ExactQ.ops ExactRun.outside (wld st) = Ok w1 /\
    ExactRun.trained.1
    = (@elkan_pass ExactQ.ops ExactRun.outside ExactRun.index ExactRun.samples (length
        ExactRun.trained.2 - 1)
         (with_world st w1)).1 /\
    closestCenters ExactRun.trained.1 = closestCenters st.
Proof.
  split; [vm_compute; reflexivity|]. split; [simpl; lia|].
  apply (@elkan_loop_converged ExactQ.ops ExactRun.outside ExactRun.index ExactRun.samples
      ExactRun.seeded ExactRun.trained.1 ExactRun.trained.2).
  - vm_compute. reflexivity.
  - vm_compute. reflexivity.
  - simpl. lia.
Defined.


Lemma step1_spec_witness :
  let h : list (@num ExactQ.ops) := replicate 4 0%Q in
  let h' := @step1 ExactQ.ops ExactRun.index (centers ExactRun.seeded) 2 h in
  2 * 2 <= length h /\
  length h' = length h /\
  (forall j k, j < k -> k < 2 ->
     h' !!! (j * 2 + k)
     = to_float (fmul half (KMEANS_DISTANCE_PROC ExactRun.index (VectorArrayGet (centers
         ExactRun.seeded) j)
                                                 (VectorArrayGet (centers ExactRun.seeded) k)))
                                                     /\
     h' !!! (k * 2 + j) = h' !!! (j * 2 + k)) /\
  (forall j, j < 2 -> h' !!! (j * 2 + j) = h !!! (j * 2 + j)).
Proof.
  cbv zeta. split; [simpl; lia|].
  apply (@step1_spec ExactQ.ops ExactRun.index (centers ExactRun.seeded) 2 (replicate 4 0%Q)).
  simpl. lia.
Defined.

Lemma ElkanKmeans_dims_witness :
  @ElkanKmeans ExactQ.ops ExactRun.outside ExactRun.index ExactRun.samples ExactRun.two_centers
      IVFFLAT_TYPE_VECTOR ExactRun.world0
  = Ok ExactRun.elkan_result /\
  forall k, k < va_maxlen ExactRun.two_centers ->
    length (VectorArrayGet ExactRun.elkan_result.1 k) = va_dim ExactRun.two_centers.
Proof.
  split; [vm_compute; reflexivity|].
  apply (@ElkanKmeans_dims ExactQ.ops ExactRun.outside ExactRun.index ExactRun.samples
      ExactRun.two_centers
           IVFFLAT_TYPE_VECTOR ExactRun.world0 ExactRun.elkan_result.1 ExactRun.elkan_result.2).
  - simpl. lia.
  - vm_compute. reflexivity.
Defined.

Lemma ElkanKmeans_single_center_witness :
  @ElkanKmeans ExactQ.ops ExactRun.outside ExactRun.index ExactRun.samples ExactRun.one_center
      IVFFLAT_TYPE_VECTOR ExactRun.world0
  = Ok ExactRun.single_result /\
  checks ExactRun.single_result.2 = checks ExactRun.world0 + 3 /\
  VectorArrayGet ExactRun.single_result.1 0
  = normalize_if_needed (KMEANS_NORM_PROC ExactRun.index)
      (cluster_mean ExactRun.samples (va_dim ExactRun.one_center) (seq 0 (va_length
          ExactRun.samples))).
Proof.
  split; [vm_compute; reflexivity|].
  apply (@ElkanKmeans_single_center ExactQ.ops ExactRun.outside ExactRun.index ExactRun.samples
      ExactRun.one_center
           IVFFLAT_TYPE_VECTOR ExactRun.world0 ExactRun.single_result.1
               ExactRun.single_result.2).
  - reflexivity.
  - simpl. lia.
  - simpl. lia.
  - vm_compute. reflexivity.
  - vm_compute. reflexivity.
Defined.

(** ** The scans and the run that rounds nothing, on concrete runs *)

Lemma ElkanKmeans_returns_witness :
  ((@totalSize ExactQ.ops ExactRun.outside ExactRun.samples ExactRun.two_centers
    <= wrapSize (@maintenance_work_mem ExactQ.ops ExactRun.outside * 1024))%Z /\
   0 < va_length ExactRun.samples <= length (va_items ExactRun.samples) /\
   0 < va_maxlen ExactRun.two_centers <= length (va_items ExactRun.two_centers) /\
   (Z.of_nat (va_maxlen ExactRun.two_centers) * Z.of_nat (va_maxlen ExactRun.two_centers)
    <= INT_MAX)%Z /\
   (Z.of_nat (va_length ExactRun.samples) * Z.of_nat (va_maxlen ExactRun.two_centers)
    <= INT_MAX)%Z) /\
  exists cs' w',
    @ElkanKmeans ExactQ.ops ExactRun.outside ExactRun.index ExactRun.samples
        ExactRun.two_centers IVFFLAT_TYPE_VECTOR ExactRun.world0
    = Ok (cs', w') /\
    va_length cs' = va_length ExactRun.two_centers + va_maxlen ExactRun.two_centers /\
    va_maxlen cs' = va_maxlen ExactRun.two_centers /\
    va_dim cs' = va_dim ExactRun.two_centers.
Proof.
  split.
  { split; [vm_compute; discriminate|]. split; [simpl; lia|]. split; [simpl; lia|].
    split; vm_compute; discriminate. }
  apply (@ElkanKmeans_returns ExactQ.ops ExactRun.outside ExactRun.index ExactRun.samples
           ExactRun.two_centers IVFFLAT_TYPE_VECTOR ExactRun.world0).
  - vm_compute. discriminate.
  - intros i. reflexivity.
  - simpl. lia.
  - simpl. lia.
  - repeat constructor.
  - vm_compute. discriminate.
  - vm_compute. discriminate.
Defined.

Lemma elkan_indices_valid_witness :
  @elkan_setup ExactQ.ops ExactRun.outside ExactRun.index ExactRun.samples
               ExactRun.two_centers ExactRun.world0 = Ok ExactRun.seeded /\
  va_maxlen (centers ExactRun.after_pass_0) = va_maxlen ExactRun.two_centers /\
  @indices_valid ExactQ.ops ExactRun.samples ExactRun.after_pass_0 /\
  @indices_valid ExactQ.ops ExactRun.samples
    (@assign_phase ExactQ.ops ExactRun.outside ExactRun.index ExactRun.samples 1
                   ExactRun.after_pass_0).1 /\
  (forall st1,
    st1 = ExactRun.after_pass_0 \/
    st1 = (@assign_phase ExactQ.ops ExactRun.outside ExactRun.index ExactRun.samples 1
                         ExactRun.after_pass_0).1 ->
    forall j k, j < va_length ExactRun.samples -> k < va_maxlen ExactRun.two_centers ->
      halfcdist_index (closestCenters st1 !!! j) (va_maxlen ExactRun.two_centers) k
      = Z.of_nat (closestCenters st1 !!! j * va_maxlen ExactRun.two_centers + k) /\
      closestCenters st1 !!! j * va_maxlen ExactRun.two_centers + k
      < length (halfcdist st1)) /\
  forall g : Z -> Q,
    @assign_phase ExactQ.ops (@with_stray ExactQ.ops ExactRun.outside g) ExactRun.index
                  ExactRun.samples 1 ExactRun.after_pass_0
    = @assign_phase ExactQ.ops ExactRun.outside ExactRun.index ExactRun.samples 1
                    ExactRun.after_pass_0.
Proof.
  split; [exact ExactRun_setup|].
  apply (@elkan_indices_valid ExactQ.ops ExactRun.outside ExactRun.index ExactRun.samples
           ExactRun.two_centers ExactRun.world0 ExactRun.seeded).
  - simpl. lia.
  - simpl. lia.
  - simpl. lia.
  - vm_compute. discriminate.
  - exact ExactRun_setup.
  - exact ExactRun_reaches_1.
Defined.

(** The distance to the closest other center, in IEEE arithmetic, on
   the table of Step 1 for the centers of the setup. *)
Lemma compute_s_spec_witness :
  let h := @step1 IEEE754.ops IEEERun.index (centers IEEERun.grouped) 2
                  (replicate 4 (S754_zero false)) in
  let s0 := replicate 2 (S754_zero false) in
  2 <= length s0 /\
  forall j, j < 2 ->
    let sj := @compute_s IEEE754.ops 2 h s0 !!! j in
    SFltb IEEE754.flt_max sj = false /\
    (forall k, k < 2 -> k <> j -> SFltb (h !!! (j * 2 + k)) sj = false) /\
    (sj = IEEE754.flt_max \/ exists k, k < 2 /\ k <> j /\ sj = h !!! (j * 2 + k)).
Proof.
  cbv zeta. split; [simpl; lia|].
  apply (@compute_s_spec IEEE754.ops 2
           (@step1 IEEE754.ops IEEERun.index (centers IEEERun.grouped) 2
                   (replicate 4 (S754_zero false)))
           (replicate 2 (S754_zero false)) IEEE754_OrderLaws).
  simpl. lia.
Defined.

(** The initial assignment in IEEE arithmetic, on the samples 0, 1 and
   10 with two centers. *)
Lemma elkan_setup_nearest_witness :
  @elkan_setup IEEE754.ops IEEERun.outside IEEERun.index IEEERun.points
               IEEERun.two_centers IEEERun.world0 = Ok IEEERun.grouped /\
  forall j, j < va_length IEEERun.points ->
    let stored k :=
      IEEE754.narrow
        (IEEERun.distance (VectorArrayGet IEEERun.points j)
                          (VectorArrayGet (centers IEEERun.grouped) k)) in
    let c := closestCenters IEEERun.grouped !!! j in
    (c < va_maxlen IEEERun.two_centers /\
     upperBound IEEERun.grouped !!! j = stored c /\
     SFltb (stored c) IEEE754.flt_max = true /\
     (forall k, k < va_maxlen IEEERun.two_centers -> SFltb (stored k) (stored c) = false) /\
     (forall k, k < c -> SFleb (stored k) (stored c) = false)) \/
    (c = 0 /\
     upperBound IEEERun.grouped !!! j = IEEE754.flt_max /\
     forall k, k < va_maxlen IEEERun.two_centers ->
       SFltb (stored k) IEEE754.flt_max = false).
Proof.
  split; [exact IEEERun_setup|].
  exact (@elkan_setup_nearest IEEE754.ops IEEERun.outside IEEERun.index IEEERun.points
           IEEERun.two_centers IEEERun.world0 IEEERun.grouped IEEE754_OrderLaws
           IEEERun_setup).
Defined.

(** The nearest centers on the run of the samples 0, 1 and 10 in IEEE
   arithmetic, after Steps 1 to 3 of pass 2. *)
Lemma elkan_assigns_nearest_witness :
  @elkan_setup IEEE754.ops IEEERun.outside IEEERun.index IEEERun.points
               IEEERun.two_centers IEEERun.world0 = Ok IEEERun.grouped /\
  forall j, j < va_length IEEERun.points ->
    @nearest IEEE754.ops IEEERun.index IEEERun.points (centers IEEERun.after_pass_1)
      IEEE754.value j
      (closestCenters
         (@assign_phase IEEE754.ops IEEERun.outside IEEERun.index IEEERun.points 2
                        IEEERun.after_pass_1).1 !!! j).
Proof.
  split; [exact IEEERun_setup|].
  apply (@elkan_assigns_nearest IEEE754.ops IEEERun.outside IEEERun.index IEEERun.points
           IEEERun.two_centers IEEERun.world0 IEEE754.value IEEERun.fin
           (fun v => In v IEEERun.vectors) IEEERun.grouped 2 IEEERun_exact IEEERun_halves).
  - vm_compute. discriminate.
  - cbn. lia.
  - exact IEEERun_points.
  - exact IEEERun_setup.
  - exact IEEERun_near.
  - exact IEEERun_widening.
  - lia.
  - exact IEEERun_reaches_2.
Defined.

(** The distance loop of [InitCenters] in IEEE arithmetic, for center 0
   and the two samples whose distance is no [float]. *)
Lemma init_distance_weights_witness :
  let weight : list (@num IEEE754.ops) := replicate 2 IEEE754.flt_max in
  let r : list (@num IEEE754.ops) * list (@num IEEE754.ops) * @num IEEE754.ops :=
    fold_left (@init_distance IEEE754.ops IEEERun.index IEEERun.samples
                 (centers IEEERun.seeded) 1 0)
              (seq 0 2) (replicate 2 (S754_zero false), weight, S754_zero false) in
  2 <= length weight /\
  length r.1.2 = length weight /\
  (forall j, j < 2 ->
     let square :=
       SFmul IEEE754.prec64 IEEE754.emax64
         (IEEERun.distance (VectorArrayGet IEEERun.samples j)
                           (VectorArrayGet (centers IEEERun.seeded) 0))
         (IEEERun.distance (VectorArrayGet IEEERun.samples j)
                           (VectorArrayGet (centers IEEERun.seeded) 0)) in
     r.1.2 !!! j
     = if SFltb square (weight !!! j) then IEEE754.narrow square else weight !!! j) /\
  (forall j, 2 <= j -> r.1.2 !!! j = weight !!! j) /\
  r.2 = fold_left (fun sum j => SFadd IEEE754.prec64 IEEE754.emax64 sum (r.1.2 !!! j))
                  (seq 0 2) (S754_zero false).
Proof.
  cbv zeta. split; [simpl; lia|].
  apply (@init_distance_weights IEEE754.ops IEEERun.index IEEERun.samples
           (centers IEEERun.seeded) 1 2 0 (replicate 2 (S754_zero false))
           (replicate 2 IEEE754.flt_max)).
  simpl. lia.
Defined.

(** The fixed point on the run of the samples 0, 1 and 10 in IEEE
   arithmetic: the loop stops after its second pass. *)
Lemma elkan_converged_fixpoint_witness :
  (@elkan_setup IEEE754.ops IEEERun.outside IEEERun.index IEEERun.points
                IEEERun.two_centers IEEERun.world0 = Ok IEEERun.grouped /\
   @elkan_loop IEEE754.ops IEEERun.outside IEEERun.index IEEERun.points 500 0
               IEEERun.grouped = Ok IEEERun.trained /\
   length IEEERun.trained.2 < 500) /\
  (forall j, j < va_length IEEERun.points ->
     @nearest IEEE754.ops IEEERun.index IEEERun.points (centers IEEERun.trained.1)
       IEEE754.value j (closestCenters IEEERun.trained.1 !!! j)) /\
  (forall c, c < va_maxlen IEEERun.two_centers ->
     VectorArrayGet (centers IEEERun.trained.1) c
     = normalize_if_needed (KMEANS_NORM_PROC IEEERun.index)
         (@cluster_mean IEEE754.ops IEEERun.points (va_dim IEEERun.two_centers)
            (assigned (closestCenters IEEERun.trained.1) (va_length IEEERun.points) c))).
Proof.
  split.
  { split; [exact IEEERun_setup|]. split; [exact IEEERun_loop|simpl; lia]. }
  apply (@elkan_converged_fixpoint IEEE754.ops IEEERun.outside IEEERun.index
           IEEERun.points IEEERun.two_centers IEEERun.world0 IEEE754.value IEEERun.fin
           (fun v => In v IEEERun.vectors) IEEERun.grouped IEEERun.trained.1
           IEEERun.trained.2 IEEERun_exact IEEERun_halves).
  - vm_compute. discriminate.
  - cbn. lia.
  - vm_compute. reflexivity.
  - exact IEEERun_points.
  - exact IEEERun_setup.
  - exact IEEERun_near.
  - exact IEEERun_loop.
  - simpl. lia.
  - intros iteration st w1 Hlt. apply IEEERun_widening.
    change (length IEEERun.trained.2) with 2 in Hlt. lia.
  - intros c Hc. cbn in Hc.
    destruct c as [|[|c]]; [vm_compute; discriminate|vm_compute; discriminate|lia].
Defined.
